(** * people-memorizer: the training engine, embedded and verified

    A shallow embedding of [src/utils/parser.ts], [src/utils/training.ts]
    and of the session aggregation of [src/components/TrainingScreen.tsx].

    Conventions of the embedding:
    - a JavaScript string is the list of its UTF-16 code units ([N]);
    - integer-valued numbers (counters, boxes, timestamps) are [Z]; the
      sums that the program accumulates in stored counters are rounded as
      the addition of doubles rounds them ([number_add]), so they are the
      integer sums for safe integers only; numbers that carry fractions
      (weights, accuracies, random draws) are IEEE binary64 values, the
      kernel's primitive [float];
    - [Record<string, T>] is a finite map [gmap (list N) T] of the record's
      own properties; a read under a key that names a property of
      [Object.prototype] finds the inherited member when the record has
      none of its own: [initLeitnerCards], whose result for such a key is a
      value of the model, tells the case apart ([absent]); where the code
      goes on with the inherited member as if it were a card or an entry
      of statistics, the statements leave these keys out ([plain_key]);
    - [undefined] and a thrown [TypeError] are [None];
    - [Math.random()] and [Date.now()] read from an explicit [World], so a
      statement about every world is one about every outcome of the draws
      and of the clock;
    - a counting loop is a recursion on the number of turns it has left. *)

From Stdlib Require Import ZArith NArith List Ascii String Decimal.
From Corelib Require Import PrimFloat.
From stdpp Require Import gmap list sorting.

#[local] Set Warnings "-inexact-float".

Local Open Scope N_scope.

(** ** Strings *)

Abbreviation jsstring := (list N).

(** Code units of a source literal: the file is UTF-8, the engine's strings
    are UTF-16; all literals of the program are in the basic plane. *)
Fixpoint utf16_of_utf8 (bs : list N) : jsstring :=
  match bs with
  | [] => []
  | b1 :: rest =>
      if b1 <? 0x80 then b1 :: utf16_of_utf8 rest
      else if b1 <? 0xE0 then
        match rest with
        | b2 :: rest2 =>
            N.lor (N.shiftl (N.land b1 0x1F) 6) (N.land b2 0x3F)
              :: utf16_of_utf8 rest2
        | [] => []
        end
      else
        match rest with
        | b2 :: b3 :: rest3 =>
            N.lor (N.shiftl (N.land b1 0x0F) 12)
              (N.lor (N.shiftl (N.land b2 0x3F) 6) (N.land b3 0x3F))
              :: utf16_of_utf8 rest3
        | _ => []
        end
  end.

Definition lit (s : string) : jsstring :=
  utf16_of_utf8 (map N_of_ascii (list_ascii_of_string s)).

(** WhiteSpace and LineTerminator of ECMAScript: what [String.prototype.trim]
    strips and what the regular-expression class [\s] matches. *)
Definition is_ws (c : N) : bool :=
  (c =? 0x09) || (c =? 0x0A) || (c =? 0x0B) || (c =? 0x0C) || (c =? 0x0D)
  || (c =? 0x20) || (c =? 0xA0) || (c =? 0x1680)
  || ((0x2000 <=? c) && (c <=? 0x200A))
  || (c =? 0x2028) || (c =? 0x2029) || (c =? 0x202F) || (c =? 0x205F)
  || (c =? 0x3000) || (c =? 0xFEFF).

Fixpoint trimStart (s : jsstring) : jsstring :=
  match s with
  | [] => []
  | c :: s' => if is_ws c then trimStart s' else s
  end.

Definition trimEnd (s : jsstring) : jsstring := rev (trimStart (rev s)).

(** [s.trim()] *)
Definition trim (s : jsstring) : jsstring := trimEnd (trimStart s).

(** [text.split('\n')]: the pieces between line feeds; never empty. *)
Fixpoint split_nl (s : jsstring) : list jsstring :=
  match s with
  | [] => [[]]
  | c :: s' =>
      if c =? 0x0A then [] :: split_nl s'
      else match split_nl s' with
           | piece :: rest => (c :: piece) :: rest
           | [] => [[c]]
           end
  end.

(** [s.split(/\s+/)]: the pieces between maximal runs of whitespace, with an
    empty first (last) piece when [s] starts (ends) with whitespace.
    [prev_ws] tells that the previous code unit belongs to a run already
    consumed as a separator. *)
Fixpoint split_ws_from (prev_ws : bool) (s : jsstring) : list jsstring :=
  match s with
  | [] => [[]]
  | c :: s' =>
      if is_ws c then
        if prev_ws then split_ws_from true s'
        else [] :: split_ws_from true s'
      else match split_ws_from false s' with
           | piece :: rest => (c :: piece) :: rest
           | [] => [[c]]
           end
  end.

Definition split_ws (s : jsstring) : list jsstring := split_ws_from false s.

(** [line.split(/\s+/).filter((s) => s.length > 0)] *)
Definition tokens (line : jsstring) : list jsstring :=
  filter (fun s => (0 < length s)%nat) (split_ws line).

(** [xs.join(sep)] *)
Fixpoint join (sep : jsstring) (xs : list jsstring) : jsstring :=
  match xs with
  | [] => []
  | [x] => x
  | x :: rest => x ++ sep ++ join sep rest
  end.

(** [s.substring(a, b)] for [a <= b] *)
Definition substring (a b : nat) (s : jsstring) : jsstring :=
  firstn (b - a) (skipn a s).

(** Decimal rendering of a length interpolated into a template literal. *)
Fixpoint digits_of_uint (d : Decimal.uint) : jsstring :=
  match d with
  | Nil => []
  | D0 d' => 48 :: digits_of_uint d'
  | D1 d' => 49 :: digits_of_uint d'
  | D2 d' => 50 :: digits_of_uint d'
  | D3 d' => 51 :: digits_of_uint d'
  | D4 d' => 52 :: digits_of_uint d'
  | D5 d' => 53 :: digits_of_uint d'
  | D6 d' => 54 :: digits_of_uint d'
  | D7 d' => 55 :: digits_of_uint d'
  | D8 d' => 56 :: digits_of_uint d'
  | D9 d' => 57 :: digits_of_uint d'
  end.

Definition string_of_nat (n : nat) : jsstring := digits_of_uint (Nat.to_uint n).

Local Close Scope N_scope.

(** ** The world: random draws and clock readings *)

(** [random k] is the value the [k]-th coming call of [Math.random()]
    returns, [clock k] the one of the [k]-th coming [Date.now()]. *)
Record World := mkWorld { random : nat -> float; clock : nat -> Z }.

Definition IO (A : Type) : Type := World -> A * World.

Definition ret {A} (a : A) : IO A := fun w => (a, w).

Definition bind {A B} (c : IO A) (k : A -> IO B) : IO B :=
  fun w => let (a, w') := c w in k a w'.

Notation "x <- c ;; k" := (bind c (fun x => k))
  (at level 100, c at next level, right associativity).

Definition Math_random : IO float :=
  fun w => (random w 0, mkWorld (fun k => random w (S k)) (clock w)).

Definition Date_now : IO Z :=
  fun w => (clock w 0, mkWorld (random w) (fun k => clock w (S k))).

(** ** Numbers and records *)

(** [Number.MAX_SAFE_INTEGER], [2^53 - 1]. *)
Definition MAX_SAFE_INTEGER : Z := 9007199254740991.

(** The double nearest to the integer [z], the one with the even
    significand when two are as near. The integers up to [2^53] in
    magnitude are doubles; from there on the doubles are [2^e] apart, [e]
    growing by one at every power of two. (From [2^1024] on the nearest
    double is an infinity, which no integer stands for: a counter is taken
    to stay below.) *)
Definition round_double (z : Z) : Z :=
  let a := Z.abs z in
  let ulp := (2 ^ Z.max 0 (Z.log2 a - 52))%Z in
  let q := (a / ulp)%Z in
  let r := (a mod ulp)%Z in
  let q' :=
    if (2 * r <? ulp)%Z then q
    else if (ulp <? 2 * r)%Z then (q + 1)%Z
    else if Z.even q then q else (q + 1)%Z in
  (Z.sgn z * (q' * ulp))%Z.

(** [a + b] on two numbers that hold integers: the sum, rounded to a
    double. *)
Definition number_add (a b : Z) : Z := round_double (a + b).

(** The names of the properties of [Object.prototype]. Every record
    inherits them: [record[key]] under one of these keys is the inherited
    member (a function; the prototype itself under [__proto__]) when the
    record has no property of its own under the key. *)
Definition Object_prototype_keys : list jsstring :=
  Eval vm_compute in
    map lit
      ["constructor"; "hasOwnProperty"; "isPrototypeOf";
       "propertyIsEnumerable"; "toLocaleString"; "toString"; "valueOf";
       "__proto__"; "__defineGetter__"; "__defineSetter__";
       "__lookupGetter__"; "__lookupSetter__"]%string.

(** [!record[key]] on a record of objects: no property under [key], own or
    inherited (objects and the members of [Object.prototype] are truthy). *)
Definition absent {T} (record : gmap jsstring T) (key : jsstring) : bool :=
  match record !! key with
  | Some _ => false
  | None => negb (bool_decide (key ∈ Object_prototype_keys))
  end.

(** ** Data model ([src/types/index.ts]) *)

Module Person.
Record t := mk {
  id : jsstring;
  name : jsstring;
  parents : list jsstring;
  siblings : list jsstring }.
End Person.
Abbreviation Person := Person.t.

Module ParseError.
Record t := mk { message : jsstring; remainderLines : list jsstring }.
End ParseError.
Abbreviation ParseError := ParseError.t.

Inductive ParseResult :=
| Success (people : list Person)
| Failure (error : ParseError).

(** ** The text parser ([src/utils/parser.ts]) *)

Definition msg_empty : jsstring :=
  Eval vm_compute in lit "הטקסט ריק. יש להזין לפחות אדם אחד.".

Definition msg_one_a : jsstring :=
  Eval vm_compute in
    lit "שגיאה בפורמט: נותרה שורה אחת לא שלמה (חסרות שורות הורים ואחים). סך הכל ".

Definition msg_many_a : jsstring :=
  Eval vm_compute in lit "שגיאה בפורמט: נותרו ".

Definition msg_many_b : jsstring :=
  Eval vm_compute in lit " שורות לא שלמות (חסרה שורת אחים). סך הכל ".

Definition msg_tail : jsstring :=
  Eval vm_compute in lit " שורות שאינן ריקות - לא מתחלק ב-3.".

(** The template literal of the error for one dangling line. *)
Definition message_one (total : nat) : jsstring :=
  msg_one_a ++ string_of_nat total ++ msg_tail.

(** The template literal of the error for [remainder] dangling lines. *)
Definition message_many (remainder total : nat) : jsstring :=
  msg_many_a ++ string_of_nat remainder ++ msg_many_b
    ++ string_of_nat total ++ msg_tail.

(** [text.split('\n').map((line) => line.trim())
        .filter((line) => line.length > 0)] *)
Definition nonEmptyLines (text : jsstring) : list jsstring :=
  let allLines := map trim (split_nl text) in
  filter (fun line => (0 < length line)%nat) allLines.

Section Parser.

(** [Number.prototype.toString(36)] of the engine, on the doubles that
    [Math.random()] returns. *)
Variable toString36 : float -> jsstring.

(** The identifier made from the draw [r]. *)
Definition id_of_draw (r : float) : jsstring :=
  substring 2 11 (toString36 r).

(** [Math.random().toString(36).substring(2, 11)] *)
Definition generateId : IO jsstring :=
  r <- Math_random ;;
  ret (id_of_draw r).

(** One turn of the loop of [parsePeopleText] at index [i]; [None] is the
    [TypeError] of calling [split] on [undefined] (where [nonEmptyLines[i]]
    is [undefined], so is [nonEmptyLines[i + 1]]). *)
Definition parse_step (nonEmptyLines : list jsstring)
    (people : list Person) (i : nat) : IO (option (list Person)) :=
  match nonEmptyLines !! i, nonEmptyLines !! (i + 1),
        nonEmptyLines !! (i + 2) with
  | Some name, Some parentsLine, Some siblingsLine =>
      let parents := tokens parentsLine in
      let siblings := tokens siblingsLine in
      id <- generateId ;;
      ret (Some (people ++ [Person.mk id name parents siblings]))
  | _, _, _ => ret None
  end.

(** [for (let i = 0; i < n; i += 3)]: the turns left, [i] being the
    current index. *)
Fixpoint parse_loop (turns : nat) (nonEmptyLines : list jsstring)
    (people : list Person) (i : nat) : IO (option (list Person)) :=
  match turns with
  | O => ret (Some people)
  | S turns' =>
      r <- parse_step nonEmptyLines people i ;;
      match r with
      | Some people' => parse_loop turns' nonEmptyLines people' (i + 3)
      | None => ret None
      end
  end.

(** [parsePeopleText(text)]; [None] stands for a thrown exception. The loop
    makes a turn for every [i = 0, 3, 6, ...] below the number of lines. *)
Definition parsePeopleText (text : jsstring) : IO (option ParseResult) :=
  let nonEmptyLines := nonEmptyLines text in
  if length nonEmptyLines =? 0 then
    ret (Some (Failure (ParseError.mk msg_empty [])))
  else
    let remainder := length nonEmptyLines mod 3 in
    if negb (remainder =? 0) then
      let lastGroupStart := length nonEmptyLines - remainder in
      let remainderLines := skipn lastGroupStart nonEmptyLines in
      let message :=
        if remainder =? 1 then message_one (length nonEmptyLines)
        else message_many remainder (length nonEmptyLines) in
      ret (Some (Failure (ParseError.mk message remainderLines)))
    else
      r <- parse_loop ((length nonEmptyLines + 2) / 3) nonEmptyLines [] 0 ;;
      ret (option_map Success r).

End Parser.



(** ** Leitner spaced repetition ([src/utils/training.ts]) *)

Module LeitnerCard.
Record t := mk {
  personId : jsstring;
  box : Z;
  lastSeen : Z;
  correctStreak : Z }.
End LeitnerCard.
Abbreviation LeitnerCard := LeitnerCard.t.

(** An integer as a double; exact below [2^53]. *)
Fixpoint float_of_pos (p : positive) : float :=
  match p with
  | xH => 1
  | xO q => 2 * float_of_pos q
  | xI q => 2 * float_of_pos q + 1
  end%float.

Definition float_of_Z (z : Z) : float :=
  match z with
  | Z0 => 0
  | Zpos p => float_of_pos p
  | Zneg p => - float_of_pos p
  end%float.

(** [Math.min] on two doubles: [NaN] when either is, and [-0] below [+0]. *)
Definition Math_min (x y : float) : float :=
  if is_nan x || is_nan y then nan
  else if (x <? y)%float then x
  else if (y <? x)%float then y
  else if get_sign x then x else y.

Definition LEITNER_BOXES : Z := 3.
Definition BOX_WEIGHTS : list float := [5; 2; 1]%float.

(** [BOX_WEIGHTS[box]]: [None] is [undefined]. *)
Definition BOX_WEIGHTS_at (box : Z) : option float :=
  if (box <? 0)%Z then None else BOX_WEIGHTS !! Z.to_nat box.

Module Weighted.
Record t := mk { person : Person; weight : float }.
End Weighted.
Abbreviation Weighted := Weighted.t.

Fixpoint mapM {A B} (f : A -> IO B) (l : list A) : IO (list B) :=
  match l with
  | [] => ret []
  | a :: l' => b <- f a ;; bs <- mapM f l' ;; ret (b :: bs)
  end.

(** The callback of [candidates.map] in [selectNextPerson]. *)
Definition weigh (cards : gmap jsstring LeitnerCard) (p : Person) : IO Weighted :=
  let card := cards !! Person.id p in
  let box :=
    match card with
    | Some c => Z.min (LeitnerCard.box c) (LEITNER_BOXES - 1)
    | None => 0%Z
    end in
  timeSince <-
    match card with
    | Some c => now <- Date_now ;; ret (float_of_Z (now - LeitnerCard.lastSeen c))
    | None => ret infinity
    end ;;
  let recencyBonus := Math_min (timeSince / float_of_Z (1000 * 60)) 10 in
  ret (Weighted.mk p
         match BOX_WEIGHTS_at box with
         | Some bw => (bw + recencyBonus)%float
         | None => nan
         end).

(** The weighted draw: [rand -= weight; if (rand <= 0) return person]. *)
Fixpoint draw (rand : float) (weighted : list Weighted) : option Person :=
  match weighted with
  | [] => None
  | x :: rest =>
      let rand' := (rand - Weighted.weight x)%float in
      if (rand' <=? 0)%float then Some (Weighted.person x) else draw rand' rest
  end.

(** [selectNextPerson(people, cards, lastPersonId)]; the result [None] is
    [undefined], [lastPersonId = None] the omitted argument. *)
Definition selectNextPerson (people : list Person)
    (cards : gmap jsstring LeitnerCard) (lastPersonId : option jsstring)
  : IO (option Person) :=
  let candidates :=
    filter (fun p => Some (Person.id p) <> lastPersonId) people in
  if length candidates =? 0 then ret (people !! 0)
  else
    weighted <- mapM (weigh cards) candidates ;;
    let totalWeight :=
      fold_left (fun s w => (s + Weighted.weight w)%float) weighted 0%float in
    u <- Math_random ;;
    let rand := (u * totalWeight)%float in
    match draw rand weighted with
    | Some person => ret (Some person)
    | None => ret (candidates !! 0)
    end.

(** [updateLeitnerCard(card, correct)] *)
Definition updateLeitnerCard (card : LeitnerCard) (correct : bool)
  : IO LeitnerCard :=
  if correct then
    now <- Date_now ;;
    ret (LeitnerCard.mk (LeitnerCard.personId card)
           (Z.min (number_add (LeitnerCard.box card) 1) (LEITNER_BOXES - 1))
           now
           (number_add (LeitnerCard.correctStreak card) 1))
  else
    now <- Date_now ;;
    ret (LeitnerCard.mk (LeitnerCard.personId card) 0 now 0).

(** ** The matching round *)

Inductive RelationType := rel_parents | rel_siblings | rel_name.

Module Pair.
Record t := mk { personId : jsstring; name : jsstring; answer : jsstring }.
End Pair.
Abbreviation Pair := Pair.t.

Module MatchingRound.
Record t := mk { pairs : list Pair; relation : RelationType }.
End MatchingRound.
Abbreviation MatchingRound := MatchingRound.t.

Definition no_siblings : jsstring := Eval vm_compute in lit "אין אחים".
Definition comma_space : jsstring := Eval vm_compute in lit ", ".

(** [remaining.findIndex(...)] followed by [remaining.splice(idx, 1)]. *)
Definition remove_first_with_id (pid : jsstring) (remaining : list Person)
  : list Person :=
  match list_find (fun p => Person.id p = pid) remaining with
  | Some (idx, _) => delete idx remaining
  | None => remaining
  end.

(** The selection loop of [generateMatchingRound]. [left] is [4 - i]: at
    [i = 4] the test [i < Math.min(4, remaining.length)] fails whatever
    [remaining] holds. [None] is the [TypeError] of [person.id] on
    [undefined]. *)
Fixpoint matching_loop (left i : nat) (cards : gmap jsstring LeitnerCard)
    (selected remaining : list Person) : IO (option (list Person)) :=
  match left with
  | O => ret (Some selected)
  | S left' =>
      if i <? Nat.min 4 (length remaining) then
        person <- selectNextPerson remaining cards
                    (Person.id <$> last selected) ;;
        match person with
        | None => ret None
        | Some person =>
            matching_loop left' (S i) cards (selected ++ [person])
              (remove_first_with_id (Person.id person) remaining)
        end
      else ret (Some selected)
  end.

(** The answer of a pair: the callback of [selected.map]. *)
Definition pair_of (askParents : bool) (p : Person) : Pair :=
  Pair.mk (Person.id p) (Person.name p)
    (if askParents then join comma_space (Person.parents p)
     else if 0 <? length (Person.siblings p)
          then join comma_space (Person.siblings p)
          else no_siblings).

(** [generateMatchingRound(people, cards)] *)
Definition generateMatchingRound (people : list Person)
    (cards : gmap jsstring LeitnerCard) : IO (option MatchingRound) :=
  u <- Math_random ;;
  let askParents := (0.5 <? u)%float in
  let relation := if askParents then rel_parents else rel_siblings in
  r <- matching_loop 4 0 cards [] people ;;
  match r with
  | None => ret None
  | Some selected =>
      ret (Some (MatchingRound.mk (map (pair_of askParents) selected) relation))
  end.

(** ** The session aggregator ([src/components/TrainingScreen.tsx]) *)

Inductive GameMode :=
| flashcards | trueFalse | multipleChoice | matching | fillBlank
| freeRecall | speedRound.

Module AnswerResult.
Record t := mk {
  personId : jsstring;
  correct : bool;
  userAnswer : jsstring;
  correctAnswer : jsstring;
  mode : GameMode;
  timeMs : option Z }.
End AnswerResult.
Abbreviation AnswerResult := AnswerResult.t.

Module SessionStats.
Record t := mk {
  correct : Z;
  wrong : Z;
  streak : Z;
  bestStreak : Z;
  total : Z;
  accuracy : float;
  results : list AnswerResult }.
End SessionStats.
Abbreviation SessionStats := SessionStats.t.

Module PersonStats.
Record t := mk {
  personId : jsstring;
  name : jsstring;
  timesAsked : Z;
  timesCorrect : Z;
  accuracy : float }.
End PersonStats.
Abbreviation PersonStats := PersonStats.t.

Module OverallStats.
Record t := mk {
  totalSessions : Z;
  totalQuestions : Z;
  totalCorrect : Z;
  personStats : gmap jsstring PersonStats;
  leitnerCards : gmap jsstring LeitnerCard }.
End OverallStats.
Abbreviation OverallStats := OverallStats.t.

Definition emptySessionStats : SessionStats :=
  SessionStats.mk 0 0 0 0 0 0%float [].

(** [(a / b) * 100] on doubles, for integer counters [a] and [b]. *)
Definition percent (a b : Z) : float :=
  (float_of_Z a / float_of_Z b * 100)%float.

(** The state update of [handleAnswer]: [setSessionStats((prev) => ...)].
    The counters of a session start at 0 and count the answers of one
    array, whose length stays below [2^32]: their sums are exact. *)
Definition handleAnswer_stats (prev : SessionStats) (result : AnswerResult)
  : SessionStats :=
  let newCorrect :=
    (SessionStats.correct prev + if AnswerResult.correct result then 1 else 0)%Z in
  let newWrong :=
    (SessionStats.wrong prev + if AnswerResult.correct result then 0 else 1)%Z in
  let newTotal := (SessionStats.total prev + 1)%Z in
  let newStreak :=
    if AnswerResult.correct result then (SessionStats.streak prev + 1)%Z
    else 0%Z in
  let newBestStreak := Z.max (SessionStats.bestStreak prev) newStreak in
  SessionStats.mk newCorrect newWrong newStreak newBestStreak newTotal
    (if (0 <? newTotal)%Z then percent newCorrect newTotal else 0%float)
    (SessionStats.results prev ++ [result]).

(** The card update of [handleAnswer]: [setLeitnerCards((prev) => ...)].
    ([prev[result.personId]] is read as the record's own property: under a
    key of [Object_prototype_keys] that [prev] does not own, the code takes
    the inherited member for the card.) *)
Definition handleAnswer_cards (prev : gmap jsstring LeitnerCard)
    (result : AnswerResult) : IO (gmap jsstring LeitnerCard) :=
  let card :=
    default (LeitnerCard.mk (AnswerResult.personId result) 0 0 0)
      (prev !! AnswerResult.personId result) in
  updated <- updateLeitnerCard card (AnswerResult.correct result) ;;
  ret (<[AnswerResult.personId result := updated]> prev).

(** The session statistics after the answers [results], from a fresh
    session. *)
Definition session (results : list AnswerResult) : SessionStats :=
  fold_left handleAnswer_stats results emptySessionStats.

(** One turn of the loop of [finishSession] over [stats.results].
    ([personStats[result.personId]] is read as the record's own property:
    under a key of [Object_prototype_keys] that the record does not own,
    the code copies the inherited member for the entry.) *)
Definition upsert_person (people : list Person)
    (personStats : gmap jsstring PersonStats) (result : AnswerResult)
  : gmap jsstring PersonStats :=
  let pid := AnswerResult.personId result in
  let existing :=
    match personStats !! pid with
    | Some e => e
    | None =>
        PersonStats.mk pid
          (default [] (Person.name <$>
             (snd <$> list_find (fun p => Person.id p = pid) people)))
          0 0 0%float
    end in
  let timesAsked := number_add (PersonStats.timesAsked existing) 1 in
  let timesCorrect :=
    if AnswerResult.correct result
    then number_add (PersonStats.timesCorrect existing) 1
    else PersonStats.timesCorrect existing in
  let accuracy :=
    if (0 <? timesAsked)%Z then percent timesCorrect timesAsked else 0%float in
  <[pid := PersonStats.mk (PersonStats.personId existing)
             (PersonStats.name existing) timesAsked timesCorrect accuracy]>
    personStats.

(** [finishSession(stats)]: the [newOverall] handed to [onUpdateStats]. *)
Definition finishSession (people : list Person) (overallStats : OverallStats)
    (leitnerCards : gmap jsstring LeitnerCard) (stats : SessionStats)
  : OverallStats :=
  OverallStats.mk
    (number_add (OverallStats.totalSessions overallStats) 1)
    (number_add (OverallStats.totalQuestions overallStats)
       (SessionStats.total stats))
    (number_add (OverallStats.totalCorrect overallStats)
       (SessionStats.correct stats))
    (fold_left (upsert_person people) (SessionStats.results stats)
       (OverallStats.personStats overallStats))
    leitnerCards.

(** ** Equality utilities ([src/utils/parser.ts]) *)

(** [a < b] on strings: code units compared from the left, a proper prefix
    being the smaller one. *)
Fixpoint str_ltb (a b : jsstring) : bool :=
  match a, b with
  | _, [] => false
  | [], _ :: _ => true
  | x :: a', y :: b' =>
      if (x <? y)%N then true
      else if (y <? x)%N then false
      else str_ltb a' b'
  end.

(** The order of [Array.prototype.sort()] without a comparator, on
    strings: [a] may stand before [b]. *)
Definition str_le (a b : jsstring) : Prop := str_ltb b a = false.

#[export] Instance str_le_dec (a b : jsstring) : Decision (str_le a b).
Proof. unfold str_le. apply _. Defined.

(** [[...a].sort()]: the sorted arrangement of [a]. The order is total and
    two strings it does not tell apart are the same string, so every
    sorting algorithm returns this list. *)
Definition sort_strings (a : list jsstring) : list jsstring :=
  merge_sort str_le a.

(** [xs.every((val, i) => val === other[i])], from index [i] on. *)
Fixpoint every_same_at (i : nat) (xs other : list jsstring) : bool :=
  match xs with
  | [] => true
  | val :: rest =>
      bool_decide (other !! i = Some val) && every_same_at (S i) rest other
  end.

(** [compareArraysUnordered(a, b)] *)
Definition compareArraysUnordered (a b : list jsstring) : bool :=
  if negb (length a =? length b) then false
  else
    let sortedA := sort_strings a in
    let sortedB := sort_strings b in
    every_same_at 0 sortedA sortedB.

(** [s.replace(/\s+/g, ' ')]: every maximal run of whitespace becomes one
    space. [prev_ws] tells that the previous code unit belongs to a run
    already replaced. *)
Fixpoint replace_ws_runs_from (prev_ws : bool) (s : jsstring) : jsstring :=
  match s with
  | [] => []
  | c :: s' =>
      if is_ws c then
        if prev_ws then replace_ws_runs_from true s'
        else 32%N :: replace_ws_runs_from true s'
      else c :: replace_ws_runs_from false s'
  end.

Definition replace_ws_runs (s : jsstring) : jsstring :=
  replace_ws_runs_from false s.

(** [s.trim().replace(/\s+/g, ' ')] *)
Definition normalize_name (s : jsstring) : jsstring :=
  replace_ws_runs (trim s).

(** [compareNames(userInput, correct)] *)
Definition compareNames (userInput correct : jsstring) : bool :=
  bool_decide (normalize_name userInput = normalize_name correct).

(** ** Answer checking ([src/utils/training.ts]) *)

Module FreeRecallResult.
Record t := mk {
  parentsCorrect : bool;
  siblingsCorrect : bool;
  allCorrect : bool;
  correctParents : jsstring;
  correctSiblings : jsstring }.
End FreeRecallResult.
Abbreviation FreeRecallResult := FreeRecallResult.t.

Definition lit_none : jsstring := Eval vm_compute in lit "אין".

(** [checkFreeRecall(person, parentsAnswer, siblingsAnswer)] *)
Definition checkFreeRecall (person : Person)
    (parentsAnswer siblingsAnswer : jsstring) : FreeRecallResult :=
  let userParents := tokens (trim parentsAnswer) in
  let parentsCorrect :=
    compareArraysUnordered userParents (Person.parents person) in
  let siblingsCorrect :=
    if length (Person.siblings person) =? 0 then
      let trimmed := trim siblingsAnswer in
      bool_decide (trimmed = []) || bool_decide (trimmed = lit_none)
      || bool_decide (trimmed = no_siblings)
    else
      let userSiblings := tokens (trim siblingsAnswer) in
      compareArraysUnordered userSiblings (Person.siblings person) in
  FreeRecallResult.mk parentsCorrect siblingsCorrect
    (parentsCorrect && siblingsCorrect)
    (join [32%N] (Person.parents person))
    (if 0 <? length (Person.siblings person)
     then join [32%N] (Person.siblings person)
     else no_siblings).

(** [checkMatchingPair(personId, selectedAnswer, allPeople, relation)];
    [relation] is ['parents'] or ['siblings']. *)
Definition checkMatchingPair (personId selectedAnswer : jsstring)
    (allPeople : list Person) (relation : RelationType) : bool :=
  match list_find (fun p => Person.id p = personId) allPeople with
  | None => false
  | Some (_, person) =>
      let correct :=
        match relation with
        | rel_parents => join comma_space (Person.parents person)
        | _ =>
            if 0 <? length (Person.siblings person)
            then join comma_space (Person.siblings person)
            else no_siblings
        end in
      bool_decide (selectedAnswer = correct)
  end.

(** ** Card bookkeeping ([src/utils/training.ts],
    [src/components/TrainingScreen.tsx]) *)

(** [initLeitnerCards(people, existing)] *)
Definition initLeitnerCards (people : list Person)
    (existing : gmap jsstring LeitnerCard) : gmap jsstring LeitnerCard :=
  fold_left
    (fun cards person =>
       if absent cards (Person.id person) then
         <[Person.id person := LeitnerCard.mk (Person.id person) 0 0 0]> cards
       else cards)
    people existing.

(** [handleUpdateCard(personId, card)]: the update of the cards state. *)
Definition handleUpdateCard (personId : jsstring) (card : LeitnerCard)
    (prev : gmap jsstring LeitnerCard) : gmap jsstring LeitnerCard :=
  <[personId := card]> prev.

(** The cards state after [handleBatchAnswer(results)]: one [handleAnswer]
    per result, in order. *)
Fixpoint handleBatchAnswer_cards (results : list AnswerResult)
    (prev : gmap jsstring LeitnerCard) : IO (gmap jsstring LeitnerCard) :=
  match results with
  | [] => ret prev
  | result :: rest =>
      next <- handleAnswer_cards prev result ;;
      handleBatchAnswer_cards rest next
  end.

(** ** Random picks ([src/utils/training.ts]) *)

Definition two52 : float := 4503599627370496%float.
Definition two53 : float := 9007199254740992%float.

(** [Math.floor] on doubles. From [2^52] on every double is an integer;
    below, adding and subtracting [2^52] rounds to the nearest integer,
    which is the floor or one above it. *)
Definition Math_floor (x : float) : float :=
  if is_nan x then x
  else if (two52 <=? abs x)%float then x
  else if (x =? 0)%float then x
  else
    let r :=
      if (0 <? x)%float then ((x + two52) - two52)%float
      else ((x - two52) + two52)%float in
    if (x <? r)%float then (r - 1)%float else r.

(** The integer that the integral double [y] is, for [0 <= y < 2^bits]. *)
Fixpoint Z_of_integral (bits : nat) (y : float) : Z :=
  match bits with
  | O => 0
  | S bits' =>
      let p := float_of_Z (2 ^ Z.of_nat bits') in
      if (p <=? y)%float
      then (2 ^ Z.of_nat bits' + Z_of_integral bits' (y - p)%float)%Z
      else Z_of_integral bits' y
  end.

(** [Math.floor(x)] as an integer, for use as an array index: [None] when
    it is [NaN], infinite, or [2^53] or more in size, none of which any
    index of an array equals. *)
Definition floor_index (x : float) : option Z :=
  let y := Math_floor x in
  if is_nan y then None
  else if (two53 <=? abs y)%float then None
  else if (y <? 0)%float then Some (- Z_of_integral 53 (- y)%float)%Z
  else Some (Z_of_integral 53 y).

(** [arr[index]]: [None] is [undefined]. *)
Definition array_at {A} (arr : list A) (index : option Z) : option A :=
  match index with
  | Some z => if (z <? 0)%Z then None else arr !! Z.to_nat z
  | None => None
  end.

(** [Math.floor(Math.random() * n)] *)
Definition random_index (n : nat) : IO (option Z) :=
  u <- Math_random ;;
  ret (floor_index (u * float_of_Z (Z.of_nat n))%float).

(** [pickOne(arr)] *)
Definition pickOne {A} (arr : list A) : IO (option A) :=
  index <- random_index (length arr) ;;
  ret (array_at arr index).

(** ** Question generators ([src/utils/training.ts]) *)

Module TrueFalseQuestion.
Record t := mk {
  person : Person;
  statement : jsstring;
  claimedValue : option jsstring;
  relation : RelationType;
  isTrue : bool }.
End TrueFalseQuestion.
Abbreviation TrueFalseQuestion := TrueFalseQuestion.t.

(** A value interpolated into a template literal. *)
Definition to_text (v : option jsstring) : jsstring :=
  default [117; 110; 100; 101; 102; 105; 110; 101; 100]%N v.

Definition is_parent_of : jsstring :=
  Eval vm_compute in lit " הוא/היא הורה של ".
Definition is_sibling_of : jsstring :=
  Eval vm_compute in lit " הוא/היא אח/ות של ".
Definition lamed : jsstring := Eval vm_compute in lit "ל".
Definition has_no_siblings : jsstring := Eval vm_compute in lit " אין אחים".

(** The question that states a parent, and the one that states a sibling. *)
Definition parent_statement (person : Person) (parent : option jsstring)
    (relation : RelationType) (isTrue : bool) : TrueFalseQuestion :=
  TrueFalseQuestion.mk person
    (to_text parent ++ is_parent_of ++ Person.name person)
    parent relation isTrue.

Definition sibling_statement (person : Person) (sibling : option jsstring)
    (relation : RelationType) (isTrue : bool) : TrueFalseQuestion :=
  TrueFalseQuestion.mk person
    (to_text sibling ++ is_sibling_of ++ Person.name person)
    sibling relation isTrue.

Definition no_siblings_statement (person : Person) (relation : RelationType)
  : TrueFalseQuestion :=
  TrueFalseQuestion.mk person
    (lamed ++ Person.name person ++ has_no_siblings)
    (Some no_siblings) relation true.

(** [generateTrueFalse(person, allPeople)] *)
Definition generateTrueFalse (person : Person) (allPeople : list Person)
  : IO TrueFalseQuestion :=
  u1 <- Math_random ;;
  let isTrue := (0.4 <? u1)%float in
  u2 <- Math_random ;;
  let askParents := (0.5 <? u2)%float in
  let relation := if askParents then rel_parents else rel_siblings in
  if isTrue then
    if askParents then
      parent <- pickOne (Person.parents person) ;;
      ret (parent_statement person parent relation true)
    else if length (Person.siblings person) =? 0 then
      ret (no_siblings_statement person relation)
    else
      sibling <- pickOne (Person.siblings person) ;;
      ret (sibling_statement person sibling relation true)
  else
    let otherPeople :=
      filter (fun p => Person.id p <> Person.id person) allPeople in
    if length otherPeople =? 0 then
      parent <- pickOne (Person.parents person) ;;
      ret (parent_statement person parent rel_parents true)
    else if askParents then
      let otherParents :=
        filter (fun name => name ∉ Person.parents person)
          (concat (map Person.parents otherPeople)) in
      if length otherParents =? 0 then
        parent <- pickOne (Person.parents person) ;;
        ret (parent_statement person parent relation true)
      else
        fakeParent <- pickOne otherParents ;;
        ret (parent_statement person fakeParent relation false)
    else
      let otherSiblings :=
        filter (fun name => name ∉ Person.siblings person)
          (concat (map Person.siblings otherPeople)) in
      if length otherSiblings =? 0 then
        if 0 <? length (Person.siblings person) then
          sib <- pickOne (Person.siblings person) ;;
          ret (sibling_statement person sib relation true)
        else ret (no_siblings_statement person relation)
      else
        fakeSibling <- pickOne otherSiblings ;;
        ret (sibling_statement person fakeSibling relation false).

(** [checkTrueFalse(q, answer)] *)
Definition checkTrueFalse (q : TrueFalseQuestion) (answer : bool) : bool :=
  eqb answer (TrueFalseQuestion.isTrue q).

Module FillBlankQuestion.
Record t := mk {
  person : Person;
  prompt : jsstring;
  visibleParts : list jsstring;
  missingPart : option jsstring;
  relation : RelationType }.
End FillBlankQuestion.
Abbreviation FillBlankQuestion := FillBlankQuestion.t.

(** [arr.filter((_, i) => i !== hideIndex)], from index [i] on. *)
Fixpoint filter_other_index {A} (hideIndex : option Z) (i : nat) (arr : list A)
  : list A :=
  match arr with
  | [] => []
  | x :: rest =>
      if bool_decide (Some (Z.of_nat i) <> hideIndex)
      then x :: filter_other_index hideIndex (S i) rest
      else filter_other_index hideIndex (S i) rest
  end.

Definition parents_of : jsstring := Eval vm_compute in lit "הורים של ".
Definition siblings_of : jsstring := Eval vm_compute in lit "אחים של ".
Definition colon_space : jsstring := Eval vm_compute in lit ": ".
Definition and_blank : jsstring := Eval vm_compute in lit " ו___".
Definition who_is_parent_of : jsstring := Eval vm_compute in lit "מי ההורה של ".
Definition question_mark : jsstring := Eval vm_compute in lit "?".
Definition the_parents_are : jsstring := Eval vm_compute in lit "ההורים הם ".
Definition space_and : jsstring := Eval vm_compute in lit " ו".
Definition who_is_the_child : jsstring := Eval vm_compute in lit ". מי הילד/ה?".

(** [generateFillBlank(person)] *)
Definition generateFillBlank (person : Person) : IO FillBlankQuestion :=
  u <- Math_random ;;
  let askParents := (0.4 <? u)%float in
  if askParents && (2 <=? length (Person.parents person)) then
    hideIndex <- random_index (length (Person.parents person)) ;;
    let missingPart := array_at (Person.parents person) hideIndex in
    let visibleParts :=
      filter_other_index hideIndex 0 (Person.parents person) in
    let prompt :=
      parents_of ++ Person.name person ++ colon_space
        ++ join comma_space visibleParts ++ and_blank in
    ret (FillBlankQuestion.mk person prompt visibleParts missingPart
           rel_parents)
  else if 2 <=? length (Person.siblings person) then
    hideIndex <- random_index (length (Person.siblings person)) ;;
    let missingPart := array_at (Person.siblings person) hideIndex in
    let visibleParts :=
      filter_other_index hideIndex 0 (Person.siblings person) in
    let prompt :=
      siblings_of ++ Person.name person ++ colon_space
        ++ join comma_space visibleParts ++ and_blank in
    ret (FillBlankQuestion.mk person prompt visibleParts missingPart
           rel_siblings)
  else if length (Person.parents person) =? 1 then
    ret (FillBlankQuestion.mk person
           (who_is_parent_of ++ Person.name person ++ question_mark)
           [] (Person.parents person !! 0) rel_parents)
  else
    ret (FillBlankQuestion.mk person
           (the_parents_are ++ join space_and (Person.parents person)
              ++ who_is_the_child)
           (Person.parents person) (Some (Person.name person)) rel_name).

(** [checkFillBlank(q, answer)]; [None] is the [TypeError] of [trim] on an
    [undefined] missing part. *)
Definition checkFillBlank (q : FillBlankQuestion) (answer : jsstring)
  : option bool :=
  match FillBlankQuestion.missingPart q with
  | Some missingPart => Some (compareNames answer missingPart)
  | None => None
  end.

(** ** Flashcard rating ([src/components/modes/FlashcardMode.tsx]) *)

Inductive ShowSide := side_name | side_family.

Module FlashcardQuestion.
Record t := mk { person : Person; showSide : ShowSide }.
End FlashcardQuestion.
Abbreviation FlashcardQuestion := FlashcardQuestion.t.

(** [generateFlashcard(person)] *)
Definition generateFlashcard (person : Person) : IO FlashcardQuestion :=
  u <- Math_random ;;
  ret (FlashcardQuestion.mk person
         (if (0.5 <? u)%float then side_name else side_family)).

(** [nextCard()]: the person picked and the question made, which the mode
    keeps as [lastPersonId] and [question]; [None] is the [TypeError] of
    [person.id] when no person is picked. *)
Definition nextCard (people : list Person)
    (cards : gmap jsstring LeitnerCard) (lastPersonId : option jsstring)
  : IO (option (jsstring * FlashcardQuestion)) :=
  person <- selectNextPerson people cards lastPersonId ;;
  match person with
  | Some person =>
      question <- generateFlashcard person ;;
      ret (Some (Person.id person, question))
  | None => ret None
  end.

Inductive Rating := easy | good | hard.

(** The [updatedCard] of [handleRate(rating)] for the person of the
    question. ([cards[person.id]] is read as the record's own property:
    under a key of [Object_prototype_keys] that [cards] does not own, the
    code takes the inherited member for the card.) *)
Definition rated_card (cards : gmap jsstring LeitnerCard) (person : Person)
    (rating : Rating) : IO LeitnerCard :=
  let currentCard :=
    default (LeitnerCard.mk (Person.id person) 0 0 0)
      (cards !! Person.id person) in
  match rating with
  | easy =>
      updateLeitnerCard
        (LeitnerCard.mk (LeitnerCard.personId currentCard)
           (Z.min (number_add (LeitnerCard.box currentCard) 1) 2)
           (LeitnerCard.lastSeen currentCard)
           (LeitnerCard.correctStreak currentCard))
        true
  | good => updateLeitnerCard currentCard true
  | hard => updateLeitnerCard currentCard false
  end.

(** The cards state after [handleRate(rating)], for the mode rendered with
    the cards state [cards], the session's [questionCount] ([None] for
    ['infinite']) and [totalAnswered], about the [person] of the question.
    [onUpdateCard] and [onAnswer] queue their updates of the cards state;
    unless the session ends with this answer, [nextCard()] picks the next
    person; the queued updates run afterwards, when the screen is rendered:
    the rated card is stored, then [handleAnswer] updates the stored card
    once more, reading the clock at that time. *)
Definition handleRate_cards (people : list Person)
    (cards : gmap jsstring LeitnerCard) (lastPersonId : option jsstring)
    (questionCount : option Z) (totalAnswered : Z)
    (person : Person) (rating : Rating) : IO (gmap jsstring LeitnerCard) :=
  let isCorrect :=
    match rating with hard => false | _ => true end in
  updatedCard <- rated_card cards person rating ;;
  let result :=
    AnswerResult.mk (Person.id person) isCorrect
      match rating with
      | easy => [101; 97; 115; 121]%N
      | good => [103; 111; 111; 100]%N
      | hard => [104; 97; 114; 100]%N
      end
      [] flashcards None in
  let sessionEnds :=
    match questionCount with
    | Some count => (count <=? number_add totalAnswered 1)%Z
    | None => false
    end in
  next <- (if sessionEnds then ret None
           else nextCard people cards lastPersonId) ;;
  handleAnswer_cards (handleUpdateCard (Person.id person) updatedCard cards)
    result.

(** ** Shuffling and multiple choice ([src/utils/training.ts]) *)

(** [[arr[i], arr[j]] = [arr[j], arr[i]]] for two indices of the array. *)
Definition swap {A} (arr : list A) (i j : nat) : list A :=
  match arr !! i, arr !! j with
  | Some x, Some y => <[i := y]> (<[j := x]> arr)
  | _, _ => arr
  end.

(** The loop of [shuffle], [i] going down to 1. The index drawn at [i] is
    one of [0 .. i] for every [Math.random()] in [[0, 1)]; the result is
    [None] when it is not, a case the model leaves out. *)
Fixpoint shuffle_loop {A} (i : nat) (arr : list A) : IO (option (list A)) :=
  match i with
  | O => ret (Some arr)
  | S i' =>
      j <- random_index (i + 1) ;;
      match j with
      | Some z =>
          if (0 <=? z)%Z && (z <=? Z.of_nat i)%Z
          then shuffle_loop i' (swap arr i (Z.to_nat z))
          else ret None
      | None => ret None
      end
  end.

(** [shuffle(array)] *)
Definition shuffle {A} (array : list A) : IO (option (list A)) :=
  let arr := array in
  shuffle_loop (length arr - 1) arr.

(** [array.findIndex(pred)]: [-1] when no element satisfies [pred]. *)
Definition findIndex {A} (P : A -> Prop) `{forall x, Decision (P x)}
    (array : list A) : Z :=
  match list_find P array with
  | Some (i, _) => Z.of_nat i
  | None => (-1)%Z
  end.

(** [pickRandom(array, count, excludeIndices)]; every index shuffled is one
    of the array, so that [array[i]] is an element of it. *)
Definition pickRandom {A} (array : list A) (count : nat)
    (excludeIndices : list Z) : IO (option (list A)) :=
  let indices :=
    filter (fun i => Z.of_nat i ∉ excludeIndices) (seq 0 (length array)) in
  shuffled <- shuffle indices ;;
  ret (match shuffled with
       | Some shuffled => Some (omap (fun i => array !! i) (take count shuffled))
       | None => None
       end).

Module MultipleChoiceQuestion.
Record t := mk {
  person : Person;
  prompt : jsstring;
  relation : RelationType;
  options : list jsstring;
  correctIndex : Z }.
End MultipleChoiceQuestion.
Abbreviation MultipleChoiceQuestion := MultipleChoiceQuestion.t.

(** [[...new Set(xs)]]: the first occurrence of every element, in order. *)
Fixpoint dedupe_from (seen xs : list jsstring) : list jsstring :=
  match xs with
  | [] => []
  | x :: rest =>
      if decide (x ∈ seen) then dedupe_from seen rest
      else x :: dedupe_from (x :: seen) rest
  end.

Definition dash : jsstring := Eval vm_compute in lit "—".

(** [uniqueDistractors.slice(0, 3)] and the loop that pushes the
    placeholder up to three options. *)
Definition three_distractors (distractors : list jsstring) : list jsstring :=
  let uniqueDistractors := take 3 (dedupe_from [] distractors) in
  uniqueDistractors ++ replicate (3 - length uniqueDistractors) dash.

Definition who_are_parents_of : jsstring :=
  Eval vm_compute in lit "מי ההורים של ".
Definition who_are_siblings_of : jsstring :=
  Eval vm_compute in lit "מי האחים של ".
Definition who_is_this : jsstring := Eval vm_compute in lit "מי זה? ".
Definition parents_colon : jsstring := Eval vm_compute in lit "הורים: ".
Definition bar_siblings_colon : jsstring := Eval vm_compute in lit " | אחים: ".

(** The text of the siblings of a person where a question shows it. *)
Definition siblings_text (p : Person) : jsstring :=
  if 0 <? length (Person.siblings p)
  then join comma_space (Person.siblings p)
  else no_siblings.

(** The part of [generateMultipleChoice] common to its three directions:
    five other people picked, their values as distractors, the options
    shuffled; [keep] is the filter on the distractors. *)
Definition multiple_choice (person : Person) (allPeople : list Person)
    (personIndex : Z) (correct : jsstring) (value : Person -> jsstring)
    (keep : jsstring -> bool) (prompt : jsstring) (relation : RelationType)
  : IO (option MultipleChoiceQuestion) :=
  picked <- pickRandom allPeople 5 [personIndex] ;;
  match picked with
  | None => ret None
  | Some picked =>
      let distractors := List.filter keep (map value picked) in
      let uniqueDistractors := three_distractors distractors in
      options <- shuffle (correct :: uniqueDistractors) ;;
      ret (match options with
           | None => None
           | Some options =>
               Some (MultipleChoiceQuestion.mk person prompt relation options
                       (findIndex (fun o => o = correct) options))
           end)
  end.

(** [generateMultipleChoice(person, allPeople)] *)
Definition generateMultipleChoice (person : Person) (allPeople : list Person)
  : IO (option MultipleChoiceQuestion) :=
  direction <- Math_random ;;
  let personIndex :=
    findIndex (fun p => Person.id p = Person.id person) allPeople in
  if (direction <? 0.4)%float then
    let correct := join comma_space (Person.parents person) in
    multiple_choice person allPeople personIndex correct
      (fun p => join comma_space (Person.parents p))
      (fun d => bool_decide (d <> correct) && (0 <? length d))
      (who_are_parents_of ++ Person.name person ++ question_mark)
      rel_parents
  else if (direction <? 0.7)%float then
    let correct := siblings_text person in
    multiple_choice person allPeople personIndex correct siblings_text
      (fun d => bool_decide (d <> correct))
      (who_are_siblings_of ++ Person.name person ++ question_mark)
      rel_siblings
  else
    let correct := Person.name person in
    let familyDesc :=
      parents_colon ++ join comma_space (Person.parents person)
        ++ bar_siblings_colon
        ++ (if 0 <? length (Person.siblings person)
            then join comma_space (Person.siblings person)
            else lit_none) in
    multiple_choice person allPeople personIndex correct Person.name
      (fun d => bool_decide (d <> correct))
      (who_is_this ++ familyDesc)
      rel_name.

(** [checkMultipleChoice(q, selectedIndex)] *)
Definition checkMultipleChoice (q : MultipleChoiceQuestion)
    (selectedIndex : Z) : bool :=
  (selectedIndex =? MultipleChoiceQuestion.correctIndex q)%Z.

(** * Vocabulary of the statements and sample data *)

(** Successive calls of [updateLeitnerCard], each on the card the previous
    one returned. *)
Fixpoint updateLeitnerCard_seq (answers : list bool) (card : LeitnerCard)
  : IO LeitnerCard :=
  match answers with
  | [] => ret card
  | correct :: rest =>
      card' <- updateLeitnerCard card correct ;;
      updateLeitnerCard_seq rest card'
  end.

Definition sample_card : LeitnerCard := LeitnerCard.mk [97%N] 0 0 7.
Definition sample_world : World :=
  mkWorld (fun _ => 0.5%float) (fun k => (1000 + Z.of_nat k)%Z).

(** The length of the run of correct answers a list starts with. *)
Fixpoint leading_correct (results : list AnswerResult) : nat :=
  match results with
  | [] => 0
  | r :: rest =>
      if AnswerResult.correct r then S (leading_correct rest) else 0
  end.

(** The length of the run of correct answers a list ends with. *)
Definition trailing_correct (results : list AnswerResult) : nat :=
  leading_correct (rev results).

(** The number of correct answers of a list. *)
Definition count_correct (results : list AnswerResult) : nat :=
  length (filter (fun r => AnswerResult.correct r = true) results).

(** The counters of a person's statistics. *)
Definition counters (s : PersonStats) : Z * Z * float :=
  (PersonStats.timesAsked s, PersonStats.timesCorrect s, PersonStats.accuracy s).

(** Two maps of person statistics with the same counters for every person. *)
Definition same_counters (a b : gmap jsstring PersonStats) : Prop :=
  forall pid : jsstring, counters <$> a !! pid = counters <$> b !! pid.

(** Splitting on runs of whitespace with the empty tokens discarded, as the
    specification words it, by one pass that collects the token being read
    ([cur], latest code unit first) and emits it at the next whitespace. *)
Fixpoint words_from (cur : jsstring) (s : jsstring) : list jsstring :=
  match s with
  | [] => match cur with [] => [] | _ :: _ => [rev cur] end
  | c :: s' =>
      if is_ws c then
        match cur with
        | [] => words_from [] s'
        | _ :: _ => rev cur :: words_from [] s'
        end
      else words_from (c :: cur) s'
  end.

Definition words (s : jsstring) : list jsstring := words_from [] s.

(** [x] put in front of the first piece of a split. *)
Definition glue (x : jsstring) (pieces : list jsstring) : list jsstring :=
  match pieces with
  | piece :: rest => (x ++ piece) :: rest
  | [] => [x]
  end.

(** The consecutive triples of a list of lines. *)
Fixpoint triples (lines : list jsstring)
  : list (jsstring * jsstring * jsstring) :=
  match lines with
  | a :: b :: c :: rest => (a, b, c) :: triples rest
  | _ => []
  end.

(** The people of a list of blocks, the [k]-th one with the identifier made
    from the draw [draws (start + k)]. *)
Fixpoint people_of_blocks (toString36 : float -> jsstring)
    (draws : nat -> float) (start : nat)
    (blocks : list (jsstring * jsstring * jsstring)) : list Person :=
  match blocks with
  | [] => []
  | (a, b, c) :: rest =>
      Person.mk (id_of_draw toString36 (draws start)) a (tokens b) (tokens c)
        :: people_of_blocks toString36 draws (S start) rest
  end.

(** A rendering that agrees with the engine's [toString(36)] on the draws
    0.5 and 0.25; used to run the parser on examples. *)
Definition sample_toString36 (r : float) : jsstring :=
  if (r =? 0.5)%float then [48; 46; 105]%N
  else if (r =? 0.25)%float then [48; 46; 57]%N
  else [48]%N.

(** The one-block example of the specification. *)
Definition sample_text : jsstring :=
  Eval vm_compute in
    lit "זיו" ++ [10%N] ++ lit "רותם טל" ++ [10%N] ++ lit "נועה עמית".

(** The two failing texts of the parser's tests. *)
Definition sample_text_one_left : jsstring :=
  Eval vm_compute in sample_text ++ [10%N; 10%N] ++ lit "שלומי".

Definition sample_text_two_left : jsstring :=
  Eval vm_compute in sample_text_one_left ++ [10%N] ++ lit "רוני רן".

(** The two-block text of the test [should generate unique IDs]. *)
Definition two_blocks_text : jsstring :=
  Eval vm_compute in
    lit "א" ++ [10%N] ++ lit "ב ג" ++ [10%N] ++ lit "ד" ++ [10%N; 10%N]
    ++ lit "ה" ++ [10%N] ++ lit "ו ז" ++ [10%N] ++ lit "ח".

(** A world whose random source returns the same double at every call. *)
Definition constant_world (r : float) : World :=
  mkWorld (fun _ => r) (fun _ => 0%Z).

(** The candidates of [selectNextPerson]. *)
Definition candidates_of (people : list Person)
    (lastPersonId : option jsstring) : list Person :=
  filter (fun p => Some (Person.id p) <> lastPersonId) people.

Definition person_a : Person :=
  Person.mk [97%N] (lit "זיו") [lit "רותם"; lit "טל"] [lit "נועה"; lit "עמית"].
Definition person_b : Person :=
  Person.mk [98%N] (lit "שלומי") [lit "רוני"; lit "רן"] [lit "בן"].

(** The number of turns the selection loop makes from [i] with [m] people
    remaining, [left] being [4 - i]. *)
Fixpoint matching_turns (left i m : nat) : nat :=
  match left with
  | O => 0
  | S left' =>
      if i <? Nat.min 4 m then S (matching_turns left' (S i) (pred m)) else 0
  end.

(** Every card of the mapping is in one of the boxes 0, 1 and 2. *)
Definition boxes_in_range (cards : gmap jsstring LeitnerCard) : Prop :=
  forall (pid : jsstring) (c : LeitnerCard),
    cards !! pid = Some c -> (0 <= LeitnerCard.box c <= 2)%Z.

(** Every card of the mapping is filed under its own [personId]. *)
Definition keyed_by_personId (cards : gmap jsstring LeitnerCard) : Prop :=
  forall (pid : jsstring) (c : LeitnerCard),
    cards !! pid = Some c -> LeitnerCard.personId c = pid.

(** The length of the longest run of consecutive correct answers: the
    longest of the runs that start at each position. *)
Fixpoint longest_correct_run (results : list AnswerResult) : nat :=
  match results with
  | [] => 0
  | _ :: rest =>
      Nat.max (leading_correct results) (longest_correct_run rest)
  end.

(** The answers about one person, and the correct ones among them. *)
Definition answers_about (pid : jsstring) (results : list AnswerResult)
  : list AnswerResult :=
  filter (fun r => AnswerResult.personId r = pid) results.

(** The [timesAsked] and [timesCorrect] of a person in a map of statistics,
    0 for a person without an entry. *)
Definition asked_of (o : option PersonStats) : Z :=
  default 0%Z (PersonStats.timesAsked <$> o).

Definition correct_of (o : option PersonStats) : Z :=
  default 0%Z (PersonStats.timesCorrect <$> o).

(** The values of a relation of a person. *)
Definition relation_values (person : Person) (relation : RelationType)
  : list jsstring :=
  match relation with
  | rel_parents => Person.parents person
  | rel_siblings => Person.siblings person
  | rel_name => []
  end.

(** The draws of a world behave as those of [Math.random()], which lie in
    [[0, 1)]: multiplied by a length [n] of at most [bound] and floored,
    each gives an index below [n]. *)
Definition good_draws (bound : nat) (w : World) : Prop :=
  forall k n : nat,
    0 < n <= bound ->
    exists j : nat,
      floor_index (random w k * float_of_Z (Z.of_nat n))%float
      = Some (Z.of_nat j)
      /\ j < n.

(** The value of a person that a multiple choice question about a relation
    shows as an option. *)
Definition shown_value (relation : RelationType) (p : Person) : jsstring :=
  match relation with
  | rel_parents => join comma_space (Person.parents p)
  | rel_siblings => siblings_text p
  | rel_name => Person.name p
  end.

(** [Number.isSafeInteger]: an integer that doubles count exactly. *)
Definition safe_integer (z : Z) : Prop :=
  (- MAX_SAFE_INTEGER <= z <= MAX_SAFE_INTEGER)%Z.

(** A key that names no property of [Object.prototype]: a record has
    something under it only when it owns a property under it. *)
Definition plain_key (key : jsstring) : Prop :=
  key ∉ Object_prototype_keys.

#[export] Instance plain_key_dec (key : jsstring) : Decision (plain_key key).
Proof. unfold plain_key. apply _. Defined.

(** The text made of the given lines, a line feed between two of them. *)
Fixpoint unlines (raws : list jsstring) : jsstring :=
  match raws with
  | [] => []
  | [raw] => raw
  | raw :: rest => raw ++ 10%N :: unlines rest
  end.

(** A line of whitespace only. *)
Definition blank_line (raw : jsstring) : Prop :=
  forall c : N, c ∈ raw -> is_ws c = true.

(** The line [raw] is [content] with whitespace before and after it, where
    [content] starts and ends with code units that are no whitespace. *)
Definition padded (content raw : jsstring) : Prop :=
  exists pre post : jsstring,
    raw = pre ++ content ++ post
    /\ blank_line pre /\ blank_line post
    /\ (exists (c : N) (rest : jsstring), content = c :: rest /\ is_ws c = false)
    /\ (exists (front : jsstring) (c : N),
          content = front ++ [c] /\ is_ws c = false).

(** The non-empty trimmed lines, as the specification words them: the
    blank lines of [raws] are dropped, the others are kept without the
    whitespace around them, in their order. *)
Inductive kept_lines : list jsstring -> list jsstring -> Prop :=
| kept_nil : kept_lines [] []
| kept_blank (raw : jsstring) (raws contents : list jsstring) :
    blank_line raw -> kept_lines raws contents ->
    kept_lines (raw :: raws) contents
| kept_content (content raw : jsstring) (raws contents : list jsstring) :
    padded content raw -> kept_lines raws contents ->
    kept_lines (raw :: raws) (content :: contents).

(** The lines of a one-block text with whitespace around its lines and
    blank lines between them. *)
Definition sample_padded_lines : list jsstring :=
  Eval vm_compute in
    [[32%N; 32%N] ++ lit "זיו" ++ [9%N];
     [];
     [9%N] ++ lit "רותם" ++ [32%N; 32%N; 9%N] ++ lit "טל";
     [32%N; 13%N];
     lit "נועה עמית" ++ [13%N];
     []].

(** Seven correct answers followed by eighteen wrong ones. *)
Definition seven_of_twenty_five : list AnswerResult :=
  repeat (AnswerResult.mk [97%N] true [] [] flashcards None) 7
  ++ repeat (AnswerResult.mk [97%N] false [] [] flashcards None) 18.

(** The counter [c] can grow by [n] within the safe integers. *)
Definition counts_up_to (c n : Z) : Prop :=
  safe_integer c /\ safe_integer (c + n).

(** * Properties *)

(** ** Tokens *)

Lemma filter_split_ws_from (s : jsstring) :
  filter (fun t : jsstring => 0 < length t) (split_ws_from true s)
  = filter (fun t : jsstring => 0 < length t) (split_ws_from false s).
Proof.
  destruct s as [|c s]; [reflexivity|]. cbn [split_ws_from].
  destruct (is_ws c); [|reflexivity].
  rewrite filter_cons_False by (cbn; lia). reflexivity.
Qed.

Lemma filter_glue_nil (pieces : list jsstring) :
  filter (fun t : jsstring => 0 < length t) (glue [] pieces)
  = filter (fun t : jsstring => 0 < length t) pieces.
Proof.
  destruct pieces; [|reflexivity]. cbn [glue].
  rewrite filter_cons_False by (cbn; lia). reflexivity.
Qed.

Lemma filter_glue_split_ws (s : jsstring) :
  forall cur : jsstring,
    filter (fun t : jsstring => 0 < length t)
      (glue (rev cur) (split_ws_from false s))
    = words_from cur s.
Proof.
  induction s as [|c s IH]; intros cur.
  - cbn [split_ws_from glue words_from]. rewrite app_nil_r.
    destruct cur as [|d cur].
    + rewrite filter_cons_False by (cbn; lia). reflexivity.
    + rewrite filter_cons_True
        by (rewrite length_rev; cbn; lia).
      reflexivity.
  - cbn [split_ws_from words_from]. destruct (is_ws c).
    + cbn [glue]. rewrite app_nil_r.
      pose proof (IH []) as H0. cbn [rev] in H0.
      rewrite filter_glue_nil, <- filter_split_ws_from in H0.
      destruct cur as [|d cur].
      * rewrite filter_cons_False by (cbn; lia). exact H0.
      * rewrite filter_cons_True
          by (rewrite length_rev; cbn; lia).
        rewrite H0. reflexivity.
    + rewrite <- (IH (c :: cur)). cbn [rev].
      destruct (split_ws_from false s) as [|piece rest]; cbn [glue].
      * reflexivity.
      * rewrite <- app_assoc. reflexivity.
Qed.

(** The tokens the parser computes are the words of the line. *)
Lemma tokens_words (line : jsstring) : tokens line = words line.
Proof.
  unfold tokens, split_ws, words.
  rewrite <- (filter_glue_split_ws line []). cbn [rev].
  rewrite filter_glue_nil. reflexivity.
Qed.

(** ** Numbers *)

(** Integers up to [2^53] in magnitude are doubles: rounding leaves them. *)
Lemma round_double_exact (z : Z) :
  (Z.abs z <= MAX_SAFE_INTEGER + 1)%Z -> round_double z = z.
Proof.
  unfold MAX_SAFE_INTEGER. intros H.
  destruct (Z.eq_dec (Z.abs z) 9007199254740992%Z) as [E|E].
  - destruct z as [|p|p]; cbn in E; try discriminate;
      injection E as ->; vm_compute; reflexivity.
  - unfold round_double.
    assert (Z.max 0 (Z.log2 (Z.abs z) - 52) = 0)%Z as ->.
    { destruct (Z.eq_dec (Z.abs z) 0%Z) as [E0|E0]; [rewrite E0; reflexivity|].
      assert (Z.log2 (Z.abs z) < 53)%Z; [|lia].
      apply Z.log2_lt_pow2; lia. }
    change (2 ^ 0)%Z with 1%Z. rewrite Z.div_1_r, Z.mod_1_r.
    cbn [Z.mul Z.ltb Z.compare].
    rewrite Z.mul_1_r, Z.mul_comm. apply Z.abs_sgn.
Qed.

Lemma number_add_exact (a b : Z) :
  (Z.abs (a + b) <= MAX_SAFE_INTEGER + 1)%Z -> number_add a b = (a + b)%Z.
Proof. apply round_double_exact. Qed.

Lemma number_add_safe (a b : Z) :
  safe_integer (a + b) -> number_add a b = (a + b)%Z.
Proof. unfold safe_integer. intros H. apply number_add_exact. lia. Qed.

(** One more than a safe integer is still a double. *)
Lemma number_add_1 (a : Z) :
  safe_integer a -> number_add a 1 = (a + 1)%Z.
Proof.
  unfold safe_integer, MAX_SAFE_INTEGER. intros H.
  apply number_add_exact. unfold MAX_SAFE_INTEGER. lia.
Qed.

(** [number_add] is the addition of doubles: on doubles around [2^53],
    [2^54] and [2^60], and on small integers, it gives what the primitive
    addition of the kernel's floats gives. *)
Example number_add_is_double_addition :
  forallb
    (fun '(a, b) =>
       (float_of_Z a + float_of_Z b =? float_of_Z (number_add a b))%float)
    [(9007199254740992, 1); (9007199254740992, 2); (9007199254740992, 3);
     (9007199254740994, 1); (9007199254740994, 3); (9007199254740991, 1);
     (9007199254740991, 2); (-9007199254740992, -1);
     (-9007199254740992, -3); (18014398509481984, 1);
     (18014398509481984, 2); (18014398509481984, 3);
     (18014398509481984, 5); (18014398509481984, 6);
     (1152921504606846976, 127); (1152921504606846976, 128);
     (1152921504606846976, 129); (1152921504606846976, 384);
     (1152921504606846976, -64); (4, 5); (0, 0); (-3, 3)]%Z
  = true.
Proof. vm_compute. reflexivity. Qed.

(** ** Leitner cards *)

Lemma updateLeitnerCard_correct (card : LeitnerCard) (w : World) :
  let card' := (updateLeitnerCard card true w).1 in
  (safe_integer (LeitnerCard.box card) ->
   LeitnerCard.box card' = Z.min (LeitnerCard.box card + 1) 2)
  /\ (safe_integer (LeitnerCard.correctStreak card) ->
      LeitnerCard.correctStreak card'
      = (LeitnerCard.correctStreak card + 1)%Z)
  /\ LeitnerCard.lastSeen card' = clock w 0
  /\ LeitnerCard.personId card' = LeitnerCard.personId card.
Proof.
  destruct card as [pid b ls cs]; cbn. repeat split.
  - intros H. rewrite number_add_1 by exact H. reflexivity.
  - intros H. apply number_add_1, H.
Qed.

Lemma updateLeitnerCard_incorrect (card : LeitnerCard) (w : World) :
  let card' := (updateLeitnerCard card false w).1 in
  LeitnerCard.box card' = 0%Z
  /\ LeitnerCard.correctStreak card' = 0%Z
  /\ LeitnerCard.lastSeen card' = clock w 0
  /\ LeitnerCard.personId card' = LeitnerCard.personId card.
Proof. destruct card; cbn; auto. Qed.

Lemma safe_integer_box (b : Z) : (0 <= b <= 2)%Z -> safe_integer b.
Proof. unfold safe_integer, MAX_SAFE_INTEGER. lia. Qed.

Lemma updateLeitnerCard_box_range (card : LeitnerCard) (correct : bool) (w : World) :
  (0 <= LeitnerCard.box card <= 2)%Z ->
  (0 <= LeitnerCard.box (updateLeitnerCard card correct w).1 <= 2)%Z.
Proof.
  intros H. destruct correct.
  - destruct (updateLeitnerCard_correct card w) as (Hb & _).
    rewrite Hb by (apply safe_integer_box, H). lia.
  - destruct (updateLeitnerCard_incorrect card w) as (-> & _). lia.
Qed.

(** C3: a correct answer moves the card to box [min(box + 1, 2)] and adds
    one to the streak, for a box and a streak that are safe integers (the
    sum of doubles [x + 1] is [x] itself from [2^53] on); an incorrect one
    resets box and streak to 0 whatever they were; five correct answers in
    a row from box 0 end in box 2; and a box in {0, 1, 2} stays in
    {0, 1, 2}. *)
Theorem updateLeitnerCard_spec (card : LeitnerCard) (w : World) :
  ((safe_integer (LeitnerCard.box card) ->
    LeitnerCard.box (updateLeitnerCard card true w).1
    = Z.min (LeitnerCard.box card + 1) 2)
   /\ (safe_integer (LeitnerCard.correctStreak card) ->
       LeitnerCard.correctStreak (updateLeitnerCard card true w).1
       = (LeitnerCard.correctStreak card + 1)%Z))
  /\ (LeitnerCard.box (updateLeitnerCard card false w).1 = 0%Z
      /\ LeitnerCard.correctStreak (updateLeitnerCard card false w).1 = 0%Z)
  /\ (LeitnerCard.box card = 0%Z ->
      LeitnerCard.box
        (updateLeitnerCard_seq [true; true; true; true; true] card w).1 = 2%Z)
  /\ ((0 <= LeitnerCard.box card <= 2)%Z ->
      forall correct : bool,
        (0 <= LeitnerCard.box (updateLeitnerCard card correct w).1 <= 2)%Z).
Proof.
  split; [|split; [|split]].
  - split; apply updateLeitnerCard_correct.
  - split; apply updateLeitnerCard_incorrect.
  - intros H. destruct card as [pid b ls cs]. cbn in H. subst b. reflexivity.
  - intros H correct. apply updateLeitnerCard_box_range; assumption.
Qed.

Lemma updateLeitnerCard_spec_witness :
  (LeitnerCard.box (updateLeitnerCard sample_card true sample_world).1 = 1%Z
   /\ LeitnerCard.correctStreak
        (updateLeitnerCard sample_card true sample_world).1 = 8%Z)
  /\ LeitnerCard.box
       (updateLeitnerCard_seq [true; true; true; true; true]
          sample_card sample_world).1 = 2%Z
  /\ (0 <= LeitnerCard.box (updateLeitnerCard sample_card false sample_world).1 <= 2)%Z.
Proof.
  pose proof (updateLeitnerCard_spec sample_card sample_world)
    as ((Hb & Hs) & _ & H5 & Hr).
  split; [split|split].
  - apply Hb. unfold safe_integer, MAX_SAFE_INTEGER. cbn. lia.
  - apply Hs. unfold safe_integer, MAX_SAFE_INTEGER. cbn. lia.
  - apply H5. reflexivity.
  - apply Hr. cbn. lia.
Defined.

(** ** Session statistics *)

Lemma session_snoc (results : list AnswerResult) (r : AnswerResult) :
  session (results ++ [r]) = handleAnswer_stats (session results) r.
Proof. unfold session. rewrite fold_left_app. reflexivity. Qed.

Lemma trailing_correct_snoc (results : list AnswerResult) (r : AnswerResult) :
  trailing_correct (results ++ [r])
  = if AnswerResult.correct r then S (trailing_correct results) else 0.
Proof. unfold trailing_correct. rewrite rev_app_distr. reflexivity. Qed.

Lemma count_correct_snoc (results : list AnswerResult) (r : AnswerResult) :
  count_correct (results ++ [r])
  = count_correct results + (if AnswerResult.correct r then 1 else 0).
Proof.
  unfold count_correct. rewrite filter_app, length_app.
  f_equal. destruct (AnswerResult.correct r) eqn:E.
  - rewrite filter_cons_True by (rewrite E; reflexivity). reflexivity.
  - rewrite filter_cons_False by (rewrite E; discriminate). reflexivity.
Qed.

Lemma session_results (results : list AnswerResult) :
  SessionStats.results (session results) = results.
Proof.
  induction results as [|r results IH] using rev_ind; [reflexivity|].
  rewrite session_snoc. cbn. rewrite IH. reflexivity.
Qed.

Lemma session_counters (results : list AnswerResult) :
  SessionStats.total (session results) = Z.of_nat (length results)
  /\ SessionStats.correct (session results) = Z.of_nat (count_correct results)
  /\ SessionStats.wrong (session results)
     = Z.of_nat (length results - count_correct results)
  /\ count_correct results <= length results.
Proof.
  induction results as [|r results (IHt & IHc & IHw & IHle)] using rev_ind.
  - cbn. repeat split; lia.
  - rewrite session_snoc, count_correct_snoc, length_app. cbn.
    rewrite IHt, IHc, IHw. destruct (AnswerResult.correct r); repeat split; lia.
Qed.

Lemma session_streaks (results : list AnswerResult) :
  SessionStats.streak (session results) = Z.of_nat (trailing_correct results)
  /\ (SessionStats.streak (session results)
      <= SessionStats.bestStreak (session results))%Z.
Proof.
  induction results as [|r results (IHs & IHb)] using rev_ind.
  - cbn. split; lia.
  - rewrite session_snoc, trailing_correct_snoc. cbn.
    rewrite IHs. destruct (AnswerResult.correct r); split; lia.
Qed.

Lemma session_accuracy (results : list AnswerResult) :
  SessionStats.accuracy (session results)
  = if (0 <? SessionStats.total (session results))%Z
    then percent (SessionStats.correct (session results))
           (SessionStats.total (session results))
    else 0%float.
Proof.
  destruct results as [|r results _] using rev_ind; [reflexivity|].
  rewrite session_snoc. reflexivity.
Qed.

(** C9, amended: the statistics of a session folded from the empty ones
    satisfy [correct + wrong = total = length results], [bestStreak >=
    streak], [streak] is the length of the trailing run of correct results,
    and [accuracy] is 0 for no result and otherwise the double
    [(correct / total) * 100], the quotient rounded before it is
    multiplied, [correct] being the number of correct results: not always
    the double nearest to the percentage [100 * correct / total]. *)
Theorem session_invariant (results : list AnswerResult) :
  let s := session results in
  (SessionStats.correct s + SessionStats.wrong s)%Z = SessionStats.total s
  /\ SessionStats.total s = Z.of_nat (length results)
  /\ (SessionStats.bestStreak s >= SessionStats.streak s)%Z
  /\ SessionStats.streak s = Z.of_nat (trailing_correct results)
  /\ SessionStats.correct s = Z.of_nat (count_correct results)
  /\ SessionStats.accuracy s
     = match results with
       | [] => 0%float
       | _ :: _ =>
           (float_of_Z (Z.of_nat (count_correct results))
            / float_of_Z (Z.of_nat (length results)) * 100)%float
       end
  /\ SessionStats.results s = results.
Proof.
  cbv zeta.
  destruct (session_counters results) as (Ht & Hc & Hw & Hle).
  destruct (session_streaks results) as (Hs & Hb).
  split; [lia|]. split; [exact Ht|]. split; [lia|]. split; [exact Hs|].
  split; [exact Hc|]. split; [|apply session_results].
  rewrite session_accuracy, Ht, Hc.
  destruct results as [|r results]; [reflexivity|].
  cbn [length]. destruct (Z.ltb_spec 0 (Z.of_nat (S (length results)))); [|lia].
  reflexivity.
Qed.

(** C9, the claim as worded: after 7 correct answers out of 25 the
    percentage [100 * correct / total] is 28, in integers as in doubles,
    while the stored accuracy is the next double above 28. *)
Lemma session_accuracy_not_percentage :
  let s := session seven_of_twenty_five in
  SessionStats.correct s = 7%Z
  /\ SessionStats.total s = 25%Z
  /\ (100 * SessionStats.correct s = 28 * SessionStats.total s)%Z
  /\ (100 * float_of_Z (SessionStats.correct s)
      / float_of_Z (SessionStats.total s))%float = 28%float
  /\ SessionStats.accuracy s = 28.000000000000004%float
  /\ SessionStats.accuracy s <> 28%float.
Proof.
  cbv zeta. repeat split; try (vm_compute; reflexivity).
  intros H. apply (f_equal (fun x => (x =? 28)%float)) in H.
  vm_compute in H. discriminate.
Qed.

(** ** Folding a session into the overall statistics *)

Lemma upsert_person_same_counters (people people' : list Person)
    (a b : gmap jsstring PersonStats) (r : AnswerResult) :
  same_counters a b ->
  same_counters (upsert_person people a r) (upsert_person people' b r).
Proof.
  intros H pid. unfold upsert_person.
  destruct (decide (AnswerResult.personId r = pid)) as [->|Hne].
  - rewrite !lookup_insert_eq. specialize (H pid).
    destruct (a !! pid) as [ea|], (b !! pid) as [eb|]; cbn in H; try discriminate.
    + injection H as Ha Hc Hacc. cbn. unfold counters. cbn.
      rewrite Ha, Hc. reflexivity.
    + reflexivity.
  - rewrite !lookup_insert_ne by assumption. apply H.
Qed.

Lemma fold_upsert_same_counters (people people' : list Person)
    (results : list AnswerResult) (a b : gmap jsstring PersonStats) :
  same_counters a b ->
  same_counters (fold_left (upsert_person people) results a)
    (fold_left (upsert_person people') results b).
Proof.
  revert a b. induction results as [|r results IH]; intros a b H; [exact H|].
  cbn. apply IH, upsert_person_same_counters, H.
Qed.

Lemma session_app_counters (l1 l2 : list AnswerResult) :
  (SessionStats.total (session l1) + SessionStats.total (session l2))%Z
  = SessionStats.total (session (l1 ++ l2))
  /\ (SessionStats.correct (session l1) + SessionStats.correct (session l2))%Z
     = SessionStats.correct (session (l1 ++ l2)).
Proof.
  destruct (session_counters l1) as (-> & -> & _).
  destruct (session_counters l2) as (-> & -> & _).
  destruct (session_counters (l1 ++ l2)) as (-> & -> & _).
  unfold count_correct. rewrite filter_app, !length_app. lia.
Qed.

(** A counter that grows by [m] and then by [n] within the safe integers
    holds the sum, as when it grows by [m + n] at once. *)
Lemma number_add_twice (c m n : Z) :
  (0 <= m)%Z -> (0 <= n)%Z -> counts_up_to c (m + n) ->
  number_add (number_add c m) n = (c + (m + n))%Z
  /\ number_add c (m + n) = (c + (m + n))%Z.
Proof.
  unfold counts_up_to, safe_integer. intros Hm Hn [Hc Hs].
  rewrite (number_add_safe c m) by (unfold safe_integer; lia).
  rewrite (number_add_safe (c + m) n) by (unfold safe_integer; lia).
  rewrite (number_add_safe c (m + n)) by (unfold safe_integer; lia).
  lia.
Qed.

(** Two sessions in a row against one session with the same answers: any
    split, any rosters, any card snapshots. *)
Lemma finishSession_app (people1 people2 people : list Person)
    (overall : OverallStats) (cards1 cards2 cards : gmap jsstring LeitnerCard)
    (l1 l2 : list AnswerResult) :
  let two :=
    finishSession people2 (finishSession people1 overall cards1 (session l1))
      cards2 (session l2) in
  let one := finishSession people overall cards (session (l1 ++ l2)) in
  (counts_up_to (OverallStats.totalQuestions overall)
     (Z.of_nat (length (l1 ++ l2))) ->
   OverallStats.totalQuestions two = OverallStats.totalQuestions one)
  /\ (counts_up_to (OverallStats.totalCorrect overall)
        (Z.of_nat (length (l1 ++ l2))) ->
      OverallStats.totalCorrect two = OverallStats.totalCorrect one)
  /\ same_counters (OverallStats.personStats two) (OverallStats.personStats one)
  /\ (counts_up_to (OverallStats.totalSessions overall) 2 ->
      OverallStats.totalSessions two
      = (OverallStats.totalSessions one + 1)%Z).
Proof.
  cbv zeta.
  destruct (session_counters l1) as (Ht1 & Hc1 & _ & Hle1).
  destruct (session_counters l2) as (Ht2 & Hc2 & _ & Hle2).
  destruct (session_counters (l1 ++ l2)) as (Ht & Hc & _ & Hle).
  assert (count_correct (l1 ++ l2) = count_correct l1 + count_correct l2)
    as Hcc by (unfold count_correct; rewrite filter_app, length_app; reflexivity).
  unfold finishSession. cbn. rewrite !session_results.
  rewrite Ht1, Ht2, Ht, Hc1, Hc2, Hc, Hcc, length_app.
  rewrite length_app in Hle. rewrite Hcc in Hle.
  split; [|split; [|split]].
  - intros H.
    replace (Z.of_nat (length l1 + length l2))
      with (Z.of_nat (length l1) + Z.of_nat (length l2))%Z in * by lia.
    destruct (number_add_twice (OverallStats.totalQuestions overall)
                (Z.of_nat (length l1)) (Z.of_nat (length l2)))
      as [-> ->]; [lia | lia | exact H | reflexivity].
  - intros [H1 H2].
    replace (Z.of_nat (count_correct l1 + count_correct l2))
      with (Z.of_nat (count_correct l1) + Z.of_nat (count_correct l2))%Z by lia.
    destruct (number_add_twice (OverallStats.totalCorrect overall)
                (Z.of_nat (count_correct l1)) (Z.of_nat (count_correct l2)))
      as [-> ->]; [lia | lia | | reflexivity].
    unfold counts_up_to, safe_integer in *. lia.
  - rewrite fold_left_app. apply fold_upsert_same_counters.
    apply fold_upsert_same_counters. intros pid. reflexivity.
  - intros H.
    destruct (number_add_twice (OverallStats.totalSessions overall) 1 1)
      as [-> _]; [lia | lia | exact H |].
    rewrite number_add_safe; [lia|].
    unfold counts_up_to, safe_integer in *. lia.
Qed.

(** With one roster the two maps of person statistics are the same map. *)
Lemma finishSession_app_personStats (people : list Person)
    (overall : OverallStats) (cards1 cards2 cards : gmap jsstring LeitnerCard)
    (l1 l2 : list AnswerResult) :
  OverallStats.personStats
    (finishSession people (finishSession people overall cards1 (session l1))
       cards2 (session l2))
  = OverallStats.personStats
      (finishSession people overall cards (session (l1 ++ l2))).
Proof.
  unfold finishSession. cbn. rewrite !session_results, fold_left_app.
  reflexivity.
Qed.

(** C7: folding [r1] and then [r2, r3] as two sessions gives the same
    [totalQuestions], [totalCorrect] and per-person [timesAsked],
    [timesCorrect] and [accuracy] as folding [r1, r2, r3] as one session from
    the same overall statistics; [totalSessions] differs by one. The totals
    agree for starting totals that are safe integers with room for the
    three answers (sums of doubles beyond [2^53] depend on the grouping);
    the per-person counters agree for all starting statistics, for every
    identifier that names no property of [Object.prototype]. *)
Theorem session_fold_split (people1 people2 people : list Person)
    (overall : OverallStats) (cards1 cards2 cards : gmap jsstring LeitnerCard)
    (r1 r2 r3 : AnswerResult) :
  let two :=
    finishSession people2 (finishSession people1 overall cards1 (session [r1]))
      cards2 (session [r2; r3]) in
  let one := finishSession people overall cards (session [r1; r2; r3]) in
  (counts_up_to (OverallStats.totalQuestions overall) 3 ->
   OverallStats.totalQuestions two = OverallStats.totalQuestions one)
  /\ (counts_up_to (OverallStats.totalCorrect overall) 3 ->
      OverallStats.totalCorrect two = OverallStats.totalCorrect one)
  /\ (forall pid : jsstring,
        plain_key pid ->
        counters <$> OverallStats.personStats two !! pid
        = counters <$> OverallStats.personStats one !! pid)
  /\ (counts_up_to (OverallStats.totalSessions overall) 2 ->
      OverallStats.totalSessions two
      = (OverallStats.totalSessions one + 1)%Z).
Proof.
  destruct (finishSession_app people1 people2 people overall cards1 cards2
              cards [r1] [r2; r3]) as (Hq & Hc & Hp & Hs).
  split; [exact Hq|]. split; [exact Hc|]. split; [|exact Hs].
  intros pid _. apply Hp.
Qed.

Lemma session_fold_split_witness :
  let overall :=
    OverallStats.mk 4 40 31
      {[ [97%N] := PersonStats.mk [97%N] (lit "זיו") 9 7 77%float ]} ∅ in
  let r1 := AnswerResult.mk [97%N] true [] [] flashcards None in
  let r2 := AnswerResult.mk [98%N] false [] [] trueFalse None in
  let r3 := AnswerResult.mk [97%N] true [] [] flashcards None in
  let two :=
    finishSession [person_a; person_b]
      (finishSession [person_a; person_b] overall ∅ (session [r1]))
      ∅ (session [r2; r3]) in
  let one := finishSession [person_a; person_b] overall ∅ (session [r1; r2; r3]) in
  OverallStats.totalQuestions two = OverallStats.totalQuestions one
  /\ OverallStats.totalCorrect two = OverallStats.totalCorrect one
  /\ counters <$> OverallStats.personStats two !! [97%N]
     = counters <$> OverallStats.personStats one !! [97%N]
  /\ OverallStats.totalSessions two = (OverallStats.totalSessions one + 1)%Z.
Proof.
  cbv zeta.
  pose proof (session_fold_split [person_a; person_b] [person_a; person_b]
                [person_a; person_b]
                (OverallStats.mk 4 40 31
                   {[ [97%N] := PersonStats.mk [97%N] (lit "זיו") 9 7 77%float ]} ∅)
                ∅ ∅ ∅
                (AnswerResult.mk [97%N] true [] [] flashcards None)
                (AnswerResult.mk [98%N] false [] [] trueFalse None)
                (AnswerResult.mk [97%N] true [] [] flashcards None))
    as (Hq & Hc & Hp & Hs).
  split; [|split; [|split]].
  - apply Hq. unfold counts_up_to, safe_integer, MAX_SAFE_INTEGER. cbn. lia.
  - apply Hc. unfold counts_up_to, safe_integer, MAX_SAFE_INTEGER. cbn. lia.
  - apply Hp. apply (bool_decide_unpack _). vm_compute. exact I.
  - apply Hs. unfold counts_up_to, safe_integer, MAX_SAFE_INTEGER. cbn. lia.
Defined.

(** ** The parser *)

Lemma people_of_blocks_shift (toString36 : float -> jsstring)
    (draws : nat -> float) (start : nat)
    (blocks : list (jsstring * jsstring * jsstring)) :
  people_of_blocks toString36 (fun k => draws (S k)) start blocks
  = people_of_blocks toString36 draws (S start) blocks.
Proof.
  revert start. induction blocks as [|[[a b] c] rest IH]; intros start.
  - reflexivity.
  - cbn. rewrite IH. reflexivity.
Qed.

Lemma triples_length (lines : list jsstring) (k : nat) :
  length lines = 3 * k -> length (triples lines) = k.
Proof.
  revert lines. induction k as [|k IH]; intros lines H.
  - destruct lines; [reflexivity | cbn in H; lia].
  - destruct lines as [|a [|b [|c rest]]]; cbn in H; try lia.
    cbn. rewrite IH by lia. reflexivity.
Qed.

Lemma parse_loop_blocks (toString36 : float -> jsstring) (turns : nat) :
  forall (pre rest : list jsstring) (acc : list Person) (w : World),
    length rest = 3 * turns ->
    (parse_loop toString36 turns (pre ++ rest) acc (length pre) w).1
    = Some (acc ++ people_of_blocks toString36 (random w) 0 (triples rest)).
Proof.
  induction turns as [|turns IH]; intros pre rest acc w Hlen.
  - destruct rest; [|cbn in Hlen; lia]. cbn. rewrite app_nil_r. reflexivity.
  - destruct rest as [|a [|b [|c rest]]]; cbn in Hlen; try lia.
    cbn [parse_loop]. unfold bind at 1. unfold parse_step.
    rewrite (lookup_app_r pre) by lia.
    rewrite (lookup_app_r pre) by lia.
    rewrite (lookup_app_r pre) by lia.
    replace (length pre - length pre) with 0 by lia.
    replace (length pre + 1 - length pre) with 1 by lia.
    replace (length pre + 2 - length pre) with 2 by lia.
    cbn [lookup list_lookup]. cbn [bind generateId Math_random ret].
    specialize (IH (pre ++ [a; b; c]) rest
                  (acc ++ [Person.mk (id_of_draw toString36 (random w 0)) a
                             (tokens b) (tokens c)])
                  (mkWorld (fun k => random w (S k)) (clock w))).
    rewrite length_app in IH. cbn [length] in IH.
    rewrite <- app_assoc in IH. cbn [app] in IH.
    rewrite IH by lia. cbn [random triples people_of_blocks].
    rewrite people_of_blocks_shift, <- app_assoc. reflexivity.
Qed.

(** What [parsePeopleText] returns, by the number of non-empty lines. *)
Lemma parsePeopleText_eq (toString36 : float -> jsstring) (text : jsstring)
    (w : World) :
  let lines := nonEmptyLines text in
  let n := length lines in
  (parsePeopleText toString36 text w).1
  = if n =? 0 then Some (Failure (ParseError.mk msg_empty []))
    else if negb (n mod 3 =? 0) then
      Some (Failure (ParseError.mk
              (if n mod 3 =? 1 then message_one n else message_many (n mod 3) n)
              (skipn (n - n mod 3) lines)))
    else Some (Success
                 (people_of_blocks toString36 (random w) 0 (triples lines))).
Proof.
  cbv zeta. unfold parsePeopleText.
  destruct (length (nonEmptyLines text) =? 0) eqn:E0; [reflexivity|].
  destruct (negb (length (nonEmptyLines text) mod 3 =? 0)) eqn:E3; [reflexivity|].
  apply negb_false_iff, Nat.eqb_eq in E3.
  pose proof (parse_loop_blocks toString36
                ((length (nonEmptyLines text) + 2) / 3) [] (nonEmptyLines text)
                [] w) as H.
  cbn [app length] in H. unfold bind.
  destruct (parse_loop _ _ _ _ _ w) as [r w'] eqn:El. cbn [fst] in H |- *.
  rewrite H; [reflexivity|].
  apply Nat.Div0.div_exact in E3.
  rewrite E3 at 1. rewrite E3 at 2.
  replace (3 * (length (nonEmptyLines text) / 3) + 2)
    with (2 + (length (nonEmptyLines text) / 3) * 3) by lia.
  rewrite Nat.div_add by lia. cbn. lia.
Qed.

Lemma triples_lookup (lines : list jsstring) (k : nat) (a b c : jsstring) :
  triples lines !! k = Some (a, b, c) ->
  lines !! (3 * k) = Some a /\ lines !! (3 * k + 1) = Some b
  /\ lines !! (3 * k + 2) = Some c.
Proof.
  revert lines. induction k as [|k IH]; intros lines H.
  - destruct lines as [|x [|y [|z rest]]]; cbn in H; try discriminate.
    injection H as -> -> ->. auto.
  - destruct lines as [|x [|y [|z rest]]]; cbn in H; try discriminate.
    apply IH in H. replace (3 * S k) with (S (S (S (3 * k)))) by lia.
    exact H.
Qed.

Lemma people_of_blocks_lookup (toString36 : float -> jsstring)
    (draws : nat -> float) (blocks : list (jsstring * jsstring * jsstring)) :
  forall (start k : nat) (p : Person),
    people_of_blocks toString36 draws start blocks !! k = Some p ->
    exists a b c,
      blocks !! k = Some (a, b, c)
      /\ p = Person.mk (id_of_draw toString36 (draws (start + k))) a
               (tokens b) (tokens c).
Proof.
  induction blocks as [|[[a b] c] rest IH]; intros start k p H.
  - discriminate.
  - destruct k as [|k]; cbn in H.
    + injection H as <-. exists a, b, c. rewrite Nat.add_0_r. auto.
    + apply IH in H as (a' & b' & c' & Hb & ->).
      exists a', b', c'. split; [exact Hb|].
      replace (S start + k) with (start + S k) by lia. reflexivity.
Qed.

Lemma people_of_blocks_length (toString36 : float -> jsstring)
    (draws : nat -> float) (blocks : list (jsstring * jsstring * jsstring))
    (start : nat) :
  length (people_of_blocks toString36 draws start blocks) = length blocks.
Proof.
  revert start. induction blocks as [|[[a b] c] rest IH]; intros start.
  - reflexivity.
  - cbn. rewrite IH. reflexivity.
Qed.

Example parse_sample_text :
  (parsePeopleText sample_toString36 sample_text sample_world).1
  = Some (Success
            [Person.mk [105%N] (lit "זיו") [lit "רותם"; lit "טל"]
               [lit "נועה"; lit "עמית"]]).
Proof. vm_compute. reflexivity. Qed.

Lemma message_kinds_distinct :
  (forall a r b : nat, message_one a <> message_many r b)
  /\ (forall a : nat, msg_empty <> message_one a)
  /\ (forall r b : nat, msg_empty <> message_many r b).
Proof.
  split; [|split].
  - intros a r b H. apply (f_equal (fun l : jsstring => l !! 18)) in H.
    unfold message_one, message_many, msg_one_a, msg_many_a in H.
    cbn in H. discriminate.
  - intros a H. apply (f_equal (fun l : jsstring => l !! 0)) in H.
    unfold message_one, msg_empty, msg_one_a in H. cbn in H. discriminate.
  - intros r b H. apply (f_equal (fun l : jsstring => l !! 0)) in H.
    unfold message_many, msg_empty, msg_many_a in H. cbn in H. discriminate.
Qed.

(** C2: [parsePeopleText] fails in two cases and succeeds otherwise. With
    no non-empty line it fails with the empty-input message and no
    remainder line; with a positive number of non-empty lines that 3 does
    not divide it fails with the last [count mod 3] non-empty lines as
    remainder lines, the message being of one kind for remainder 1 and of
    another for remainder 2; otherwise it succeeds. The three messages are
    pairwise distinct. *)
Theorem parse_failure_cases (toString36 : float -> jsstring) (text : jsstring)
    (w : World) :
  let lines := nonEmptyLines text in
  let n := length lines in
  let result := (parsePeopleText toString36 text w).1 in
  (n = 0 -> result = Some (Failure (ParseError.mk msg_empty [])))
  /\ (0 < n -> n mod 3 <> 0 ->
      exists message : jsstring,
        result
        = Some (Failure (ParseError.mk message (skipn (n - n mod 3) lines)))
        /\ length (skipn (n - n mod 3) lines) = n mod 3
        /\ (n mod 3 = 1 -> message = message_one n)
        /\ (n mod 3 = 2 -> message = message_many 2 n))
  /\ (0 < n -> n mod 3 = 0 ->
      exists people : list Person, result = Some (Success people))
  /\ (forall a r b : nat, message_one a <> message_many r b)
  /\ (forall a : nat, msg_empty <> message_one a)
  /\ (forall r b : nat, msg_empty <> message_many r b).
Proof.
  cbv zeta. rewrite parsePeopleText_eq. cbv zeta.
  split; [|split; [|split; [|exact message_kinds_distinct]]].
  - intros ->. reflexivity.
  - intros Hpos Hmod.
    destruct (length (nonEmptyLines text) =? 0) eqn:E0;
      [apply Nat.eqb_eq in E0; lia|].
    destruct (length (nonEmptyLines text) mod 3 =? 0) eqn:E3;
      [apply Nat.eqb_eq in E3; lia|].
    cbn [negb]. eexists. split; [reflexivity|]. split; [|split].
    + rewrite length_skipn.
      pose proof (Nat.Div0.mod_le (length (nonEmptyLines text)) 3). lia.
    + intros ->. reflexivity.
    + intros ->. reflexivity.
  - intros Hpos Hmod.
    destruct (length (nonEmptyLines text) =? 0) eqn:E0;
      [apply Nat.eqb_eq in E0; lia|].
    rewrite Hmod. cbn [Nat.eqb negb]. eexists. reflexivity.
Qed.

Lemma parse_failure_cases_witness :
  (parsePeopleText sample_toString36 [] sample_world).1
  = Some (Failure (ParseError.mk msg_empty []))
  /\ (parsePeopleText sample_toString36 sample_text_one_left sample_world).1
     = Some (Failure (ParseError.mk (message_one 4) [lit "שלומי"]))
  /\ (parsePeopleText sample_toString36 sample_text_two_left sample_world).1
     = Some (Failure (ParseError.mk (message_many 2 5)
                        [lit "שלומי"; lit "רוני רן"]))
  /\ exists people : list Person,
       (parsePeopleText sample_toString36 sample_text sample_world).1
       = Some (Success people).
Proof.
  split; [|split; [|split]].
  - apply (parse_failure_cases sample_toString36 [] sample_world).
    reflexivity.
  - destruct (parse_failure_cases sample_toString36 sample_text_one_left
                sample_world) as (_ & H & _).
    destruct H as (message & Hr & _ & H1 & _);
      [vm_compute; lia | vm_compute; discriminate |].
    rewrite Hr, H1 by (vm_compute; reflexivity). reflexivity.
  - destruct (parse_failure_cases sample_toString36 sample_text_two_left
                sample_world) as (_ & H & _).
    destruct H as (message & Hr & _ & _ & H2);
      [vm_compute; lia | vm_compute; discriminate |].
    rewrite Hr, H2 by (vm_compute; reflexivity). reflexivity.
  - apply (parse_failure_cases sample_toString36 sample_text sample_world).
    + vm_compute. lia.
    + vm_compute. reflexivity.
Defined.

(** *** Lines and tokens *)

Lemma split_nl_no_nl (l : jsstring) :
  10%N ∉ l -> split_nl l = [l].
Proof.
  induction l as [|c l IH]; intros H; [reflexivity|].
  apply not_elem_of_cons in H as [Hc Hl]. cbn.
  destruct (N.eqb_spec c 10); [congruence|].
  rewrite IH by assumption. reflexivity.
Qed.

Lemma split_nl_app (l rest : jsstring) :
  10%N ∉ l -> split_nl (l ++ 10%N :: rest) = l :: split_nl rest.
Proof.
  induction l as [|c l IH]; intros H; [reflexivity|].
  apply not_elem_of_cons in H as [Hc Hl]. cbn.
  destruct (N.eqb_spec c 10); [congruence|].
  rewrite IH by assumption. reflexivity.
Qed.

Lemma trimStart_head (s : jsstring) (c : N) (s' : jsstring) :
  trimStart s = c :: s' -> is_ws c = false.
Proof.
  induction s as [|d s IH]; cbn; [discriminate|].
  destruct (is_ws d) eqn:E; [exact IH|].
  intros H. injection H as <- _. exact E.
Qed.

(** A non-empty trimmed string holds a code unit that is no whitespace. *)
Lemma trim_nonempty (s : jsstring) :
  trim s <> [] -> exists c : N, c ∈ trim s /\ is_ws c = false.
Proof.
  unfold trim, trimEnd. intros H.
  destruct (trimStart (rev (trimStart s))) as [|c x] eqn:E; [contradiction|].
  exists c. split.
  - apply list_elem_of_In, in_rev. rewrite rev_involutive. left. reflexivity.
  - eapply trimStart_head, E.
Qed.

Lemma split_ws_from_clean (s : jsstring) :
  forall (prev_ws : bool) (piece : jsstring) (c : N),
    piece ∈ split_ws_from prev_ws s -> c ∈ piece -> is_ws c = false.
Proof.
  induction s as [|d s IH]; intros prev_ws piece c Hp Hc; cbn in Hp.
  - apply list_elem_of_singleton in Hp. subst piece. inversion Hc.
  - destruct (is_ws d) eqn:E.
    + destruct prev_ws.
      * eapply IH; eassumption.
      * apply elem_of_cons in Hp as [->|Hp]; [inversion Hc|].
        eapply IH; eassumption.
    + destruct (split_ws_from false s) as [|piece0 rest] eqn:Es.
      * apply list_elem_of_singleton in Hp. subst piece.
        apply list_elem_of_singleton in Hc. subst c. exact E.
      * apply elem_of_cons in Hp as [->|Hp].
        -- apply elem_of_cons in Hc as [->|Hc]; [exact E|].
           apply (IH false piece0 c); [rewrite Es; left | exact Hc].
        -- apply (IH false piece c); [rewrite Es; right; exact Hp | exact Hc].
Qed.

Lemma split_ws_from_word (s : jsstring) :
  forall (prev_ws : bool) (c : N),
    c ∈ s -> is_ws c = false ->
    exists piece : jsstring,
      piece ∈ split_ws_from prev_ws s /\ 0 < length piece.
Proof.
  induction s as [|d s IH]; intros prev_ws c Hc Hws; [inversion Hc|].
  cbn. destruct (is_ws d) eqn:E.
  - apply elem_of_cons in Hc as [->|Hc]; [congruence|].
    destruct (IH true c Hc Hws) as (piece & Hp & Hl).
    exists piece. split; [|exact Hl].
    destruct prev_ws; [exact Hp | right; exact Hp].
  - destruct (split_ws_from false s) as [|piece0 rest].
    + exists [d]. split; [left | cbn; lia].
    + exists (d :: piece0). split; [left | cbn; lia].
Qed.

(** Every token is a non-empty run without whitespace. *)
Lemma tokens_clean (line t : jsstring) :
  t ∈ tokens line -> t <> [] /\ forall c : N, c ∈ t -> is_ws c = false.
Proof.
  unfold tokens, split_ws. intros H.
  apply list_elem_of_filter in H as [Hl Hp]. split.
  - intros ->. cbn in Hl. lia.
  - intros c Hc. eapply split_ws_from_clean; eassumption.
Qed.

(** A line with a code unit that is no whitespace has a token. *)
Lemma tokens_nonempty (line : jsstring) (c : N) :
  c ∈ line -> is_ws c = false -> 0 < length (tokens line).
Proof.
  intros Hc Hws.
  destruct (split_ws_from_word line false c Hc Hws) as (piece & Hp & Hl).
  assert (piece ∈ tokens line) as Hin.
  { unfold tokens, split_ws. apply list_elem_of_filter. auto. }
  destruct (tokens line); [inversion Hin | cbn; lia].
Qed.

Lemma nonEmptyLines_elem (text line : jsstring) :
  line ∈ nonEmptyLines text ->
  line <> [] /\ exists c : N, c ∈ line /\ is_ws c = false.
Proof.
  unfold nonEmptyLines. intros H.
  apply list_elem_of_filter in H as [Hl Hin].
  apply list_elem_of_In, in_map_iff in Hin as (raw & <- & _).
  assert (trim raw <> []) as Hne by (intros E; rewrite E in Hl; cbn in Hl; lia).
  split; [exact Hne | apply trim_nonempty, Hne].
Qed.

(** The people of a successful parse, field by field. *)
Lemma parse_success_person (toString36 : float -> jsstring) (text : jsstring)
    (w : World) (people : list Person) (p : Person) :
  (parsePeopleText toString36 text w).1 = Some (Success people) ->
  p ∈ people ->
  Person.name p <> []
  /\ 0 < length (Person.parents p)
  /\ 0 < length (Person.siblings p)
  /\ forall t : jsstring,
       t ∈ Person.parents p \/ t ∈ Person.siblings p ->
       t <> [] /\ forall c : N, c ∈ t -> is_ws c = false.
Proof.
  rewrite parsePeopleText_eq. cbv zeta. intros H Hp.
  destruct (length (nonEmptyLines text) =? 0); [discriminate|].
  destruct (negb (length (nonEmptyLines text) mod 3 =? 0)); [discriminate|].
  injection H as <-.
  apply list_elem_of_lookup in Hp as [k Hk].
  apply people_of_blocks_lookup in Hk as (a & b & c & Hb & ->).
  apply triples_lookup in Hb as (Ha & Hb & Hc).
  apply list_elem_of_lookup_2, nonEmptyLines_elem in Ha as (Ha & _).
  apply list_elem_of_lookup_2, nonEmptyLines_elem in Hb as (_ & cb & Hcb & Hwb).
  apply list_elem_of_lookup_2, nonEmptyLines_elem in Hc as (_ & cc & Hcc & Hwc).
  cbn. split; [exact Ha|]. split; [eapply tokens_nonempty; eassumption|].
  split; [eapply tokens_nonempty; eassumption|].
  intros t [Ht|Ht]; eapply tokens_clean; eassumption.
Qed.

(** C10: every person of a successful parse has a non-empty name, at least
    one parent and at least one sibling, and every parent and sibling is a
    non-empty token without whitespace. *)
Theorem parsed_person_wellformed (toString36 : float -> jsstring)
    (text : jsstring) (w : World) (people : list Person) (p : Person) :
  (parsePeopleText toString36 text w).1 = Some (Success people) ->
  p ∈ people ->
  Person.name p <> []
  /\ 1 <= length (Person.parents p)
  /\ 1 <= length (Person.siblings p)
  /\ forall t : jsstring,
       t ∈ Person.parents p \/ t ∈ Person.siblings p ->
       t <> [] /\ forall c : N, c ∈ t -> is_ws c = false.
Proof. exact (parse_success_person toString36 text w people p). Qed.

Lemma parsed_person_wellformed_witness :
  let p := Person.mk [105%N] (lit "זיו") [lit "רותם"; lit "טל"]
             [lit "נועה"; lit "עמית"] in
  Person.name p <> []
  /\ 1 <= length (Person.parents p)
  /\ 1 <= length (Person.siblings p)
  /\ forall t : jsstring,
       t ∈ Person.parents p \/ t ∈ Person.siblings p ->
       t <> [] /\ forall c : N, c ∈ t -> is_ws c = false.
Proof.
  apply (parsed_person_wellformed sample_toString36 sample_text sample_world
           [Person.mk [105%N] (lit "זיו") [lit "רותם"; lit "טל"]
              [lit "נועה"; lit "עמית"]]).
  - vm_compute. reflexivity.
  - left.
Defined.

(** C6, as stated, fails: no input and no world make [parsePeopleText]
    succeed with a person whose siblings list is empty. *)
Lemma no_parsed_person_without_siblings :
  ~ exists (toString36 : float -> jsstring) (text : jsstring) (w : World)
      (people : list Person) (p : Person),
      (parsePeopleText toString36 text w).1 = Some (Success people)
      /\ p ∈ people
      /\ Person.siblings p = [].
Proof.
  intros (toString36 & text & w & people & p & H & Hp & Hs).
  destruct (parse_success_person toString36 text w people p H Hp)
    as (_ & _ & Hl & _).
  rewrite Hs in Hl. cbn in Hl. lia.
Qed.

Lemma nonEmptyLines_three (l1 l2 l3 : jsstring) :
  10%N ∉ l1 -> 10%N ∉ l2 -> 10%N ∉ l3 ->
  trim l1 <> [] -> trim l2 <> [] -> trim l3 = [] ->
  nonEmptyLines (l1 ++ [10%N] ++ l2 ++ [10%N] ++ l3) = [trim l1; trim l2].
Proof.
  intros H1 H2 H3 T1 T2 T3. unfold nonEmptyLines. cbn [app].
  rewrite split_nl_app, split_nl_app, split_nl_no_nl by assumption.
  cbn [map]. rewrite T3.
  rewrite filter_cons_True by (destruct (trim l1); [contradiction|cbn; lia]).
  rewrite filter_cons_True by (destruct (trim l2); [contradiction|cbn; lia]).
  rewrite filter_cons_False by (cbn; lia). reflexivity.
Qed.

(** C6, amended: blank lines are dropped before the lines are grouped, so a
    text made of a name line, a parents line and an empty (or blank) third
    line fails with the error for two dangling lines, the trimmed name and
    parents lines being the remainder lines. *)
Theorem empty_third_line_fails (toString36 : float -> jsstring)
    (l1 l2 l3 : jsstring) (w : World) :
  10%N ∉ l1 -> 10%N ∉ l2 -> 10%N ∉ l3 ->
  trim l1 <> [] -> trim l2 <> [] -> trim l3 = [] ->
  (parsePeopleText toString36 (l1 ++ [10%N] ++ l2 ++ [10%N] ++ l3) w).1
  = Some (Failure (ParseError.mk (message_many 2 2) [trim l1; trim l2])).
Proof.
  intros H1 H2 H3 T1 T2 T3. rewrite parsePeopleText_eq. cbv zeta.
  rewrite nonEmptyLines_three by assumption. reflexivity.
Qed.

Lemma empty_third_line_fails_witness :
  (parsePeopleText sample_toString36
     (lit "זיו" ++ [10%N] ++ lit "רותם טל" ++ [10%N] ++ []) sample_world).1
  = Some (Failure (ParseError.mk (message_many 2 2)
                     [lit "זיו"; lit "רותם טל"])).
Proof.
  apply (empty_third_line_fails sample_toString36 (lit "זיו") (lit "רותם טל")
           [] sample_world).
  - vm_compute. intros H. repeat (inversion H as [|? ? ? H']; clear H; rename H' into H).
  - vm_compute. intros H. repeat (inversion H as [|? ? ? H']; clear H; rename H' into H).
  - intros H. inversion H.
  - vm_compute. discriminate.
  - vm_compute. discriminate.
  - reflexivity.
Defined.

(** *** Identifiers *)

Lemma people_of_blocks_ids (toString36 : float -> jsstring)
    (draws : nat -> float) (blocks : list (jsstring * jsstring * jsstring)) :
  forall start : nat,
    map Person.id (people_of_blocks toString36 draws start blocks)
    = map (fun k => id_of_draw toString36 (draws k))
        (seq start (length blocks)).
Proof.
  induction blocks as [|[[a b] c] rest IH]; intros start; [reflexivity|].
  cbn. rewrite IH. reflexivity.
Qed.

(** The identifiers of a successful parse are those of the first draws, in
    order: they are pairwise distinct exactly when those are. *)
Lemma parse_success_ids (toString36 : float -> jsstring) (text : jsstring)
    (w : World) (people : list Person) :
  (parsePeopleText toString36 text w).1 = Some (Success people) ->
  map Person.id people
  = map (fun k => id_of_draw toString36 (random w k)) (seq 0 (length people)).
Proof.
  rewrite parsePeopleText_eq. cbv zeta. intros H.
  destruct (length (nonEmptyLines text) =? 0); [discriminate|].
  destruct (negb (length (nonEmptyLines text) mod 3 =? 0)); [discriminate|].
  injection H as <-.
  rewrite people_of_blocks_ids, people_of_blocks_length. reflexivity.
Qed.

(** C8 fails on the code: when two calls of [Math.random()] return the same
    double, the two people of a two-block text get the same identifier,
    whatever the rendering [toString36] is. *)
Theorem parse_ids_collide (toString36 : float -> jsstring) (r : float) :
  exists p q : Person,
    (parsePeopleText toString36 two_blocks_text (constant_world r)).1
    = Some (Success [p; q])
    /\ Person.id p = Person.id q.
Proof.
  exists (Person.mk (id_of_draw toString36 r) (lit "א") [lit "ב"; lit "ג"]
            [lit "ד"]),
         (Person.mk (id_of_draw toString36 r) (lit "ה") [lit "ו"; lit "ז"]
            [lit "ח"]).
  split; [|reflexivity].
  rewrite parsePeopleText_eq. vm_compute. reflexivity.
Qed.

(** ** Selection *)

Lemma weigh_person (cards : gmap jsstring LeitnerCard) (p : Person) (w : World) :
  Weighted.person (weigh cards p w).1 = p.
Proof. unfold weigh. destruct (cards !! Person.id p); reflexivity. Qed.

Lemma mapM_weigh_persons (cards : gmap jsstring LeitnerCard)
    (l : list Person) :
  forall w : World, map Weighted.person (mapM (weigh cards) l w).1 = l.
Proof.
  induction l as [|p l IH]; intros w; [reflexivity|].
  cbn [mapM]. unfold bind at 1.
  pose proof (weigh_person cards p w) as Hp.
  destruct (weigh cards p w) as [x w1]. cbn [fst] in Hp.
  unfold bind at 1. specialize (IH w1).
  destruct (mapM (weigh cards) l w1) as [xs w2]. cbn [fst] in IH.
  cbn. rewrite Hp, IH. reflexivity.
Qed.

Lemma draw_elem (weighted : list Weighted) :
  forall (rand : float) (p : Person),
    draw rand weighted = Some p -> p ∈ map Weighted.person weighted.
Proof.
  induction weighted as [|x rest IH]; intros rand p H; [discriminate|].
  cbn in H. destruct (_ <=? _)%float.
  - injection H as <-. left.
  - right. eapply IH, H.
Qed.

(** [selectNextPerson] returns a candidate when there is one, and the first
    person of the roster otherwise. *)
Lemma selectNextPerson_result (people : list Person)
    (cards : gmap jsstring LeitnerCard) (lastPersonId : option jsstring)
    (w : World) :
  (candidates_of people lastPersonId = [] ->
   (selectNextPerson people cards lastPersonId w).1 = people !! 0)
  /\ (candidates_of people lastPersonId <> [] ->
      exists p : Person,
        (selectNextPerson people cards lastPersonId w).1 = Some p
        /\ p ∈ candidates_of people lastPersonId).
Proof.
  unfold selectNextPerson. fold (candidates_of people lastPersonId).
  destruct (candidates_of people lastPersonId) as [|c cs] eqn:Ec.
  - split; [reflexivity | contradiction].
  - split; [discriminate|]. intros _. cbn [length Nat.eqb].
    unfold bind at 1.
    pose proof (mapM_weigh_persons cards (c :: cs) w) as Hm.
    destruct (mapM (weigh cards) (c :: cs) w) as [weighted w1].
    cbn [fst] in Hm. cbn [bind Math_random].
    destruct (draw _ weighted) as [person|] eqn:Ed.
    + exists person. split; [reflexivity|].
      apply draw_elem in Ed. rewrite Hm in Ed. exact Ed.
    + exists c. split; [reflexivity | left].
Qed.

Lemma selectNextPerson_some (people : list Person)
    (cards : gmap jsstring LeitnerCard) (lastPersonId : option jsstring)
    (w : World) :
  people <> [] ->
  exists p : Person,
    (selectNextPerson people cards lastPersonId w).1 = Some p /\ p ∈ people.
Proof.
  intros Hne.
  destruct (selectNextPerson_result people cards lastPersonId w) as [H0 H1].
  destruct (candidates_of people lastPersonId) as [|c cs] eqn:Ec.
  - destruct people as [|p people]; [contradiction|].
    exists p. split; [apply H0; reflexivity | left].
  - destruct H1 as (p & Hp & Hin); [discriminate|].
    exists p. split; [exact Hp|].
    unfold candidates_of in Ec. rewrite <- Ec in Hin.
    apply list_elem_of_filter in Hin as [_ Hin]. exact Hin.
Qed.

(** C4: from a roster of at least two people with distinct identifiers,
    [selectNextPerson] returns a person of the roster whose identifier is
    not the excluded one, whatever the cards, the clock and the random draw
    are; from a roster of exactly one person it returns that person, also
    when its identifier is the excluded one. *)
Theorem selectNextPerson_excludes (people : list Person)
    (cards : gmap jsstring LeitnerCard) (lastPersonId : option jsstring)
    (w : World) :
  (2 <= length people -> NoDup (map Person.id people) ->
   exists p : Person,
     (selectNextPerson people cards lastPersonId w).1 = Some p
     /\ p ∈ people
     /\ Some (Person.id p) <> lastPersonId)
  /\ (forall p : Person,
        people = [p] ->
        (selectNextPerson people cards lastPersonId w).1 = Some p).
Proof.
  destruct (selectNextPerson_result people cards lastPersonId w) as [H0 H1].
  split.
  - intros Hlen Hnd.
    destruct H1 as (p & Hp & Hin).
    + destruct people as [|a [|b rest]]; cbn in Hlen; try lia.
      intros Hc.
      assert (Some (Person.id a) = lastPersonId) as Ha.
      { destruct (decide (Some (Person.id a) = lastPersonId)) as [E|E];
          [exact E|].
        assert (a ∈ candidates_of (a :: b :: rest) lastPersonId) as Hin
          by (apply list_elem_of_filter; split; [exact E | left]).
        rewrite Hc in Hin. inversion Hin. }
      assert (Some (Person.id b) = lastPersonId) as Hb.
      { destruct (decide (Some (Person.id b) = lastPersonId)) as [E|E];
          [exact E|].
        assert (b ∈ candidates_of (a :: b :: rest) lastPersonId) as Hin
          by (apply list_elem_of_filter; split; [exact E | right; left]).
        rewrite Hc in Hin. inversion Hin. }
      rewrite <- Hb in Ha. injection Ha as Ha.
      cbn in Hnd. apply NoDup_cons in Hnd as [Hnd _].
      apply Hnd. rewrite Ha. left.
    + exists p. split; [exact Hp|].
      apply list_elem_of_filter in Hin as [Hne Hin]. auto.
  - intros p ->.
    destruct (candidates_of [p] lastPersonId) as [|c cs] eqn:Ec.
    + apply H0. reflexivity.
    + destruct H1 as (q & Hq & Hin); [discriminate|].
      rewrite Hq. f_equal.
      unfold candidates_of in Ec. rewrite <- Ec in Hin.
      apply list_elem_of_filter in Hin as [_ Hin].
      apply list_elem_of_singleton in Hin. exact Hin.
Qed.

Lemma selectNextPerson_excludes_witness :
  (exists p : Person,
     (selectNextPerson [person_a; person_b] ∅ (Some [97%N]) sample_world).1
     = Some p
     /\ p ∈ [person_a; person_b]
     /\ Some (Person.id p) <> Some [97%N])
  /\ (selectNextPerson [person_a] ∅ (Some [97%N]) sample_world).1
     = Some person_a.
Proof.
  split.
  - apply (selectNextPerson_excludes [person_a; person_b] ∅ (Some [97%N])
             sample_world).
    + cbn. lia.
    + apply (bool_decide_unpack _). vm_compute. exact I.
  - apply (selectNextPerson_excludes [person_a] ∅ (Some [97%N]) sample_world).
    reflexivity.
Defined.

(** ** The matching round *)

Lemma remove_first_with_id_length (p : Person) (remaining : list Person) :
  p ∈ remaining ->
  length (remove_first_with_id (Person.id p) remaining) = pred (length remaining).
Proof.
  intros Hin. unfold remove_first_with_id.
  destruct (list_find_elem_of (fun q => Person.id q = Person.id p) remaining p
              Hin eq_refl) as [[idx q] Hf].
  rewrite Hf. apply list_find_Some in Hf as (Hl & _).
  rewrite length_delete by eauto. lia.
Qed.

Lemma matching_loop_length (cards : gmap jsstring LeitnerCard) (left : nat) :
  forall (i : nat) (selected remaining : list Person) (w : World),
    exists selected' : list Person,
      (matching_loop left i cards selected remaining w).1 = Some selected'
      /\ length selected'
         = length selected + matching_turns left i (length remaining).
Proof.
  induction left as [|left IH]; intros i selected remaining w.
  - exists selected. split; [reflexivity | cbn; lia].
  - cbn [matching_loop matching_turns].
    destruct (i <? Nat.min 4 (length remaining)) eqn:E.
    + apply Nat.ltb_lt in E.
      assert (remaining <> []) as Hne
          by (intros ->; cbn in E; lia).
      destruct (selectNextPerson_some remaining cards
                  (Person.id <$> last selected) w Hne) as (p & Hp & Hin).
      unfold bind.
      destruct (selectNextPerson remaining cards _ w) as [r w1].
      cbn [fst] in Hp. subst r.
      destruct (IH (S i) (selected ++ [p])
                  (remove_first_with_id (Person.id p) remaining) w1)
        as (selected' & Hs & Hl).
      exists selected'. split; [exact Hs|].
      rewrite Hl, length_app, remove_first_with_id_length by assumption.
      cbn. lia.
    + exists selected. split; [reflexivity | lia].
Qed.

Lemma matching_turns_closed (n : nat) :
  matching_turns 4 0 n = Nat.min 4 ((n + 1) / 2).
Proof.
  do 8 (destruct n as [|n]; [reflexivity|]).
  assert (4 <= (S (S (S (S (S (S (S (S n))))))) + 1) / 2) as H
      by (apply Nat.div_le_lower_bound; lia).
  rewrite (Nat.min_l 4 _ H). reflexivity.
Qed.

(** C5 fails on the code: the loop test [i < Math.min(4, remaining.length)]
    is evaluated again at every turn, against a list that has lost one
    person per turn, so from [n] people the round has
    [min(4, ceil(n / 2))] pairs, for every roster, card mapping, clock and
    random draws: one pair from two people, two from four. *)
Theorem generateMatchingRound_pairs_count (people : list Person)
    (cards : gmap jsstring LeitnerCard) (w : World) :
  exists round : MatchingRound,
    (generateMatchingRound people cards w).1 = Some round
    /\ length (MatchingRound.pairs round)
       = Nat.min 4 ((length people + 1) / 2).
Proof.
  unfold generateMatchingRound. cbn [bind Math_random].
  unfold bind.
  destruct (matching_loop_length cards 4 0 [] people
              (mkWorld (fun k => random w (S k)) (clock w)))
    as (selected & Hs & Hl).
  destruct (matching_loop 4 0 cards [] people _) as [r w1].
  cbn [fst] in Hs. subst r. eexists. split; [reflexivity|].
  cbn [MatchingRound.pairs]. rewrite length_map, Hl, matching_turns_closed.
  reflexivity.
Qed.

(** Two people give a round of one pair, not of two. *)
Example generateMatchingRound_two_people :
  option_map (fun r => length (MatchingRound.pairs r))
    (generateMatchingRound [person_a; person_b] ∅ sample_world).1
  = Some 1.
Proof. vm_compute. reflexivity. Qed.

(** ** Equality utilities *)

Lemma str_ltb_irrefl (a : jsstring) : str_ltb a a = false.
Proof.
  induction a as [|x a IH]; [reflexivity|]. cbn.
  rewrite N.ltb_irrefl. exact IH.
Qed.

Lemma str_ltb_asym (a : jsstring) :
  forall b : jsstring, str_ltb a b = true -> str_ltb b a = false.
Proof.
  induction a as [|x a IH]; intros [|y b] H; cbn in *; try congruence.
  destruct (N.ltb_spec x y), (N.ltb_spec y x); try lia; try congruence.
  apply IH, H.
Qed.

Lemma str_ltb_antisym (a : jsstring) :
  forall b : jsstring, str_ltb a b = false -> str_ltb b a = false -> a = b.
Proof.
  induction a as [|x a IH]; intros [|y b] H1 H2; cbn in *; try congruence.
  destruct (N.ltb_spec x y), (N.ltb_spec y x); try lia; try congruence.
  assert (x = y) as -> by lia. f_equal. apply IH; assumption.
Qed.

Lemma str_ltb_trans_false (a : jsstring) :
  forall b c : jsstring,
    str_ltb b a = false -> str_ltb c b = false -> str_ltb c a = false.
Proof.
  induction a as [|x a IH]; intros [|y b] [|z c] H1 H2; cbn in *;
    try congruence.
  destruct (N.ltb_spec y x), (N.ltb_spec x y), (N.ltb_spec z y),
    (N.ltb_spec y z), (N.ltb_spec z x), (N.ltb_spec x z);
    try lia; try congruence.
  eapply IH; eassumption.
Qed.

#[export] Instance str_le_total : Total str_le.
Proof.
  intros a b. unfold str_le.
  destruct (str_ltb a b) eqn:E; [left | right; reflexivity].
  apply str_ltb_asym, E.
Qed.

#[export] Instance str_le_trans : Transitive str_le.
Proof. intros a b c H1 H2. unfold str_le in *. eapply str_ltb_trans_false; eassumption. Qed.

#[export] Instance str_le_antisym : AntiSymm (=) str_le.
Proof. intros a b H1 H2. unfold str_le in *. apply str_ltb_antisym; assumption. Qed.

Lemma sort_strings_Permutation (a : list jsstring) : sort_strings a ≡ₚ a.
Proof. apply merge_sort_Permutation. Qed.

Lemma sort_strings_Sorted (a : list jsstring) : Sorted str_le (sort_strings a).
Proof. apply Sorted_merge_sort, _. Qed.

(** Sorting depends on the elements only, not on their arrangement. *)
Lemma sort_strings_perm (a b : list jsstring) :
  a ≡ₚ b -> sort_strings a = sort_strings b.
Proof.
  intros H. apply (Sorted_unique str_le); try apply sort_strings_Sorted.
  rewrite !sort_strings_Permutation. exact H.
Qed.

Lemma every_same_at_spec (xs : list jsstring) :
  forall (pre other : list jsstring),
    length xs = length other ->
    every_same_at (length pre) xs (pre ++ other) = true <-> xs = other.
Proof.
  induction xs as [|x xs IH]; intros pre [|y other] Hlen; cbn in Hlen;
    try discriminate.
  - cbn. tauto.
  - cbn [every_same_at]. rewrite andb_true_iff, bool_decide_eq_true.
    rewrite lookup_app_r, Nat.sub_diag by lia. cbn [lookup list_lookup].
    specialize (IH (pre ++ [y]) other).
    rewrite length_app, <- app_assoc in IH. cbn in IH.
    replace (length pre + 1) with (S (length pre)) in IH by lia.
    rewrite IH by lia. split.
    + intros [[= ->] ->]. reflexivity.
    + intros [= -> ->]. auto.
Qed.

Lemma compareArraysUnordered_sorted (a b : list jsstring) :
  compareArraysUnordered a b = true
  <-> length a = length b /\ sort_strings a = sort_strings b.
Proof.
  unfold compareArraysUnordered.
  destruct (Nat.eqb_spec (length a) (length b)) as [E|E]; cbn [negb].
  - rewrite (every_same_at_spec (sort_strings a) [] (sort_strings b)).
    + tauto.
    + rewrite !sort_strings_Permutation. exact E.
  - split; [discriminate | tauto].
Qed.

Lemma compareArraysUnordered_perm (a b : list jsstring) :
  compareArraysUnordered a b = true <-> a ≡ₚ b.
Proof.
  rewrite compareArraysUnordered_sorted. split.
  - intros [_ H]. rewrite <- (sort_strings_Permutation a), H.
    apply sort_strings_Permutation.
  - intros H. split; [apply Permutation_length, H | apply sort_strings_perm, H].
Qed.

(** X1: [compareArraysUnordered] holds exactly when the two arrays are
    rearrangements of each other: same elements with the same
    multiplicities. *)
Theorem compareArraysUnordered_Permutation (a b : list jsstring) :
  compareArraysUnordered a b = true <-> a ≡ₚ b.
Proof. exact (compareArraysUnordered_perm a b). Qed.

(** X2: [compareArraysUnordered] is symmetric, accepts an array against
    itself, and rejects arrays of different lengths. *)
Theorem compareArraysUnordered_sym (a b : list jsstring) :
  compareArraysUnordered a b = compareArraysUnordered b a
  /\ compareArraysUnordered a a = true
  /\ (length a <> length b -> compareArraysUnordered a b = false).
Proof.
  split; [|split].
  - apply eq_true_iff_eq. rewrite !compareArraysUnordered_perm.
    split; intros H; symmetry; exact H.
  - apply compareArraysUnordered_perm. reflexivity.
  - intros H. apply not_true_is_false. intros E.
    apply compareArraysUnordered_perm, Permutation_length in E.
    contradiction.
Qed.

Lemma compareArraysUnordered_sym_witness :
  compareArraysUnordered [[97%N]] [[97%N]; [98%N]] = false.
Proof.
  apply (compareArraysUnordered_sym [[97%N]] [[97%N]; [98%N]]).
  cbn. lia.
Defined.

Lemma split_ws_from_false_true (s : jsstring) :
  split_ws_from false s = split_ws_from true s
  \/ split_ws_from false s = [] :: split_ws_from true s.
Proof.
  destruct s as [|c s]; [left; reflexivity|]. cbn.
  destruct (is_ws c); [right | left]; reflexivity.
Qed.

Lemma split_ws_from_nonnil (prev_ws : bool) (s : jsstring) :
  split_ws_from prev_ws s <> [].
Proof.
  revert prev_ws. induction s as [|c s IH]; intros prev_ws; cbn; [discriminate|].
  destruct (is_ws c).
  - destruct prev_ws; [apply IH | discriminate].
  - destruct (split_ws_from false s); discriminate.
Qed.

Lemma join_cons (sep x : jsstring) (xs : list jsstring) :
  xs <> [] -> join sep (x :: xs) = x ++ sep ++ join sep xs.
Proof. destruct xs; [contradiction | reflexivity]. Qed.

(** Replacing the runs of whitespace by one space is splitting on them and
    joining the pieces with a space. *)
Lemma replace_ws_runs_from_join (s : jsstring) :
  forall prev_ws : bool,
    replace_ws_runs_from prev_ws s = join [32%N] (split_ws_from prev_ws s).
Proof.
  induction s as [|c s IH]; intros prev_ws; [reflexivity|].
  cbn [replace_ws_runs_from split_ws_from]. destruct (is_ws c).
  - destruct prev_ws; [apply IH|].
    rewrite join_cons by apply split_ws_from_nonnil.
    rewrite IH. reflexivity.
  - rewrite IH. destruct (split_ws_from false s) as [|p [|q r]]; reflexivity.
Qed.

Lemma trimStart_prefix (s : jsstring) :
  exists pre : jsstring,
    s = pre ++ trimStart s /\ Forall (fun c => is_ws c = true) pre.
Proof.
  induction s as [|c s (pre & IH & Hpre)].
  - exists []. split; [reflexivity | constructor].
  - cbn. destruct (is_ws c) eqn:E.
    + exists (c :: pre). split; [cbn; f_equal; exact IH | constructor; assumption].
    + exists []. split; [reflexivity | constructor].
Qed.

(** A trimmed string is empty, or starts and ends with code units that are
    no whitespace. *)
Lemma trim_shape (s : jsstring) :
  trim s = []
  \/ exists (h c : N) (t t0 : jsstring),
       trim s = h :: t /\ is_ws h = false
       /\ trim s = t0 ++ [c] /\ is_ws c = false.
Proof.
  unfold trim, trimEnd.
  destruct (trimStart (rev (trimStart s))) as [|c x] eqn:Ex; [left; reflexivity|].
  right. pose proof (trimStart_head _ _ _ Ex) as Hc.
  destruct (trimStart_prefix (rev (trimStart s))) as (pre & Hrev & _).
  rewrite Ex in Hrev. apply (f_equal (@rev N)) in Hrev.
  rewrite rev_involutive, rev_app_distr in Hrev.
  destruct (rev (c :: x)) as [|h t] eqn:Et.
  - apply (f_equal (@length N)) in Et. rewrite length_rev in Et. discriminate.
  - exists h, c, t, (rev x). cbn [app] in Hrev.
    repeat split.
    + eapply trimStart_head, Hrev.
    + rewrite <- Et. reflexivity.
    + exact Hc.
Qed.

Lemma split_ws_from_true_pieces (s : jsstring) :
  (exists (s0 : jsstring) (c : N), s = s0 ++ [c] /\ is_ws c = false) ->
  Forall (fun t : jsstring => 0 < length t) (split_ws_from true s).
Proof.
  induction s as [|d s IH]; intros (s0 & c & Hs & Hc).
  - destruct s0; discriminate.
  - destruct s0 as [|d0 s0]; cbn in Hs; injection Hs as -> ->.
    + cbn. rewrite Hc. repeat constructor.
    + assert (Forall (fun t : jsstring => 0 < length t)
                (split_ws_from true (s0 ++ [c]))) as H
          by (apply IH; eauto).
      cbn [split_ws_from]. destruct (is_ws d0); [exact H|].
      destruct (split_ws_from_false_true (s0 ++ [c])) as [E|E]; rewrite E.
      * destruct (split_ws_from true (s0 ++ [c])) as [|p r].
        -- repeat constructor.
        -- apply Forall_cons in H as [_ H]. constructor; [cbn; lia | exact H].
      * constructor; [cbn; lia | exact H].
Qed.

Lemma words_from_ws_prefix (pre s : jsstring) :
  Forall (fun c => is_ws c = true) pre ->
  words_from [] (pre ++ s) = words_from [] s.
Proof.
  induction 1 as [|c pre Hc _ IH]; [reflexivity|].
  cbn. rewrite Hc. exact IH.
Qed.

Lemma words_from_ws_suffix (post : jsstring) :
  Forall (fun c => is_ws c = true) post ->
  forall t cur : jsstring, words_from cur (t ++ post) = words_from cur t.
Proof.
  intros Hpost.
  assert (forall cur, words_from cur post = words_from cur []) as Hbase.
  { induction Hpost as [|c post Hc _ IH]; intros cur; [reflexivity|].
    cbn. rewrite Hc, (IH []). destruct cur; reflexivity. }
  induction t as [|d t IH]; intros cur; [apply Hbase|].
  cbn. destruct (is_ws d); [|apply IH].
  rewrite (IH []). reflexivity.
Qed.

(** Trimming keeps the words. *)
Lemma words_trim (s : jsstring) : words (trim s) = words s.
Proof.
  unfold words, trim, trimEnd.
  destruct (trimStart_prefix s) as (pre & Hs & Hpre).
  rewrite Hs at 2. rewrite words_from_ws_prefix by exact Hpre.
  destruct (trimStart_prefix (rev (trimStart s))) as (post & Hr & Hpost).
  apply (f_equal (@rev N)) in Hr.
  rewrite rev_involutive, rev_app_distr in Hr.
  rewrite Hr at 2. symmetry. apply words_from_ws_suffix.
  apply Forall_forall. intros c Hin. apply list_elem_of_In, in_rev in Hin.
  rewrite Forall_forall in Hpost. apply Hpost, list_elem_of_In, Hin.
Qed.

Lemma filter_all (l : list jsstring) :
  Forall (fun t : jsstring => 0 < length t) l ->
  filter (fun t : jsstring => 0 < length t) l = l.
Proof.
  induction 1 as [|p r Hp _ IH]; [reflexivity|].
  rewrite filter_cons_True by exact Hp. f_equal. exact IH.
Qed.

(** The normal form that [compareNames] compares: the words of the string,
    one space between them. *)
Lemma normalize_name_words (s : jsstring) :
  normalize_name s = join [32%N] (words s).
Proof.
  unfold normalize_name, replace_ws_runs.
  rewrite replace_ws_runs_from_join, <- words_trim, <- tokens_words.
  unfold tokens, split_ws.
  destruct (trim_shape s) as [E | (h & c & t & t0 & Eh & Hh & Ec & Hc)].
  - rewrite E. reflexivity.
  - assert (split_ws_from false (trim s) = split_ws_from true (trim s)) as Eft
        by (rewrite Eh; cbn; rewrite Hh; reflexivity).
    rewrite Eft, filter_all; [reflexivity|].
    apply split_ws_from_true_pieces; eauto.
Qed.

Lemma words_from_word (x : jsstring) :
  (forall c : N, c ∈ x -> is_ws c = false) ->
  forall cur s : jsstring,
    words_from cur (x ++ s) = words_from (rev x ++ cur) s.
Proof.
  induction x as [|d x IH]; intros Hx cur s; [reflexivity|].
  cbn. rewrite (Hx d) by left.
  rewrite IH by (intros c Hc; apply Hx; right; exact Hc).
  rewrite <- app_assoc. reflexivity.
Qed.

(** Joining clean words with a space and splitting again gives them back. *)
Lemma words_join (W : list jsstring) :
  (forall x : jsstring,
     x ∈ W -> x <> [] /\ forall c : N, c ∈ x -> is_ws c = false) ->
  words (join [32%N] W) = W.
Proof.
  unfold words. induction W as [|x W IH]; intros HW; [reflexivity|].
  destruct (HW x) as [Hne Hx]; [left|].
  assert (rev x <> []) as Hrev.
  { intros E. apply Hne. apply (f_equal (@rev N)) in E.
    rewrite rev_involutive in E. exact E. }
  destruct W as [|y W].
  - cbn [join].
    replace (words_from [] x) with (words_from [] (x ++ []))
      by (rewrite app_nil_r; reflexivity).
    rewrite words_from_word by exact Hx.
    rewrite app_nil_r. cbn. destruct (rev x) eqn:E; [contradiction|].
    rewrite <- E, rev_involutive. reflexivity.
  - rewrite join_cons by discriminate.
    rewrite words_from_word by exact Hx. rewrite app_nil_r.
    cbn [app words_from]. change (is_ws 32) with true. cbn match.
    destruct (rev x) eqn:E; [contradiction|].
    rewrite <- E, rev_involutive. f_equal.
    apply IH. intros z Hz. apply HW. right. exact Hz.
Qed.

Lemma words_clean (s x : jsstring) :
  x ∈ words s -> x <> [] /\ forall c : N, c ∈ x -> is_ws c = false.
Proof. rewrite <- tokens_words. apply tokens_clean. Qed.

Lemma compareNames_same_words (userInput correct : jsstring) :
  compareNames userInput correct = true <-> words userInput = words correct.
Proof.
  unfold compareNames. rewrite bool_decide_eq_true, !normalize_name_words.
  split.
  - intros H. apply (f_equal words) in H.
    rewrite !words_join in H by apply words_clean. exact H.
  - intros ->. reflexivity.
Qed.

(** X3: [compareNames] holds exactly when the two strings have the same
    words in the same order; how much whitespace separates the words, or
    surrounds the string, does not count. *)
Theorem compareNames_words (userInput correct : jsstring) :
  compareNames userInput correct = true <-> words userInput = words correct.
Proof. exact (compareNames_same_words userInput correct). Qed.

(** ** Answer checking *)

Lemma tokens_trim_words (s : jsstring) : tokens (trim s) = words s.
Proof. rewrite tokens_words. apply words_trim. Qed.

Lemma checkFreeRecall_cases (person : Person)
    (parentsAnswer siblingsAnswer : jsstring) :
  let r := checkFreeRecall person parentsAnswer siblingsAnswer in
  (FreeRecallResult.parentsCorrect r = true
   <-> words parentsAnswer ≡ₚ Person.parents person)
  /\ (Person.siblings person <> [] ->
      (FreeRecallResult.siblingsCorrect r = true
       <-> words siblingsAnswer ≡ₚ Person.siblings person))
  /\ (Person.siblings person = [] ->
      (FreeRecallResult.siblingsCorrect r = true
       <-> trim siblingsAnswer = [] \/ trim siblingsAnswer = lit_none
           \/ trim siblingsAnswer = no_siblings))
  /\ (FreeRecallResult.allCorrect r = true
      <-> FreeRecallResult.parentsCorrect r = true
          /\ FreeRecallResult.siblingsCorrect r = true).
Proof.
  cbv zeta. unfold checkFreeRecall. cbn [FreeRecallResult.parentsCorrect
    FreeRecallResult.siblingsCorrect FreeRecallResult.allCorrect].
  rewrite !tokens_trim_words. split; [|split; [|split]].
  - apply compareArraysUnordered_perm.
  - intros Hne. destruct (Person.siblings person) as [|s ss] eqn:E;
      [contradiction|]. cbn [length Nat.eqb].
    apply compareArraysUnordered_perm.
  - intros ->. cbn [length Nat.eqb].
    rewrite !orb_true_iff, !bool_decide_eq_true. tauto.
  - apply andb_true_iff.
Qed.

(** X4: what [checkFreeRecall] accepts. The parents answer is correct
    exactly when its words are a rearrangement of the person's parents; so
    is the siblings answer when the person has siblings; when the person
    has none, the siblings answer is correct exactly when, trimmed, it is
    empty or one of the two literals for no siblings. The whole answer is
    correct exactly when both parts are. *)
Theorem checkFreeRecall_spec (person : Person)
    (parentsAnswer siblingsAnswer : jsstring) :
  let r := checkFreeRecall person parentsAnswer siblingsAnswer in
  (FreeRecallResult.parentsCorrect r = true
   <-> words parentsAnswer ≡ₚ Person.parents person)
  /\ (Person.siblings person <> [] ->
      (FreeRecallResult.siblingsCorrect r = true
       <-> words siblingsAnswer ≡ₚ Person.siblings person))
  /\ (Person.siblings person = [] ->
      (FreeRecallResult.siblingsCorrect r = true
       <-> trim siblingsAnswer = [] \/ trim siblingsAnswer = lit_none
           \/ trim siblingsAnswer = no_siblings))
  /\ (FreeRecallResult.allCorrect r = true
      <-> FreeRecallResult.parentsCorrect r = true
          /\ FreeRecallResult.siblingsCorrect r = true).
Proof. exact (checkFreeRecall_cases person parentsAnswer siblingsAnswer). Qed.

Lemma checkFreeRecall_spec_witness :
  FreeRecallResult.siblingsCorrect
    (checkFreeRecall
       (Person.mk [97%N] (lit "זיו") [lit "רותם"; lit "טל"] [])
       (lit "טל  רותם ") []) = true.
Proof.
  destruct (checkFreeRecall_spec
              (Person.mk [97%N] (lit "זיו") [lit "רותם"; lit "טל"] [])
              (lit "טל  רותם ") []) as (_ & _ & H0 & _).
  apply H0.
  - reflexivity.
  - left. reflexivity.
Defined.

(** X5: the correct answers that [checkFreeRecall] reports, typed back as
    the answers, are accepted, for a person whose parents and siblings are
    non-empty tokens without whitespace (as the parser makes them). *)
Theorem checkFreeRecall_canonical (person : Person) (a b : jsstring) :
  (forall x : jsstring,
     x ∈ Person.parents person \/ x ∈ Person.siblings person ->
     x <> [] /\ forall c : N, c ∈ x -> is_ws c = false) ->
  let shown := checkFreeRecall person a b in
  FreeRecallResult.allCorrect
    (checkFreeRecall person (FreeRecallResult.correctParents shown)
       (FreeRecallResult.correctSiblings shown)) = true.
Proof.
  intros Hclean. cbv zeta.
  destruct (checkFreeRecall_cases person
              (FreeRecallResult.correctParents (checkFreeRecall person a b))
              (FreeRecallResult.correctSiblings (checkFreeRecall person a b)))
    as (Hp & Hs1 & Hs0 & Hall).
  apply Hall. split.
  - apply Hp. cbn [checkFreeRecall FreeRecallResult.correctParents].
    rewrite words_join by (intros x Hx; apply Hclean; left; exact Hx).
    reflexivity.
  - destruct (Person.siblings person) as [|s ss] eqn:E.
    + apply Hs0; [reflexivity|].
      cbn [checkFreeRecall FreeRecallResult.correctSiblings].
      rewrite E. cbn [length Nat.ltb Nat.leb]. right. right.
      vm_compute. reflexivity.
    + apply Hs1; [discriminate|].
      cbn [checkFreeRecall FreeRecallResult.correctSiblings].
      rewrite E. cbn [length Nat.ltb Nat.leb].
      rewrite words_join; [reflexivity|].
      intros x Hx. apply Hclean. right. exact Hx.
Qed.

Lemma checkFreeRecall_canonical_witness :
  FreeRecallResult.allCorrect
    (checkFreeRecall person_b
       (FreeRecallResult.correctParents (checkFreeRecall person_b [] []))
       (FreeRecallResult.correctSiblings (checkFreeRecall person_b [] [])))
  = true.
Proof.
  apply (checkFreeRecall_canonical person_b [] []).
  intros x Hx. apply (words_clean (lit "רוני רן בן")).
  vm_compute in Hx |- *.
  destruct Hx as [Hx|Hx].
  - apply elem_of_cons in Hx as [->|Hx]; [left|].
    apply elem_of_cons in Hx as [->|Hx]; [right; left | inversion Hx].
  - apply elem_of_cons in Hx as [->|Hx]; [right; right; left | inversion Hx].
Defined.

(** ** The matching round, continued *)

Lemma map_fmap {A B} (f : A -> B) (l : list A) : map f l = f <$> l.
Proof. reflexivity. Qed.

Lemma remove_first_with_id_spec (p : Person) (remaining : list Person) :
  p ∈ remaining ->
  NoDup (map Person.id remaining) ->
  NoDup (map Person.id (remove_first_with_id (Person.id p) remaining))
  /\ (Person.id p ∉ map Person.id (remove_first_with_id (Person.id p) remaining))
  /\ forall q : Person,
       q ∈ remove_first_with_id (Person.id p) remaining -> q ∈ remaining.
Proof.
  intros Hin Hnd. unfold remove_first_with_id.
  destruct (list_find_elem_of (fun q => Person.id q = Person.id p) remaining p
              Hin eq_refl) as [[idx q] Hf].
  rewrite Hf. apply list_find_Some in Hf as (Hl & Hq & _).
  rewrite !map_fmap in *. rewrite list_fmap_delete.
  pose proof (take_drop_middle _ _ _ Hl) as Hmid.
  rewrite <- Hmid in Hnd. rewrite fmap_app, fmap_cons in Hnd.
  apply NoDup_app in Hnd as (Hn1 & Hn2 & Hn3).
  apply NoDup_cons in Hn3 as (Hn3 & Hn4).
  assert (delete idx (Person.id <$> remaining)
          = (Person.id <$> take idx remaining)
            ++ (Person.id <$> drop (S idx) remaining)) as Hdel.
  { rewrite delete_take_drop, fmap_take, fmap_drop. reflexivity. }
  rewrite Hdel. split; [|split].
  - apply NoDup_app. split; [exact Hn1|]. split; [|exact Hn4].
    intros x Hx Hx'. apply (Hn2 x Hx). right. exact Hx'.
  - rewrite <- Hq. intros H. apply elem_of_app in H as [H|H].
    + apply (Hn2 _ H). left.
    + apply Hn3, H.
  - intros r Hr. eapply list_elem_of_delete_inv, Hr.
Qed.

(** The people the selection loop adds are distinct people of
    [remaining]. *)
Lemma matching_loop_picks (cards : gmap jsstring LeitnerCard) (left : nat) :
  forall (i : nat) (selected remaining : list Person) (w : World),
    NoDup (map Person.id remaining) ->
    exists picks : list Person,
      (matching_loop left i cards selected remaining w).1
      = Some (selected ++ picks)
      /\ NoDup (map Person.id picks)
      /\ forall p : Person, p ∈ picks -> p ∈ remaining.
Proof.
  induction left as [|left IH]; intros i selected remaining w Hnd.
  - exists []. rewrite app_nil_r. repeat split; [constructor | intros p Hp; inversion Hp].
  - cbn [matching_loop].
    destruct (i <? Nat.min 4 (length remaining)) eqn:E.
    + apply Nat.ltb_lt in E.
      assert (remaining <> []) as Hne by (intros ->; cbn in E; lia).
      destruct (selectNextPerson_some remaining cards
                  (Person.id <$> last selected) w Hne) as (p & Hp & Hin).
      unfold bind.
      destruct (selectNextPerson remaining cards _ w) as [r w1].
      cbn [fst] in Hp. subst r.
      destruct (remove_first_with_id_spec p remaining Hin Hnd)
        as (Hnd' & Hnotin & Hsub).
      destruct (IH (S i) (selected ++ [p])
                  (remove_first_with_id (Person.id p) remaining) w1 Hnd')
        as (picks & Hs & Hndp & Hpicks).
      exists (p :: picks). split; [|split].
      * rewrite Hs, <- app_assoc. reflexivity.
      * cbn [map]. apply NoDup_cons. split; [|exact Hndp].
        intros H. apply Hnotin. rewrite map_fmap in *.
        apply list_elem_of_fmap in H as (q & Hq & Hqin).
        apply list_elem_of_fmap. exists q. split; [exact Hq|].
        apply Hpicks, Hqin.
      * intros q Hq. apply elem_of_cons in Hq as [->|Hq]; [exact Hin|].
        apply Hsub, Hpicks, Hq.
    + exists []. rewrite app_nil_r.
      repeat split; [constructor | intros p Hp; inversion Hp].
Qed.

Lemma generateMatchingRound_selected (people : list Person)
    (cards : gmap jsstring LeitnerCard) (w : World) :
  NoDup (map Person.id people) ->
  exists (round : MatchingRound) (selected : list Person) (askParents : bool),
    (generateMatchingRound people cards w).1 = Some round
    /\ MatchingRound.relation round
       = (if askParents then rel_parents else rel_siblings)
    /\ MatchingRound.pairs round = map (pair_of askParents) selected
    /\ (forall p : Person, p ∈ selected -> p ∈ people)
    /\ NoDup (map Pair.personId (MatchingRound.pairs round)).
Proof.
  intros Hnd. unfold generateMatchingRound. cbn [bind Math_random].
  unfold bind.
  destruct (matching_loop_picks cards 4 0 [] people
              (mkWorld (fun k => random w (S k)) (clock w)) Hnd)
    as (picks & Hs & Hndp & Hin).
  destruct (matching_loop 4 0 cards [] people _) as [r w1].
  cbn [fst app] in Hs. subst r.
  eexists. exists picks, (0.5 <? random w 0)%float.
  split; [reflexivity|].
  cbn [MatchingRound.pairs MatchingRound.relation].
  split; [reflexivity|]. split; [reflexivity|]. split; [exact Hin|].
  rewrite map_map. cbn [pair_of Pair.personId]. exact Hndp.
Qed.

(** X7: from a roster with distinct identifiers, every pair of a matching
    round is the pair of a person of the roster (identifier, name, and the
    relation's values joined with a comma and a space, or the literal for
    no siblings), the pairs are about pairwise different people, and the
    relation is parents or siblings. *)
Theorem generateMatchingRound_pairs (people : list Person)
    (cards : gmap jsstring LeitnerCard) (w : World) :
  NoDup (map Person.id people) ->
  exists (round : MatchingRound) (selected : list Person) (askParents : bool),
    (generateMatchingRound people cards w).1 = Some round
    /\ MatchingRound.relation round
       = (if askParents then rel_parents else rel_siblings)
    /\ MatchingRound.pairs round = map (pair_of askParents) selected
    /\ (forall p : Person, p ∈ selected -> p ∈ people)
    /\ NoDup (map Pair.personId (MatchingRound.pairs round)).
Proof. exact (generateMatchingRound_selected people cards w). Qed.

Lemma generateMatchingRound_pairs_witness :
  exists (round : MatchingRound) (selected : list Person) (askParents : bool),
    (generateMatchingRound [person_a; person_b] ∅ sample_world).1 = Some round
    /\ MatchingRound.relation round
       = (if askParents then rel_parents else rel_siblings)
    /\ MatchingRound.pairs round = map (pair_of askParents) selected
    /\ (forall p : Person, p ∈ selected -> p ∈ [person_a; person_b])
    /\ NoDup (map Pair.personId (MatchingRound.pairs round)).
Proof.
  apply (generateMatchingRound_pairs [person_a; person_b] ∅ sample_world).
  apply (bool_decide_unpack _). vm_compute. exact I.
Defined.

Lemma find_by_id (people : list Person) (p : Person) :
  NoDup (map Person.id people) ->
  p ∈ people ->
  exists idx : nat,
    list_find (fun q => Person.id q = Person.id p) people = Some (idx, p).
Proof.
  intros Hnd Hin.
  destruct (list_find_elem_of (fun q => Person.id q = Person.id p) people p
              Hin eq_refl) as [[idx q] Hf].
  exists idx. rewrite Hf. f_equal. f_equal.
  apply list_find_Some in Hf as (Hl & Hq & _).
  apply list_elem_of_lookup in Hin as [j Hj].
  rewrite map_fmap in Hnd.
  assert (idx = j) as ->.
  { apply (NoDup_lookup _ idx j (Person.id p) Hnd).
    - rewrite list_lookup_fmap, Hl. cbn. rewrite Hq. reflexivity.
    - rewrite list_lookup_fmap, Hj. reflexivity. }
  congruence.
Qed.

(** X8: from a roster with distinct identifiers, [checkMatchingPair]
    accepts, for each pair of a generated round and the round's relation,
    the pair's own answer and no other string; and it rejects every answer
    for an identifier that no person of the roster has. *)
Theorem checkMatchingPair_round (people : list Person)
    (cards : gmap jsstring LeitnerCard) (w : World) (round : MatchingRound) :
  NoDup (map Person.id people) ->
  (generateMatchingRound people cards w).1 = Some round ->
  (forall (pair : Pair) (answer : jsstring),
     pair ∈ MatchingRound.pairs round ->
     (checkMatchingPair (Pair.personId pair) answer people
        (MatchingRound.relation round) = true
      <-> answer = Pair.answer pair))
  /\ (forall (personId answer : jsstring) (relation : RelationType),
        personId ∉ map Person.id people ->
        checkMatchingPair personId answer people relation = false).
Proof.
  intros Hnd Hround. split.
  - intros pair answer Hpair.
    destruct (generateMatchingRound_selected people cards w Hnd)
      as (round' & selected & askParents & Hr & Hrel & Hpairs & Hsel & _).
    rewrite Hround in Hr. injection Hr as <-.
    rewrite Hpairs in Hpair. rewrite map_fmap in Hpair.
    apply list_elem_of_fmap in Hpair as (p & -> & Hp).
    destruct (find_by_id people p Hnd (Hsel p Hp)) as [idx Hf].
    unfold checkMatchingPair. cbn [pair_of Pair.personId Pair.answer].
    rewrite Hf, Hrel, bool_decide_eq_true.
    destruct askParents; reflexivity.
  - intros personId answer relation Hnot. unfold checkMatchingPair.
    destruct (list_find _ people) as [[idx q]|] eqn:Hf; [|reflexivity].
    apply list_find_Some in Hf as (Hl & Hq & _).
    exfalso. apply Hnot. rewrite map_fmap. apply list_elem_of_fmap.
    exists q. split; [symmetry; exact Hq|].
    eapply list_elem_of_lookup_2, Hl.
Qed.

Lemma checkMatchingPair_round_witness :
  exists round : MatchingRound,
    (generateMatchingRound [person_a; person_b] ∅ sample_world).1 = Some round
    /\ (forall (pair : Pair) (answer : jsstring),
          pair ∈ MatchingRound.pairs round ->
          (checkMatchingPair (Pair.personId pair) answer [person_a; person_b]
             (MatchingRound.relation round) = true
           <-> answer = Pair.answer pair))
    /\ (forall (personId answer : jsstring) (relation : RelationType),
          personId ∉ map Person.id [person_a; person_b] ->
          checkMatchingPair personId answer [person_a; person_b] relation
          = false).
Proof.
  destruct (generateMatchingRound [person_a; person_b] ∅ sample_world).1
    as [round|] eqn:E; [|vm_compute in E; discriminate].
  exists round. split; [reflexivity|].
  apply (checkMatchingPair_round [person_a; person_b] ∅ sample_world round).
  - apply (bool_decide_unpack _). vm_compute. exact I.
  - exact E.
Defined.

(** ** Card bookkeeping *)

Lemma absent_spec {T} (record : gmap jsstring T) (key : jsstring) :
  absent record key = true <-> record !! key = None /\ plain_key key.
Proof.
  unfold absent, plain_key. destruct (record !! key).
  - split; [discriminate | intros [H _]; discriminate].
  - rewrite negb_true_iff, bool_decide_eq_false. tauto.
Qed.

Lemma initLeitnerCards_at (people : list Person)
    (existing : gmap jsstring LeitnerCard) (pid : jsstring) :
  initLeitnerCards people existing !! pid
  = match existing !! pid with
    | Some c => Some c
    | None =>
        if decide (pid ∈ map Person.id people /\ plain_key pid)
        then Some (LeitnerCard.mk pid 0 0 0)
        else None
    end.
Proof.
  unfold initLeitnerCards. revert existing.
  induction people as [|p people IH]; intros existing.
  - cbn. destruct (existing !! pid); [reflexivity|].
    rewrite decide_False; [reflexivity|]. intros [H _]. inversion H.
  - cbn [fold_left map]. rewrite IH.
    destruct (absent existing (Person.id p)) eqn:Ea.
    + apply absent_spec in Ea as [Enone Hplain].
      destruct (decide (Person.id p = pid)) as [<-|Hne].
      * rewrite lookup_insert_eq, Enone.
        rewrite decide_True by (split; [left | exact Hplain]). reflexivity.
      * rewrite lookup_insert_ne by exact Hne.
        destruct (existing !! pid); [reflexivity|].
        destruct (decide (pid ∈ map Person.id people /\ plain_key pid))
          as [[Hin Hp]|Hnot].
        -- rewrite decide_True by (split; [right; exact Hin | exact Hp]).
           reflexivity.
        -- rewrite decide_False; [reflexivity|].
           intros [Hin Hp]. apply Hnot. split; [|exact Hp].
           apply elem_of_cons in Hin as [Hin|Hin]; [congruence | exact Hin].
    + destruct (existing !! pid) as [c|] eqn:Epid; [reflexivity|].
      destruct (decide (pid ∈ map Person.id people /\ plain_key pid))
        as [[Hin Hp]|Hnot].
      * rewrite decide_True by (split; [right; exact Hin | exact Hp]).
        reflexivity.
      * destruct (decide (pid ∈ Person.id p :: map Person.id people
                          /\ plain_key pid)) as [[Hin Hp]|_]; [|reflexivity].
        exfalso. apply elem_of_cons in Hin as [->|Hin].
        -- assert (absent existing (Person.id p) = true) as Habs
             by (apply absent_spec; split; assumption).
           congruence.
        -- apply Hnot. split; assumption.
Qed.

(** X9: [initLeitnerCards] keeps every existing card as it is, gives a
    fresh card (box 0, never seen, no streak) to every person of the roster
    that has none and whose identifier names no property of
    [Object.prototype], and adds nothing else: a person without a card
    whose identifier is [constructor], say, stays without one. *)
Theorem initLeitnerCards_lookup (people : list Person)
    (existing : gmap jsstring LeitnerCard) (pid : jsstring) :
  initLeitnerCards people existing !! pid
  = match existing !! pid with
    | Some c => Some c
    | None =>
        if decide (pid ∈ map Person.id people /\ plain_key pid)
        then Some (LeitnerCard.mk pid 0 0 0)
        else None
    end.
Proof. exact (initLeitnerCards_at people existing pid). Qed.

(** X10: after [initLeitnerCards] every person of the roster whose
    identifier names no property of [Object.prototype] has a card, and
    initialising again changes nothing. *)
Theorem initLeitnerCards_idempotent (people : list Person)
    (existing : gmap jsstring LeitnerCard) :
  (forall p : Person,
     p ∈ people -> plain_key (Person.id p) ->
     is_Some (initLeitnerCards people existing !! Person.id p))
  /\ initLeitnerCards people (initLeitnerCards people existing)
     = initLeitnerCards people existing.
Proof.
  split.
  - intros p Hp Hplain. rewrite initLeitnerCards_at.
    destruct (existing !! Person.id p); [eauto|].
    rewrite decide_True; [eauto|]. split; [|exact Hplain].
    rewrite map_fmap. apply list_elem_of_fmap. eauto.
  - apply map_eq. intros pid. rewrite !initLeitnerCards_at.
    destruct (existing !! pid); [reflexivity|].
    destruct (decide (pid ∈ map Person.id people /\ plain_key pid));
      reflexivity.
Qed.

Lemma initLeitnerCards_idempotent_witness :
  is_Some (initLeitnerCards [person_a; person_b] ∅ !! Person.id person_b)
  /\ initLeitnerCards
       [Person.mk (lit "constructor") (lit "זיו") [] []] ∅ = ∅.
Proof.
  split.
  - apply (initLeitnerCards_idempotent [person_a; person_b] ∅).
    + right. left.
    + apply (bool_decide_unpack _). vm_compute. exact I.
  - vm_compute. reflexivity.
Defined.

Lemma handleAnswer_cards_lookup (prev : gmap jsstring LeitnerCard)
    (result : AnswerResult) (w : World) (pid : jsstring) :
  (handleAnswer_cards prev result w).1 !! pid
  = if decide (AnswerResult.personId result = pid)
    then Some (updateLeitnerCard
                 (default (LeitnerCard.mk (AnswerResult.personId result) 0 0 0)
                    (prev !! AnswerResult.personId result))
                 (AnswerResult.correct result) w).1
    else prev !! pid.
Proof.
  unfold handleAnswer_cards, bind.
  destruct (updateLeitnerCard _ _ w) as [updated w1]. cbn [ret fst].
  apply lookup_insert.
Qed.

Lemma handleAnswer_cards_invariants (prev : gmap jsstring LeitnerCard)
    (result : AnswerResult) (w : World) :
  (boxes_in_range prev -> boxes_in_range (handleAnswer_cards prev result w).1)
  /\ (keyed_by_personId prev ->
      keyed_by_personId (handleAnswer_cards prev result w).1).
Proof.
  split; intros H pid c; rewrite handleAnswer_cards_lookup;
    destruct (decide (AnswerResult.personId result = pid)) as [E|E];
    try apply H; intros [= <-].
  - apply updateLeitnerCard_box_range.
    destruct (prev !! AnswerResult.personId result) as [c|] eqn:Ec; cbn.
    + eapply H, Ec.
    + lia.
  - destruct (prev !! AnswerResult.personId result) as [c|] eqn:Ec; cbn [default].
    + destruct (AnswerResult.correct result); cbn; rewrite <- E; eapply H, Ec.
    + destruct (AnswerResult.correct result); cbn; exact E.
Qed.

Lemma handleBatchAnswer_cards_invariants (results : list AnswerResult) :
  forall (prev : gmap jsstring LeitnerCard) (w : World),
    (boxes_in_range prev ->
     boxes_in_range (handleBatchAnswer_cards results prev w).1)
    /\ (keyed_by_personId prev ->
        keyed_by_personId (handleBatchAnswer_cards results prev w).1).
Proof.
  induction results as [|r results IH]; intros prev w; [cbn; tauto|].
  cbn [handleBatchAnswer_cards]. unfold bind.
  pose proof (handleAnswer_cards_invariants prev r w) as [Hb Hk].
  destruct (handleAnswer_cards prev r w) as [next w1]. cbn [fst] in Hb, Hk.
  destruct (IH next w1) as [Hb' Hk']. split; auto.
Qed.

(** X11: the cards of a session stay well formed. When every stored card
    is in a box of 0 to 2 and filed under its own [personId], so is every
    card after [initLeitnerCards] and after any sequence of answers handled
    from there, whatever the clock reads, the answers being about any
    identifiers that name no property of [Object.prototype] (for one that
    does, and has no card, the code makes a card out of the inherited
    member). *)
Theorem session_cards_invariant (people : list Person)
    (existing : gmap jsstring LeitnerCard) (results : list AnswerResult)
    (w : World) :
  boxes_in_range existing ->
  keyed_by_personId existing ->
  Forall (fun r => plain_key (AnswerResult.personId r)) results ->
  let cards :=
    (handleBatchAnswer_cards results (initLeitnerCards people existing) w).1 in
  boxes_in_range cards /\ keyed_by_personId cards.
Proof.
  intros Hb Hk _. cbv zeta.
  assert (boxes_in_range (initLeitnerCards people existing)) as Hb0.
  { intros pid c. rewrite initLeitnerCards_at.
    destruct (existing !! pid) as [c0|] eqn:E.
    - intros [= <-]. eapply Hb, E.
    - destruct (decide _); [|discriminate]. intros [= <-]. cbn. lia. }
  assert (keyed_by_personId (initLeitnerCards people existing)) as Hk0.
  { intros pid c. rewrite initLeitnerCards_at.
    destruct (existing !! pid) as [c0|] eqn:E.
    - intros [= <-]. eapply Hk, E.
    - destruct (decide _); [|discriminate]. intros [= <-]. reflexivity. }
  destruct (handleBatchAnswer_cards_invariants results
              (initLeitnerCards people existing) w) as [H1 H2].
  auto.
Qed.

Lemma session_cards_invariant_witness :
  let cards :=
    (handleBatchAnswer_cards
       [AnswerResult.mk [97%N] true [] [] flashcards None;
        AnswerResult.mk [99%N] false [] [] trueFalse None]
       (initLeitnerCards [person_a; person_b]
          {[ [97%N] := LeitnerCard.mk [97%N] 2 5 3 ]}) sample_world).1 in
  boxes_in_range cards /\ keyed_by_personId cards.
Proof.
  apply (session_cards_invariant [person_a; person_b]
           {[ [97%N] := LeitnerCard.mk [97%N] 2 5 3 ]}).
  - intros pid c H. apply lookup_singleton_Some in H as [_ <-]. cbn. lia.
  - intros pid c H. apply lookup_singleton_Some in H as [<- <-]. reflexivity.
  - repeat constructor; apply (bool_decide_unpack _); vm_compute; exact I.
Defined.

Lemma handleBatchAnswer_cards_app (l1 l2 : list AnswerResult) :
  forall (prev : gmap jsstring LeitnerCard) (w : World),
    handleBatchAnswer_cards (l1 ++ l2) prev w
    = let (mid, w1) := handleBatchAnswer_cards l1 prev w in
      handleBatchAnswer_cards l2 mid w1.
Proof.
  induction l1 as [|r l1 IH]; intros prev w; [reflexivity|].
  cbn [app handleBatchAnswer_cards]. unfold bind.
  destruct (handleAnswer_cards prev r w) as [next w1]. apply IH.
Qed.

Lemma handleBatchAnswer_cards_other (results : list AnswerResult)
    (prev : gmap jsstring LeitnerCard) (w : World) (pid : jsstring) :
  pid ∉ map AnswerResult.personId results ->
  (handleBatchAnswer_cards results prev w).1 !! pid = prev !! pid.
Proof.
  revert prev w. induction results as [|r results IH]; intros prev w Hnot;
    [reflexivity|].
  cbn [handleBatchAnswer_cards]. unfold bind.
  pose proof (handleAnswer_cards_lookup prev r w pid) as Hl.
  destruct (handleAnswer_cards prev r w) as [next w1]. cbn [fst] in Hl.
  cbn [map] in Hnot. apply not_elem_of_cons in Hnot as [Hne Hnot].
  rewrite IH by exact Hnot. rewrite Hl.
  destruct (decide (AnswerResult.personId r = pid)); [congruence | reflexivity].
Qed.

(** X12: handling answers changes the cards of the people answered about
    only: the card, or the absence of a card, of anyone else stays as it
    was. *)
Theorem handleBatchAnswer_cards_untouched (results : list AnswerResult)
    (prev : gmap jsstring LeitnerCard) (w : World) (pid : jsstring) :
  pid ∉ map AnswerResult.personId results ->
  (handleBatchAnswer_cards results prev w).1 !! pid = prev !! pid.
Proof. exact (handleBatchAnswer_cards_other results prev w pid). Qed.

Lemma handleBatchAnswer_cards_untouched_witness :
  (handleBatchAnswer_cards
     [AnswerResult.mk [97%N] true [] [] flashcards None]
     {[ [98%N] := LeitnerCard.mk [98%N] 1 5 1 ]} sample_world).1 !! [98%N]
  = ({[ [98%N] := LeitnerCard.mk [98%N] 1 5 1 ]}
       : gmap jsstring LeitnerCard) !! [98%N].
Proof.
  apply (handleBatchAnswer_cards_untouched
           [AnswerResult.mk [97%N] true [] [] flashcards None]).
  cbn. intros H. apply list_elem_of_singleton in H. discriminate.
Defined.

(** X13: after a sequence of answers, a person whose last answer in it was
    wrong has a card in box 0 with no streak, whatever the card was before
    and however many correct answers came earlier. *)
Theorem handleBatchAnswer_cards_last_wrong (pre post : list AnswerResult)
    (r : AnswerResult) (prev : gmap jsstring LeitnerCard) (w : World) :
  AnswerResult.correct r = false ->
  AnswerResult.personId r ∉ map AnswerResult.personId post ->
  exists c : LeitnerCard,
    (handleBatchAnswer_cards (pre ++ r :: post) prev w).1
      !! AnswerResult.personId r = Some c
    /\ LeitnerCard.box c = 0%Z
    /\ LeitnerCard.correctStreak c = 0%Z.
Proof.
  intros Hwrong Hnot. rewrite handleBatchAnswer_cards_app.
  destruct (handleBatchAnswer_cards pre prev w) as [mid w1].
  cbn [handleBatchAnswer_cards]. unfold bind.
  pose proof (handleAnswer_cards_lookup mid r w1 (AnswerResult.personId r))
    as Hl.
  destruct (handleAnswer_cards mid r w1) as [next w2]. cbn [fst] in Hl.
  rewrite handleBatchAnswer_cards_other by exact Hnot.
  rewrite Hl, decide_True by reflexivity. rewrite Hwrong.
  eexists. split; [reflexivity|]. split; reflexivity.
Qed.

Lemma handleBatchAnswer_cards_last_wrong_witness :
  exists c : LeitnerCard,
    (handleBatchAnswer_cards
       ([AnswerResult.mk [97%N] true [] [] flashcards None]
        ++ AnswerResult.mk [97%N] false [] [] flashcards None
        :: [AnswerResult.mk [98%N] true [] [] flashcards None])
       {[ [97%N] := LeitnerCard.mk [97%N] 2 5 3 ]} sample_world).1
      !! [97%N] = Some c
    /\ LeitnerCard.box c = 0%Z
    /\ LeitnerCard.correctStreak c = 0%Z.
Proof.
  apply (handleBatchAnswer_cards_last_wrong
           [AnswerResult.mk [97%N] true [] [] flashcards None]
           [AnswerResult.mk [98%N] true [] [] flashcards None]
           (AnswerResult.mk [97%N] false [] [] flashcards None)).
  - reflexivity.
  - cbn. intros H. apply list_elem_of_singleton in H. discriminate.
Defined.

(** ** Session statistics, continued *)

Lemma leading_le_longest (results : list AnswerResult) :
  leading_correct results <= longest_correct_run results.
Proof. destruct results; [cbn; lia | cbn [longest_correct_run]; lia]. Qed.

Lemma fold_handleAnswer_bestStreak (results : list AnswerResult) :
  forall s : SessionStats,
    (0 <= SessionStats.streak s <= SessionStats.bestStreak s)%Z ->
    SessionStats.bestStreak (fold_left handleAnswer_stats results s)
    = Z.max (SessionStats.bestStreak s)
        (Z.max (SessionStats.streak s + Z.of_nat (leading_correct results))
           (Z.of_nat (longest_correct_run results))).
Proof.
  induction results as [|r results IH]; intros s Hs.
  - cbn. lia.
  - cbn [fold_left]. rewrite IH.
    + pose proof (leading_le_longest results).
      cbn [handleAnswer_stats SessionStats.bestStreak SessionStats.streak
           longest_correct_run leading_correct].
      destruct (AnswerResult.correct r); lia.
    + cbn [handleAnswer_stats SessionStats.bestStreak SessionStats.streak].
      destruct (AnswerResult.correct r); lia.
Qed.

(** X15: the [bestStreak] of a session is the length of the longest run of
    consecutive correct answers in it. *)
Theorem session_bestStreak (results : list AnswerResult) :
  SessionStats.bestStreak (session results)
  = Z.of_nat (longest_correct_run results).
Proof.
  unfold session. rewrite fold_handleAnswer_bestStreak by (cbn; lia).
  pose proof (leading_le_longest results). cbn. lia.
Qed.

(** ** Folding a session into the overall statistics, continued *)

Lemma upsert_person_counts (people : list Person)
    (ps : gmap jsstring PersonStats) (r : AnswerResult) (pid : jsstring) :
  (AnswerResult.personId r <> pid ->
   upsert_person people ps r !! pid = ps !! pid)
  /\ (AnswerResult.personId r = pid ->
      is_Some (upsert_person people ps r !! pid)
      /\ asked_of (upsert_person people ps r !! pid)
         = number_add (asked_of (ps !! pid)) 1
      /\ correct_of (upsert_person people ps r !! pid)
         = if AnswerResult.correct r
           then number_add (correct_of (ps !! pid)) 1
           else correct_of (ps !! pid)).
Proof.
  unfold upsert_person. split.
  - intros Hne. apply lookup_insert_ne, Hne.
  - intros <-. rewrite lookup_insert_eq. unfold asked_of, correct_of.
    split; [eauto|].
    destruct (ps !! AnswerResult.personId r) as [e|];
      destruct (AnswerResult.correct r); cbn; split; reflexivity.
Qed.

(** The entries that a fold of [upsert_person] leaves alone and those it
    makes. *)
Lemma fold_upsert_frame (people : list Person) (results : list AnswerResult)
    (pid : jsstring) :
  forall ps : gmap jsstring PersonStats,
    (answers_about pid results = [] ->
     fold_left (upsert_person people) results ps !! pid = ps !! pid)
    /\ (answers_about pid results <> [] ->
        is_Some (fold_left (upsert_person people) results ps !! pid)).
Proof.
  induction results as [|r results IH]; intros ps.
  - cbn. split; [reflexivity | intros H; contradiction].
  - cbn [fold_left]. destruct (IH (upsert_person people ps r)) as (Hnil & Hsome).
    destruct (upsert_person_counts people ps r pid) as [Hne Heq].
    unfold answers_about in *.
    destruct (decide (AnswerResult.personId r = pid)) as [E|E].
    + destruct (Heq E) as (His & _).
      rewrite filter_cons_True by exact E. split; [discriminate|].
      intros _.
      destruct (filter (fun r0 => AnswerResult.personId r0 = pid) results)
        eqn:Ef.
      * rewrite Hnil by reflexivity. exact His.
      * apply Hsome. discriminate.
    + rewrite filter_cons_False by exact E. split.
      * intros H. rewrite Hnil by exact H. apply Hne, E.
      * exact Hsome.
Qed.

(** The counters that a fold of [upsert_person] reaches, when they stay
    safe integers. *)
Lemma fold_upsert_counts (people : list Person) (results : list AnswerResult)
    (pid : jsstring) :
  forall ps : gmap jsstring PersonStats,
    counts_up_to (asked_of (ps !! pid))
      (Z.of_nat (length (answers_about pid results))) ->
    counts_up_to (correct_of (ps !! pid))
      (Z.of_nat (count_correct (answers_about pid results))) ->
    asked_of (fold_left (upsert_person people) results ps !! pid)
    = (asked_of (ps !! pid)
       + Z.of_nat (length (answers_about pid results)))%Z
    /\ correct_of (fold_left (upsert_person people) results ps !! pid)
       = (correct_of (ps !! pid)
          + Z.of_nat (count_correct (answers_about pid results)))%Z.
Proof.
  induction results as [|r results IH]; intros ps Ha Hc.
  - cbn. split; lia.
  - cbn [fold_left].
    destruct (upsert_person_counts people ps r pid) as [Hne Heq].
    unfold answers_about in *.
    destruct (decide (AnswerResult.personId r = pid)) as [E|E].
    + destruct (Heq E) as (_ & Hua & Huc).
      rewrite filter_cons_True in Ha, Hc |- * by exact E.
      cbn [length] in Ha |- *. unfold count_correct in Hc |- *.
      unfold counts_up_to, safe_integer in Ha, Hc.
      rewrite number_add_safe in Hua by (unfold safe_integer; lia).
      destruct (AnswerResult.correct r) eqn:Er.
      * rewrite filter_cons_True in Hc |- * by exact Er.
        cbn [length] in Hc |- *.
        rewrite number_add_safe in Huc by (unfold safe_integer; lia).
        destruct (IH (upsert_person people ps r)) as [-> ->].
        -- rewrite Hua. unfold counts_up_to, safe_integer. lia.
        -- rewrite Huc. unfold count_correct, counts_up_to, safe_integer. lia.
        -- rewrite Hua, Huc. unfold count_correct. lia.
      * rewrite filter_cons_False in Hc |- * by (rewrite Er; discriminate).
        destruct (IH (upsert_person people ps r)) as [-> ->].
        -- rewrite Hua. unfold counts_up_to, safe_integer. lia.
        -- rewrite Huc. unfold count_correct, counts_up_to, safe_integer. lia.
        -- rewrite Hua, Huc. unfold count_correct. lia.
    + rewrite filter_cons_False in Ha, Hc |- * by exact E.
      destruct (IH (upsert_person people ps r)) as [-> ->].
      * rewrite (Hne E). exact Ha.
      * rewrite (Hne E). exact Hc.
      * rewrite (Hne E). split; reflexivity.
Qed.

(** X16: [finishSession] adds to each person's [timesAsked] the number of
    the session's answers about that person and to [timesCorrect] the
    number of the correct ones among them (counting from 0 for a person
    without statistics), provided the counters stay safe integers; a
    person the session has an answer about has an entry afterwards; both
    for a person whose identifier names no property of [Object.prototype].
    The entry, or the absence of one, of a person the session has no
    answer about is left as it was. *)
Theorem finishSession_person_counts (people : list Person)
    (overall : OverallStats) (cards : gmap jsstring LeitnerCard)
    (results : list AnswerResult) (pid : jsstring) :
  let before := OverallStats.personStats overall !! pid in
  let after :=
    OverallStats.personStats
      (finishSession people overall cards (session results)) !! pid in
  (plain_key pid ->
   counts_up_to (asked_of before)
     (Z.of_nat (length (answers_about pid results))) ->
   counts_up_to (correct_of before)
     (Z.of_nat (count_correct (answers_about pid results))) ->
   asked_of after
   = (asked_of before + Z.of_nat (length (answers_about pid results)))%Z
   /\ correct_of after
      = (correct_of before
         + Z.of_nat (count_correct (answers_about pid results)))%Z)
  /\ (answers_about pid results = [] -> after = before)
  /\ (plain_key pid -> answers_about pid results <> [] -> is_Some after).
Proof.
  cbv zeta. unfold finishSession. cbn [OverallStats.personStats].
  rewrite session_results.
  destruct (fold_upsert_frame people results pid
              (OverallStats.personStats overall)) as [Hnil Hsome].
  split; [|split].
  - intros _ Ha Hc. apply fold_upsert_counts; assumption.
  - exact Hnil.
  - intros _. exact Hsome.
Qed.

Lemma finishSession_person_counts_witness :
  let overall :=
    OverallStats.mk 4 40 31
      {[ [97%N] := PersonStats.mk [97%N] (lit "זיו") 9 7 77%float ]} ∅ in
  let results :=
    [AnswerResult.mk [97%N] true [] [] flashcards None;
     AnswerResult.mk [98%N] false [] [] trueFalse None;
     AnswerResult.mk [97%N] false [] [] flashcards None] in
  let after :=
    OverallStats.personStats
      (finishSession [person_a; person_b] overall ∅ (session results))
      !! [97%N] in
  asked_of after = 11%Z /\ correct_of after = 8%Z.
Proof.
  cbv zeta.
  refine (proj1 (finishSession_person_counts [person_a; person_b]
            (OverallStats.mk 4 40 31
               {[ [97%N] := PersonStats.mk [97%N] (lit "זיו") 9 7 77%float ]} ∅)
            ∅
            [AnswerResult.mk [97%N] true [] [] flashcards None;
             AnswerResult.mk [98%N] false [] [] trueFalse None;
             AnswerResult.mk [97%N] false [] [] flashcards None] [97%N])
            _ _ _).
  - apply (bool_decide_unpack _). vm_compute. exact I.
  - vm_compute. repeat split; discriminate.
  - vm_compute. repeat split; discriminate.
Defined.

(** ** The parser, continued *)

Lemma split_nl_nonnil (s : jsstring) : split_nl s <> [].
Proof.
  induction s as [|c s IH]; cbn; [discriminate|].
  destruct (c =? 10)%N; [discriminate|].
  destruct (split_nl s); discriminate.
Qed.

(** The lines of two texts put together with a line feed are the lines of
    the first followed by the lines of the second. *)
Lemma split_nl_app_nl (a b : jsstring) :
  split_nl (a ++ 10%N :: b) = split_nl a ++ split_nl b.
Proof.
  induction a as [|c a IH]; [reflexivity|].
  cbn. destruct (c =? 10)%N.
  - rewrite IH. reflexivity.
  - rewrite IH. pose proof (split_nl_nonnil a).
    destruct (split_nl a); [contradiction | reflexivity].
Qed.

Lemma nonEmptyLines_app_nl (a b : jsstring) :
  nonEmptyLines (a ++ 10%N :: b) = nonEmptyLines a ++ nonEmptyLines b.
Proof.
  unfold nonEmptyLines. cbv zeta.
  rewrite split_nl_app_nl, map_app, filter_app. reflexivity.
Qed.

Lemma split_nl_pieces (s : jsstring) :
  forall (piece : jsstring) (c : N),
    piece ∈ split_nl s -> c ∈ piece -> c ∈ s.
Proof.
  induction s as [|d s IH]; intros piece c Hp Hc; cbn in Hp.
  - apply list_elem_of_singleton in Hp. subst piece. inversion Hc.
  - destruct (d =? 10)%N.
    + apply elem_of_cons in Hp as [->|Hp]; [inversion Hc|].
      right. eapply IH; eassumption.
    + destruct (split_nl s) as [|p r] eqn:Es.
      * apply list_elem_of_singleton in Hp. subst piece.
        apply list_elem_of_singleton in Hc. subst c. left.
      * apply elem_of_cons in Hp as [->|Hp].
        -- apply elem_of_cons in Hc as [->|Hc]; [left|].
           right. apply (IH p c); [left | exact Hc].
        -- right. apply (IH piece c); [right; exact Hp | exact Hc].
Qed.

Lemma trim_all_ws (s : jsstring) :
  (forall c : N, c ∈ s -> is_ws c = true) -> trim s = [].
Proof.
  intros H. assert (trimStart s = []) as E.
  { induction s as [|c s IH]; [reflexivity|]. cbn.
    rewrite (H c) by left. apply IH. intros d Hd. apply H. right. exact Hd. }
  unfold trim, trimEnd. rewrite E. reflexivity.
Qed.

(** A text of whitespace only has no line that counts. *)
Lemma nonEmptyLines_blank (blank : jsstring) :
  (forall c : N, c ∈ blank -> is_ws c = true) -> nonEmptyLines blank = [].
Proof.
  intros H. unfold nonEmptyLines. cbv zeta.
  assert (forall piece, piece ∈ split_nl blank -> trim piece = []) as Hp.
  { intros piece Hin. apply trim_all_ws. intros c Hc.
    apply H. eapply split_nl_pieces; eassumption. }
  induction (split_nl blank) as [|p r IH]; [reflexivity|].
  cbn [map]. rewrite (Hp p) by left.
  rewrite filter_cons_False by (cbn; lia).
  apply IH. intros q Hq. apply Hp. right. exact Hq.
Qed.

(** The parser reads its text through the non-empty trimmed lines only. *)
Lemma parsePeopleText_lines (toString36 : float -> jsstring)
    (t1 t2 : jsstring) (w : World) :
  nonEmptyLines t1 = nonEmptyLines t2 ->
  parsePeopleText toString36 t1 w = parsePeopleText toString36 t2 w.
Proof. intros H. unfold parsePeopleText. rewrite H. reflexivity. Qed.

(** X19: blank lines are separators only. Lines of whitespace put between
    two parts of a text, before a text or after it change neither the
    result of [parsePeopleText] nor the random draws it makes. *)
Theorem parse_blank_lines (toString36 : float -> jsstring)
    (a b blank : jsstring) (w : World) :
  (forall c : N, c ∈ blank -> is_ws c = true) ->
  parsePeopleText toString36 (a ++ [10%N] ++ blank ++ [10%N] ++ b) w
  = parsePeopleText toString36 (a ++ [10%N] ++ b) w
  /\ parsePeopleText toString36 (blank ++ [10%N] ++ a) w
     = parsePeopleText toString36 a w
  /\ parsePeopleText toString36 (a ++ [10%N] ++ blank) w
     = parsePeopleText toString36 a w.
Proof.
  intros H. pose proof (nonEmptyLines_blank blank H) as E.
  cbn [app]. split; [|split]; apply parsePeopleText_lines.
  - rewrite !nonEmptyLines_app_nl, E. reflexivity.
  - rewrite nonEmptyLines_app_nl, E. reflexivity.
  - rewrite nonEmptyLines_app_nl, E, app_nil_r. reflexivity.
Qed.

Lemma parse_blank_lines_witness :
  parsePeopleText sample_toString36
    (sample_text ++ [10%N] ++ [32%N; 10%N; 9%N] ++ [10%N] ++ sample_text)
    sample_world
  = parsePeopleText sample_toString36 (sample_text ++ [10%N] ++ sample_text)
      sample_world.
Proof.
  apply (parse_blank_lines sample_toString36 sample_text sample_text
           [32%N; 10%N; 9%N] sample_world).
  intros c Hc. repeat (apply elem_of_cons in Hc as [->|Hc]; [reflexivity|]).
  inversion Hc.
Defined.

(** *** Valid texts *)

Lemma blank_line_Forall (s : jsstring) :
  Forall (fun c => is_ws c = true) s <-> blank_line s.
Proof. unfold blank_line. rewrite Forall_forall. reflexivity. Qed.

Lemma trimStart_blank_app (pre s : jsstring) :
  blank_line pre -> trimStart (pre ++ s) = trimStart s.
Proof.
  intros H. induction pre as [|c pre IH]; [reflexivity|].
  cbn. rewrite (H c) by left. apply IH. intros d Hd. apply H. right. exact Hd.
Qed.

(** The whitespace around a padded line is what [trim] strips. *)
Lemma padded_trim (content raw : jsstring) :
  padded content raw -> trim raw = content /\ content <> [].
Proof.
  intros (pre & post & -> & Hpre & Hpost & (c & rest & Ec & Hc)
            & (front & d & Ed & Hd)).
  split; [|rewrite Ec; discriminate].
  unfold trim, trimEnd. rewrite trimStart_blank_app by exact Hpre.
  assert (trimStart (content ++ post) = content ++ post) as ->.
  { rewrite Ec. cbn. rewrite Hc. reflexivity. }
  rewrite rev_app_distr, trimStart_blank_app.
  - rewrite Ed, rev_app_distr. cbn. rewrite Hd. cbn.
    rewrite rev_involutive. reflexivity.
  - intros x Hx. apply Hpost. apply list_elem_of_In, in_rev, list_elem_of_In.
    exact Hx.
Qed.

(** A string is its trimmed part with whitespace around it. *)
Lemma trim_decompose (s : jsstring) :
  exists pre post : jsstring,
    s = pre ++ trim s ++ post /\ blank_line pre /\ blank_line post.
Proof.
  destruct (trimStart_prefix s) as (pre & Hs & Hpre).
  destruct (trimStart_prefix (rev (trimStart s))) as (pre2 & Hr & Hpre2).
  exists pre, (rev pre2). split; [|split].
  - unfold trim, trimEnd. rewrite <- rev_app_distr, <- Hr, rev_involutive.
    exact Hs.
  - apply blank_line_Forall, Hpre.
  - intros c Hc. apply list_elem_of_In, in_rev, list_elem_of_In in Hc.
    revert c Hc. apply blank_line_Forall, Hpre2.
Qed.

Lemma trim_padded (s : jsstring) : trim s <> [] -> padded (trim s) s.
Proof.
  intros Hne. destruct (trim_decompose s) as (pre & post & Hs & Hpre & Hpost).
  exists pre, post. split; [exact Hs|]. split; [exact Hpre|].
  split; [exact Hpost|].
  destruct (trim_shape s) as [E|(h & c & t & t0 & Eh & Hh & Ec & Hc)];
    [contradiction|].
  split; [exists h, t | exists t0, c]; auto.
Qed.

Lemma trim_empty_blank (s : jsstring) : trim s = [] -> blank_line s.
Proof.
  intros E. destruct (trim_decompose s) as (pre & post & Hs & Hpre & Hpost).
  rewrite E in Hs. cbn in Hs. rewrite Hs. intros c Hc.
  apply elem_of_app in Hc as [Hc|Hc]; [apply Hpre | apply Hpost]; exact Hc.
Qed.

Lemma nonEmptyLines_unlines_cons (raw : jsstring) (raws : list jsstring) :
  nonEmptyLines (unlines (raw :: raws))
  = nonEmptyLines raw ++ nonEmptyLines (unlines raws).
Proof.
  destruct raws as [|raw2 raws].
  - cbn [unlines]. change (nonEmptyLines []) with (@nil jsstring).
    rewrite app_nil_r. reflexivity.
  - change (unlines (raw :: raw2 :: raws))
      with (raw ++ 10%N :: unlines (raw2 :: raws)).
    apply nonEmptyLines_app_nl.
Qed.

Lemma nonEmptyLines_one_line (raw : jsstring) :
  10%N ∉ raw ->
  nonEmptyLines raw = match trim raw with [] => [] | _ :: _ => [trim raw] end.
Proof.
  intros H. unfold nonEmptyLines. cbv zeta. rewrite split_nl_no_nl by exact H.
  cbn [map]. destruct (trim raw) as [|c t] eqn:E.
  - rewrite filter_cons_False by (cbn; lia). reflexivity.
  - rewrite filter_cons_True by (cbn; lia). reflexivity.
Qed.

(** The lines the parser groups are the kept lines of the text. *)
Lemma nonEmptyLines_kept (raws contents : list jsstring) :
  Forall (fun raw => 10%N ∉ raw) raws ->
  kept_lines raws contents ->
  nonEmptyLines (unlines raws) = contents.
Proof.
  intros Hlf Hkept. induction Hkept as [|raw raws contents Hblank _ IH
                                        |content raw raws contents Hpad _ IH].
  - reflexivity.
  - apply Forall_cons in Hlf as [Hraw Hlf].
    rewrite nonEmptyLines_unlines_cons, nonEmptyLines_one_line by exact Hraw.
    rewrite (trim_all_ws raw Hblank). apply IH, Hlf.
  - apply Forall_cons in Hlf as [Hraw Hlf].
    rewrite nonEmptyLines_unlines_cons, nonEmptyLines_one_line by exact Hraw.
    destruct (padded_trim content raw Hpad) as [-> Hne].
    destruct content; [contradiction|]. cbn [app]. f_equal. apply IH, Hlf.
Qed.

Lemma unlines_split_nl (text : jsstring) : unlines (split_nl text) = text.
Proof.
  induction text as [|c text IH]; [reflexivity|].
  cbn [split_nl]. pose proof (split_nl_nonnil text) as Hne.
  destruct (c =? 10)%N eqn:Ec.
  - apply N.eqb_eq in Ec. subst c.
    destruct (split_nl text) as [|p r]; [contradiction|].
    change (unlines ([] :: p :: r)) with (10%N :: unlines (p :: r)).
    rewrite IH. reflexivity.
  - destruct (split_nl text) as [|p r]; [contradiction|].
    destruct r as [|q r]; cbn [unlines] in *; rewrite <- IH; reflexivity.
Qed.

Lemma split_nl_no_line_feed (text : jsstring) :
  Forall (fun raw => 10%N ∉ raw) (split_nl text).
Proof.
  induction text as [|c text IH].
  - cbn. constructor; [|constructor]. intros H. inversion H.
  - cbn [split_nl]. destruct (N.eqb_spec c 10).
    + constructor; [|exact IH]. intros H. inversion H.
    + destruct (split_nl text) as [|p r].
      * constructor; [|constructor]. intros H.
        apply list_elem_of_singleton in H. congruence.
      * apply Forall_cons in IH as [Hp Hr]. constructor; [|exact Hr].
        intros H. apply elem_of_cons in H as [H|H]; [congruence | contradiction].
Qed.

Lemma kept_lines_trim (raws : list jsstring) :
  kept_lines raws (filter (fun line => 0 < length line) (map trim raws)).
Proof.
  induction raws as [|raw raws IH]; [constructor|].
  cbn [map]. destruct (trim raw) as [|c t] eqn:E.
  - rewrite filter_cons_False by (cbn; lia).
    apply kept_blank; [|exact IH]. apply trim_empty_blank, E.
  - rewrite filter_cons_True by (cbn; lia). rewrite <- E.
    apply kept_content; [|exact IH]. apply trim_padded. rewrite E. discriminate.
Qed.

(** C1: a text is made of lines, a line feed between two of them; its
    non-empty trimmed lines are its lines that are not blank, each without
    the whitespace around it ([kept_lines]; every text has them). When
    their number is a positive multiple of 3, [parsePeopleText] succeeds
    with one person per consecutive triple of them, in the order of the
    input: the [k]-th person has line [3k] as name, the words of line
    [3k + 1] as parents and the words of line [3k + 2] as siblings, a word
    being a maximal run without whitespace. *)
Theorem parse_valid (toString36 : float -> jsstring) (text : jsstring)
    (w : World) :
  (exists raws contents : list jsstring,
     text = unlines raws
     /\ Forall (fun raw => 10%N ∉ raw) raws
     /\ kept_lines raws contents)
  /\ forall raws contents : list jsstring,
       text = unlines raws ->
       Forall (fun raw => 10%N ∉ raw) raws ->
       kept_lines raws contents ->
       0 < length contents ->
       length contents mod 3 = 0 ->
       exists people : list Person,
         (parsePeopleText toString36 text w).1 = Some (Success people)
         /\ 3 * length people = length contents
         /\ forall (k : nat) (p : Person),
              people !! k = Some p ->
              contents !! (3 * k) = Some (Person.name p)
              /\ (words <$> contents !! (3 * k + 1))
                 = Some (Person.parents p)
              /\ (words <$> contents !! (3 * k + 2))
                 = Some (Person.siblings p).
Proof.
  split.
  - exists (split_nl text),
      (filter (fun line => 0 < length line) (map trim (split_nl text))).
    split; [symmetry; apply unlines_split_nl|].
    split; [apply split_nl_no_line_feed | apply kept_lines_trim].
  - intros raws contents -> Hlf Hkept Hpos Hmod.
    rewrite parsePeopleText_eq. cbv zeta.
    rewrite (nonEmptyLines_kept raws contents Hlf Hkept).
    destruct (length contents =? 0) eqn:E0;
      [apply Nat.eqb_eq in E0; lia|].
    rewrite Hmod. cbn [Nat.eqb negb].
    eexists. split; [reflexivity|]. split.
    + rewrite people_of_blocks_length.
      apply Nat.Div0.div_exact in Hmod.
      rewrite (triples_length _ (length contents / 3)); lia.
    + intros k p Hk.
      apply people_of_blocks_lookup in Hk as (a & b & c & Hb & ->).
      apply triples_lookup in Hb as (Ha & Hb & Hc).
      rewrite Ha, Hb, Hc. cbn. rewrite !tokens_words. auto.
Qed.

Lemma parse_valid_witness :
  let contents :=
    [lit "זיו"; lit "רותם" ++ [32%N; 32%N; 9%N] ++ lit "טל"; lit "נועה עמית"] in
  exists people : list Person,
    (parsePeopleText sample_toString36 (unlines sample_padded_lines)
       sample_world).1 = Some (Success people)
    /\ 3 * length people = length contents
    /\ forall (k : nat) (p : Person),
         people !! k = Some p ->
         contents !! (3 * k) = Some (Person.name p)
         /\ (words <$> contents !! (3 * k + 1)) = Some (Person.parents p)
         /\ (words <$> contents !! (3 * k + 2)) = Some (Person.siblings p).
Proof.
  cbv zeta.
  assert (forall s : jsstring,
            forallb is_ws s = true -> blank_line s) as Hblank.
  { intros s H c Hc. rewrite forallb_forall in H.
    apply H, list_elem_of_In, Hc. }
  apply (proj2 (parse_valid sample_toString36 (unlines sample_padded_lines)
                  sample_world) sample_padded_lines).
  - reflexivity.
  - repeat constructor; apply (bool_decide_unpack _); vm_compute; exact I.
  - apply kept_content.
    { exists [32%N; 32%N], [9%N]. split; [reflexivity|].
      split; [apply Hblank; reflexivity|]. split; [apply Hblank; reflexivity|].
      split; [eexists _, _; split; reflexivity|].
      exists (removelast (lit "זיו")), (List.last (lit "זיו") 0%N).
      split; reflexivity. }
    apply kept_blank; [apply Hblank; reflexivity|].
    apply kept_content.
    { exists [9%N], []. split; [reflexivity|].
      split; [apply Hblank; reflexivity|]. split; [apply Hblank; reflexivity|].
      split; [eexists _, _; split; reflexivity|].
      exists (lit "רותם" ++ [32%N; 32%N; 9%N] ++ removelast (lit "טל")),
        (List.last (lit "טל") 0%N).
      split; reflexivity. }
    apply kept_blank; [apply Hblank; reflexivity|].
    apply kept_content.
    { exists [], [13%N]. split; [reflexivity|].
      split; [apply Hblank; reflexivity|]. split; [apply Hblank; reflexivity|].
      split; [eexists _, _; split; reflexivity|].
      exists (removelast (lit "נועה עמית")), (List.last (lit "נועה עמית") 0%N).
      split; reflexivity. }
    apply kept_blank; [apply Hblank; reflexivity|].
    apply kept_nil.
  - cbn. lia.
  - reflexivity.
Defined.

(** The padded text parses to the person of the plain one-block text. *)
Example parse_sample_padded :
  (parsePeopleText sample_toString36 (unlines sample_padded_lines)
     sample_world).1
  = Some (Success
            [Person.mk [105%N] (lit "זיו") [lit "רותם"; lit "טל"]
               [lit "נועה"; lit "עמית"]]).
Proof. vm_compute. reflexivity. Qed.

(** X20: in a successful parse the [k]-th person has the identifier made
    from the [k]-th random draw, at most 9 code units long; so the
    identifiers are pairwise distinct when, and only when, the identifiers
    made from the first draws are. *)
Theorem parse_ids_of_draws (toString36 : float -> jsstring) (text : jsstring)
    (w : World) (people : list Person) :
  (parsePeopleText toString36 text w).1 = Some (Success people) ->
  (forall (k : nat) (p : Person),
     people !! k = Some p ->
     Person.id p = substring 2 11 (toString36 (random w k))
     /\ length (Person.id p) <= 9)
  /\ (NoDup (map Person.id people)
      <-> NoDup (map (fun k => substring 2 11 (toString36 (random w k)))
                   (seq 0 (length people)))).
Proof.
  intros H. pose proof (parse_success_ids toString36 text w people H) as Hids.
  split.
  - intros k p Hk.
    assert (map Person.id people !! k = Some (Person.id p)) as Hk'
        by (rewrite map_fmap, list_lookup_fmap, Hk; reflexivity).
    rewrite Hids, map_fmap, list_lookup_fmap in Hk'.
    rewrite lookup_seq_lt in Hk' by (eapply lookup_lt_Some, Hk).
    cbn in Hk'. injection Hk' as Hk'. unfold id_of_draw in Hk'.
    split; [symmetry; exact Hk'|].
    rewrite <- Hk'. unfold substring. rewrite length_firstn. lia.
  - rewrite Hids. reflexivity.
Qed.

Lemma parse_ids_of_draws_witness :
  NoDup (map Person.id
           [Person.mk [105%N] (lit "זיו") [lit "רותם"; lit "טל"]
              [lit "נועה"; lit "עמית"]])
  <-> NoDup (map (fun k => substring 2 11
                             (sample_toString36 (random sample_world k)))
               (seq 0 1)).
Proof.
  apply (parse_ids_of_draws sample_toString36 sample_text sample_world
           [Person.mk [105%N] (lit "זיו") [lit "רותם"; lit "טל"]
              [lit "נועה"; lit "עמית"]]).
  vm_compute. reflexivity.
Defined.

(** ** Question generators *)

Lemma array_at_lookup {A} (arr : list A) (index : option Z) (v : A) :
  array_at arr index = Some v ->
  exists k : nat, index = Some (Z.of_nat k) /\ arr !! k = Some v.
Proof.
  unfold array_at. destruct index as [z|]; [|discriminate].
  destruct (Z.ltb_spec z 0) as [Hneg|Hpos]; [discriminate|].
  intros Hv. exists (Z.to_nat z). rewrite Z2Nat.id by lia. auto.
Qed.

(** [pickOne] returns an element of the array, or [undefined]. *)
Lemma pickOne_elem {A} (arr : list A) (w : World) (v : A) :
  (pickOne arr w).1 = Some v -> v ∈ arr.
Proof.
  unfold pickOne, random_index. cbn. intros H.
  apply array_at_lookup in H as (k & _ & H).
  eapply list_elem_of_lookup_2, H.
Qed.

Lemma other_values_elem (person : Person) (allPeople : list Person)
    (field : Person -> list jsstring) (v : jsstring) :
  v ∈ filter (fun name => name ∉ field person)
        (concat (map field
           (filter (fun p => Person.id p <> Person.id person) allPeople))) ->
  (v ∉ field person)
  /\ exists other : Person,
       other ∈ allPeople /\ Person.id other <> Person.id person
       /\ v ∈ field other.
Proof.
  intros H. apply list_elem_of_filter in H as [Hnot H]. split; [exact Hnot|].
  apply list_elem_of_In, in_concat in H as (l & Hl & Hv).
  apply in_map_iff in Hl as (other & <- & Ho).
  apply list_elem_of_In, list_elem_of_filter in Ho as [Hid Ho].
  exists other. split; [exact Ho|]. split; [exact Hid|].
  apply list_elem_of_In, Hv.
Qed.

(** X22: the statement of a true/false question is what its flag says.
    When the question is flagged true, the claimed value is one of the
    person's values for the question's relation (or the literal for no
    siblings, when the person has none); when it is flagged false, the
    claimed value is none of them and is a value of another person of the
    roster. The question is about the person given. *)
Theorem generateTrueFalse_truthful (person : Person) (allPeople : list Person)
    (w : World) :
  let q := (generateTrueFalse person allPeople w).1 in
  TrueFalseQuestion.person q = person
  /\ forall v : jsstring,
       TrueFalseQuestion.claimedValue q = Some v ->
       if TrueFalseQuestion.isTrue q then
         v ∈ relation_values person (TrueFalseQuestion.relation q)
         \/ (TrueFalseQuestion.relation q = rel_siblings
             /\ Person.siblings person = [] /\ v = no_siblings)
       else
         (v ∉ relation_values person (TrueFalseQuestion.relation q))
         /\ exists other : Person,
              other ∈ allPeople /\ Person.id other <> Person.id person
              /\ v ∈ relation_values other (TrueFalseQuestion.relation q).
Proof.
  cbv zeta. unfold generateTrueFalse. cbn [bind Math_random random clock].
  set (w2 := mkWorld _ _).
  destruct (0.4 <? random w 0)%float; destruct (0.5 <? random w 1)%float;
    repeat match goal with
    | |- context [if ?b then _ else _] =>
        lazymatch b with
        | (_ =? _) => destruct b eqn:?
        | (_ <? _) => destruct b eqn:?
        end
    end;
    unfold bind;
    try match goal with
    | |- context [pickOne ?arr w2] =>
        pose proof (pickOne_elem arr w2) as Hpick;
        destruct (pickOne arr w2) as [o w3]; cbn [fst] in Hpick
    end;
    cbn [ret fst parent_statement sibling_statement no_siblings_statement
         TrueFalseQuestion.person TrueFalseQuestion.claimedValue
         TrueFalseQuestion.isTrue TrueFalseQuestion.relation relation_values];
    (split; [reflexivity|]); intros v Hv; try (subst o);
    try (left; apply Hpick; reflexivity).
  - injection Hv as <-. right. repeat split.
    destruct (Person.siblings person); [reflexivity | discriminate].
  - apply (other_values_elem person allPeople Person.parents), Hpick.
    reflexivity.
  - injection Hv as <-. right. repeat split.
    destruct (Person.siblings person); [reflexivity | discriminate].
  - apply (other_values_elem person allPeople Person.siblings), Hpick.
    reflexivity.
Qed.

Lemma generateTrueFalse_truthful_witness :
  let q :=
    (generateTrueFalse person_a [person_a; person_b]
       (mkWorld (fun k => match k with 0 => 0.25 | _ => 0.75 end)%float
          (fun _ => 0%Z))).1 in
  TrueFalseQuestion.isTrue q = false
  /\ forall v : jsstring,
       TrueFalseQuestion.claimedValue q = Some v ->
       v ∉ Person.parents person_a.
Proof.
  cbv zeta. split; [vm_compute; reflexivity|]. intros v Hv.
  pose proof (generateTrueFalse_truthful person_a [person_a; person_b]
                (mkWorld (fun k => match k with 0 => 0.25 | _ => 0.75 end)%float
                   (fun _ => 0%Z))) as [_ H].
  specialize (H v Hv).
  change (TrueFalseQuestion.isTrue _) with false in H.
  change (TrueFalseQuestion.relation _) with rel_parents in H.
  apply H.
Defined.

Lemma filter_other_index_below {A} (arr : list A) :
  forall i j : nat,
    j < i -> filter_other_index (Some (Z.of_nat j)) i arr = arr.
Proof.
  induction arr as [|x arr IH]; intros i j Hlt; [reflexivity|].
  cbn [filter_other_index]. rewrite bool_decide_eq_true_2.
  - rewrite IH by lia. reflexivity.
  - intros [= H]. lia.
Qed.

Lemma filter_other_index_delete {A} (arr : list A) :
  forall (i k : nat) (m : A),
    arr !! k = Some m ->
    filter_other_index (Some (Z.of_nat (i + k))) i arr = delete k arr.
Proof.
  induction arr as [|x arr IH]; intros i k m Hk; [discriminate|].
  cbn [filter_other_index]. destruct k as [|k].
  - rewrite Nat.add_0_r, bool_decide_eq_false_2 by (intros H; apply H; reflexivity).
    apply filter_other_index_below. lia.
  - rewrite bool_decide_eq_true_2 by (intros [= H]; lia).
    cbn [delete list_delete]. f_equal.
    replace (i + S k) with (S i + k) by lia. eapply IH, Hk.
Qed.

Lemma hidden_part {A} (arr : list A) (hideIndex : option Z) (m : A) :
  array_at arr hideIndex = Some m ->
  exists k : nat,
    arr !! k = Some m /\ filter_other_index hideIndex 0 arr = delete k arr.
Proof.
  intros H. apply array_at_lookup in H as (k & -> & Hk).
  exists k. split; [exact Hk|].
  apply (filter_other_index_delete arr 0 k m Hk).
Qed.

(** X23: what a fill-in-the-blank question hides. With relation parents
    (siblings) the missing part, when there is one, is an element of the
    person's parents (siblings) and the visible parts are the others, in
    their order; parents are asked when the person has two or more, or
    exactly one and fewer than two siblings, and siblings only when there
    are two or more. With relation name the missing part is the person's
    name and all parents are visible, which happens only with fewer than
    two siblings and a number of parents other than one. *)
Theorem generateFillBlank_hides (person : Person) (w : World) :
  let q := (generateFillBlank person w).1 in
  FillBlankQuestion.person q = person
  /\ match FillBlankQuestion.relation q with
     | rel_parents =>
         (2 <= length (Person.parents person)
          \/ (length (Person.parents person) = 1
              /\ length (Person.siblings person) < 2))
         /\ forall m : jsstring,
              FillBlankQuestion.missingPart q = Some m ->
              exists k : nat,
                Person.parents person !! k = Some m
                /\ FillBlankQuestion.visibleParts q
                   = delete k (Person.parents person)
     | rel_siblings =>
         2 <= length (Person.siblings person)
         /\ forall m : jsstring,
              FillBlankQuestion.missingPart q = Some m ->
              exists k : nat,
                Person.siblings person !! k = Some m
                /\ FillBlankQuestion.visibleParts q
                   = delete k (Person.siblings person)
     | rel_name =>
         length (Person.siblings person) < 2
         /\ length (Person.parents person) <> 1
         /\ FillBlankQuestion.missingPart q = Some (Person.name person)
         /\ FillBlankQuestion.visibleParts q = Person.parents person
     end.
Proof.
  cbv zeta. unfold generateFillBlank. cbn [bind Math_random].
  destruct ((0.4 <? random w 0)%float
            && (2 <=? length (Person.parents person))) eqn:Ea.
  - apply andb_true_iff in Ea as [_ Ea]. apply Nat.leb_le in Ea.
    cbn. split; [reflexivity|]. split; [left; exact Ea|].
    intros m Hm. apply hidden_part, Hm.
  - destruct (Nat.leb_spec 2 (length (Person.siblings person))) as [Es|Es].
    + cbn. split; [reflexivity|]. split; [exact Es|].
      intros m Hm. apply hidden_part, Hm.
    + destruct (Nat.eqb_spec (length (Person.parents person)) 1) as [Ep|Ep].
      * cbn. split; [reflexivity|]. split; [right; split; [exact Ep | exact Es]|].
        intros m Hm. exists 0. split; [exact Hm|].
        destruct (Person.parents person) as [|x [|y r]]; cbn in Ep;
          try discriminate. reflexivity.
      * cbn. auto.
Qed.

(** The missing part of a fill-in-the-blank question, typed as the
    answer, is accepted by [checkFillBlank], and so is exactly every answer
    with the same words; without a missing part the check throws. *)
Lemma checkFillBlank_accepts (q : FillBlankQuestion) :
  (forall m : jsstring,
     FillBlankQuestion.missingPart q = Some m ->
     checkFillBlank q m = Some true
     /\ forall answer : jsstring,
          checkFillBlank q answer = Some true <-> words answer = words m)
  /\ (FillBlankQuestion.missingPart q = None ->
      forall answer : jsstring, checkFillBlank q answer = None).
Proof.
  unfold checkFillBlank. split.
  - intros m ->.
    assert (forall answer, Some (compareNames answer m) = Some true
                           <-> words answer = words m) as H.
    { intros answer. rewrite <- compareNames_same_words.
      split; [intros [= ->]; reflexivity | intros ->; reflexivity]. }
    split; [apply H; reflexivity | exact H].
  - intros ->. reflexivity.
Qed.

Lemma checkFillBlank_accepts_witness :
  checkFillBlank
    (generateFillBlank person_a
       (mkWorld (fun _ => 0.5%float) (fun _ => 0%Z))).1 (lit " טל ")
  = Some true.
Proof.
  destruct (checkFillBlank_accepts
              (generateFillBlank person_a
                 (mkWorld (fun _ => 0.5%float) (fun _ => 0%Z))).1) as [H _].
  destruct (H (lit "טל")) as [_ Hw]; [vm_compute; reflexivity|].
  apply Hw. vm_compute. reflexivity.
Defined.

(** ** Flashcard rating *)

(** X14: what a flashcard rating does to the stored card of the person
    rated, whose identifier names no property of [Object.prototype] (a
    person without a card counts as box 0 with no streak). Rated easy or
    good, the card ends in box 2, from any box between 0 and the largest
    safe integer, with its streak raised by two, when the streak stays a
    safe integer, because the rated card is updated once more when the
    answer is handled; rated hard, it ends in box 0 without a streak. The
    cards of everyone else stay as they were. This holds whoever is picked
    next, and whether or not the session ends with the answer. *)
Theorem handleRate_cards_effect (people : list Person)
    (cards : gmap jsstring LeitnerCard) (lastPersonId : option jsstring)
    (questionCount : option Z) (totalAnswered : Z)
    (person : Person) (rating : Rating) (w : World) :
  let current :=
    default (LeitnerCard.mk (Person.id person) 0 0 0)
      (cards !! Person.id person) in
  let cards' :=
    (handleRate_cards people cards lastPersonId questionCount totalAnswered
       person rating w).1 in
  plain_key (Person.id person) ->
  (exists c : LeitnerCard,
     cards' !! Person.id person = Some c
     /\ LeitnerCard.personId c = LeitnerCard.personId current
     /\ match rating with
        | hard =>
            LeitnerCard.box c = 0%Z /\ LeitnerCard.correctStreak c = 0%Z
        | _ =>
            ((0 <= LeitnerCard.box current <= MAX_SAFE_INTEGER)%Z ->
             LeitnerCard.box c = 2%Z)
            /\ (counts_up_to (LeitnerCard.correctStreak current) 2 ->
                LeitnerCard.correctStreak c
                = (LeitnerCard.correctStreak current + 2)%Z)
        end)
  /\ forall pid : jsstring,
       pid <> Person.id person -> cards' !! pid = cards !! pid.
Proof.
  cbv zeta. intros _. unfold handleRate_cards, bind.
  destruct (rated_card cards person rating w) as [updated w1] eqn:Er.
  match goal with
  | |- context [(if ?b then ret None else ?n) w1] =>
      destruct ((if b then ret None else n) w1) as [next w2]
  end.
  split.
  - rewrite handleAnswer_cards_lookup. cbn [AnswerResult.personId].
    rewrite decide_True by reflexivity.
    unfold handleUpdateCard. rewrite lookup_insert_eq. cbn [default].
    eexists. split; [reflexivity|].
    unfold rated_card in Er.
    destruct (default _ (cards !! Person.id person)) as [pid b ls cs].
    assert (forall x : Z,
              (0 <= x <= MAX_SAFE_INTEGER)%Z ->
              Z.min (number_add (Z.min (number_add x 1) 2) 1) 2 = 2%Z) as Hbox.
    { intros x Hx.
      rewrite (number_add_1 x) by (unfold safe_integer; lia).
      rewrite number_add_1 by (apply safe_integer_box; lia). lia. }
    assert (forall x : Z,
              counts_up_to x 2 -> number_add (number_add x 1) 1 = (x + 2)%Z)
      as Hstreak.
    { intros x Hx.
      destruct (number_add_twice x 1 1) as [-> _]; [lia | lia | exact Hx | lia]. }
    destruct rating; cbn in Er; injection Er as <- <-;
      cbn [updateLeitnerCard bind Date_now ret fst LeitnerCard.box
           LeitnerCard.correctStreak LeitnerCard.personId clock random];
      unfold LEITNER_BOXES; change (3 - 1)%Z with 2%Z.
    + split; [reflexivity|]. split.
      * intros Hb. rewrite (Hbox b Hb).
        apply (Hbox 2%Z). unfold MAX_SAFE_INTEGER. lia.
      * apply Hstreak.
    + split; [reflexivity|]. split.
      * apply Hbox.
      * apply Hstreak.
    + repeat split.
  - intros pid Hne. rewrite handleAnswer_cards_lookup.
    cbn [AnswerResult.personId].
    rewrite decide_False by (intros E; apply Hne; symmetry; exact E).
    unfold handleUpdateCard. apply lookup_insert_ne.
    intros E. apply Hne. symmetry. exact E.
Qed.

Lemma handleRate_cards_effect_witness :
  exists c : LeitnerCard,
    (handleRate_cards [person_a; person_b] ∅ None (Some 10%Z) 3 person_a good
       sample_world).1 !! Person.id person_a
    = Some c
    /\ LeitnerCard.personId c = Person.id person_a
    /\ LeitnerCard.box c = 2%Z
    /\ LeitnerCard.correctStreak c = 2%Z.
Proof.
  destruct (handleRate_cards_effect [person_a; person_b] ∅ None (Some 10%Z) 3
              person_a good sample_world) as [(c & Hc & Hp & Hb & Hs) _].
  - apply (bool_decide_unpack _). vm_compute. exact I.
  - exists c. split; [exact Hc|]. split; [exact Hp|]. split.
    + apply Hb. rewrite lookup_empty. unfold MAX_SAFE_INTEGER. cbn. lia.
    + apply Hs. rewrite lookup_empty.
      unfold counts_up_to, safe_integer, MAX_SAFE_INTEGER. cbn. lia.
Defined.

(** ** Selection, continued *)

(** X21: [selectNextPerson] returns [undefined] for an empty roster and a
    person of the roster for any other; from two people with different
    identifiers, one of them excluded, it returns the other one, whatever
    the cards, the clock and the random draw are. *)
Theorem selectNextPerson_total (people : list Person)
    (cards : gmap jsstring LeitnerCard) (lastPersonId : option jsstring)
    (w : World) :
  (people = [] -> (selectNextPerson people cards lastPersonId w).1 = None)
  /\ (people <> [] ->
      exists p : Person,
        (selectNextPerson people cards lastPersonId w).1 = Some p
        /\ p ∈ people)
  /\ (forall a b : Person,
        people = [a; b] -> Person.id a <> Person.id b ->
        (lastPersonId = Some (Person.id a) ->
         (selectNextPerson people cards lastPersonId w).1 = Some b)
        /\ (lastPersonId = Some (Person.id b) ->
            (selectNextPerson people cards lastPersonId w).1 = Some a)).
Proof.
  split; [|split].
  - intros ->. reflexivity.
  - apply selectNextPerson_some.
  - intros a b -> Hne.
    destruct (selectNextPerson_result [a; b] cards lastPersonId w) as [_ H].
    split; intros ->.
    + assert (candidates_of [a; b] (Some (Person.id a)) = [b]) as Ec.
      { unfold candidates_of.
        rewrite filter_cons_False by (intros E; apply E; reflexivity).
        rewrite filter_cons_True by (intros [= E]; apply Hne; symmetry; exact E).
        reflexivity. }
      rewrite Ec in H. destruct H as (p & -> & Hp); [discriminate|].
      apply list_elem_of_singleton in Hp. subst p. reflexivity.
    + assert (candidates_of [a; b] (Some (Person.id b)) = [a]) as Ec.
      { unfold candidates_of.
        rewrite filter_cons_True by (intros [= E]; apply Hne; exact E).
        rewrite filter_cons_False by (intros E; apply E; reflexivity).
        reflexivity. }
      rewrite Ec in H. destruct H as (p & -> & Hp); [discriminate|].
      apply list_elem_of_singleton in Hp. subst p. reflexivity.
Qed.

Lemma selectNextPerson_total_witness :
  (selectNextPerson [person_a; person_b] ∅ (Some (Person.id person_a))
     sample_world).1 = Some person_b.
Proof.
  destruct (selectNextPerson_total [person_a; person_b] ∅
              (Some (Person.id person_a)) sample_world) as (_ & _ & H).
  apply (H person_a person_b); [reflexivity | vm_compute; discriminate |].
  reflexivity.
Defined.

(** ** Parsing, then answering *)

(** X6: the parents line and the siblings line of a block, typed as the
    answers of a free recall about the person parsed from that block, are
    accepted as all correct; so are they with their words in another order
    or with other spacing, since only the words count. *)
Theorem parse_then_checkFreeRecall (toString36 : float -> jsstring)
    (text : jsstring) (w : World) (people : list Person) (k : nat)
    (p : Person) (parentsLine siblingsLine : jsstring) :
  (parsePeopleText toString36 text w).1 = Some (Success people) ->
  people !! k = Some p ->
  nonEmptyLines text !! (3 * k + 1) = Some parentsLine ->
  nonEmptyLines text !! (3 * k + 2) = Some siblingsLine ->
  forall parentsAnswer siblingsAnswer : jsstring,
    words parentsAnswer ≡ₚ words parentsLine ->
    words siblingsAnswer ≡ₚ words siblingsLine ->
    FreeRecallResult.allCorrect
      (checkFreeRecall p parentsAnswer siblingsAnswer) = true.
Proof.
  intros H Hk Hpl Hsl parentsAnswer siblingsAnswer Hpa Hsa.
  pose proof (parse_success_person toString36 text w people p H
                (list_elem_of_lookup_2 _ _ _ Hk)) as (_ & _ & Hsib & _).
  rewrite parsePeopleText_eq in H. cbv zeta in H.
  destruct (length (nonEmptyLines text) =? 0); [discriminate|].
  destruct (negb (length (nonEmptyLines text) mod 3 =? 0)); [discriminate|].
  injection H as <-.
  apply people_of_blocks_lookup in Hk as (a & b & c & Hb & ->).
  apply triples_lookup in Hb as (_ & Hb & Hc).
  rewrite Hpl in Hb. rewrite Hsl in Hc. injection Hb as <-. injection Hc as <-.
  cbn [Person.siblings] in Hsib.
  destruct (checkFreeRecall_cases
              (Person.mk (id_of_draw toString36 (random w (0 + k))) a
                 (tokens parentsLine) (tokens siblingsLine))
              parentsAnswer siblingsAnswer) as (Hp & Hs1 & _ & Hall).
  apply Hall. split.
  - apply Hp. cbn [Person.parents]. rewrite tokens_words. exact Hpa.
  - apply Hs1; cbn [Person.siblings].
    + intros E. rewrite E in Hsib. cbn in Hsib. lia.
    + rewrite tokens_words. exact Hsa.
Qed.

Lemma parse_then_checkFreeRecall_witness :
  FreeRecallResult.allCorrect
    (checkFreeRecall
       (Person.mk [105%N] (lit "זיו") [lit "רותם"; lit "טל"]
          [lit "נועה"; lit "עמית"])
       (lit " טל   רותם") (lit "נועה עמית")) = true.
Proof.
  apply (parse_then_checkFreeRecall sample_toString36 sample_text sample_world
           [Person.mk [105%N] (lit "זיו") [lit "רותם"; lit "טל"]
              [lit "נועה"; lit "עמית"]]
           0 _ (lit "רותם טל") (lit "נועה עמית")).
  - vm_compute. reflexivity.
  - reflexivity.
  - vm_compute. reflexivity.
  - vm_compute. reflexivity.
  - change (words (lit " טל   רותם")) with [lit "טל"; lit "רותם"].
    change (words (lit "רותם טל")) with [lit "רותם"; lit "טל"].
    apply Permutation_swap.
  - reflexivity.
Defined.

(** ** Folding a session into the overall statistics, totals *)

(** X17: finishing a session adds one to [totalSessions], the number of
    the session's answers to [totalQuestions] and the number of its correct
    answers to [totalCorrect], each when the total stays a safe integer,
    and stores the cards handed over; so [totalCorrect] stays at most
    [totalQuestions] when it was. *)
Theorem finishSession_totals (people : list Person) (overall : OverallStats)
    (cards : gmap jsstring LeitnerCard) (results : list AnswerResult) :
  let after := finishSession people overall cards (session results) in
  (counts_up_to (OverallStats.totalSessions overall) 1 ->
   OverallStats.totalSessions after
   = (OverallStats.totalSessions overall + 1)%Z)
  /\ (counts_up_to (OverallStats.totalQuestions overall)
        (Z.of_nat (length results)) ->
      OverallStats.totalQuestions after
      = (OverallStats.totalQuestions overall + Z.of_nat (length results))%Z)
  /\ (counts_up_to (OverallStats.totalCorrect overall)
        (Z.of_nat (count_correct results)) ->
      OverallStats.totalCorrect after
      = (OverallStats.totalCorrect overall
         + Z.of_nat (count_correct results))%Z)
  /\ OverallStats.leitnerCards after = cards
  /\ (counts_up_to (OverallStats.totalQuestions overall)
        (Z.of_nat (length results)) ->
      counts_up_to (OverallStats.totalCorrect overall)
        (Z.of_nat (count_correct results)) ->
      (OverallStats.totalCorrect overall
       <= OverallStats.totalQuestions overall)%Z ->
      (OverallStats.totalCorrect after
       <= OverallStats.totalQuestions after)%Z).
Proof.
  cbv zeta. destruct (session_counters results) as (Ht & Hc & _ & Hle).
  unfold finishSession. cbn. rewrite Ht, Hc.
  split; [|split; [|split; [|split]]].
  - intros [_ H]. apply number_add_safe, H.
  - intros [_ H]. apply number_add_safe, H.
  - intros [_ H]. apply number_add_safe, H.
  - reflexivity.
  - intros [_ Hq] [_ Hk] H.
    rewrite !number_add_safe by assumption. lia.
Qed.

Lemma finishSession_totals_witness :
  let after :=
    finishSession [person_a] (OverallStats.mk 4 40 31 ∅ ∅) ∅
      (session seven_of_twenty_five) in
  OverallStats.totalSessions after = 5%Z
  /\ OverallStats.totalQuestions after = 65%Z
  /\ OverallStats.totalCorrect after = 38%Z.
Proof.
  cbv zeta.
  pose proof (finishSession_totals [person_a] (OverallStats.mk 4 40 31 ∅ ∅) ∅
                seven_of_twenty_five) as (Hs & Hq & Hc & _).
  split; [|split].
  - apply Hs. vm_compute. repeat split; discriminate.
  - apply Hq. vm_compute. repeat split; discriminate.
  - apply Hc. vm_compute. repeat split; discriminate.
Defined.

Lemma upsert_person_accuracy (people : list Person)
    (ps : gmap jsstring PersonStats) (r : AnswerResult) (s : PersonStats) :
  upsert_person people ps r !! AnswerResult.personId r = Some s ->
  PersonStats.accuracy s
  = if (0 <? PersonStats.timesAsked s)%Z
    then percent (PersonStats.timesCorrect s) (PersonStats.timesAsked s)
    else 0%float.
Proof.
  unfold upsert_person. rewrite lookup_insert_eq. intros [= <-]. reflexivity.
Qed.

(** The accuracy stored for a person the session has an answer about goes
    with the stored counters. *)
Lemma fold_upsert_accuracy (people : list Person)
    (results : list AnswerResult) (pid : jsstring) :
  forall (ps : gmap jsstring PersonStats) (s : PersonStats),
    pid ∈ map AnswerResult.personId results ->
    fold_left (upsert_person people) results ps !! pid = Some s ->
    PersonStats.accuracy s
    = if (0 <? PersonStats.timesAsked s)%Z
      then percent (PersonStats.timesCorrect s) (PersonStats.timesAsked s)
      else 0%float.
Proof.
  induction results as [|r results IH] using rev_ind; intros ps s Hin Hs.
  - inversion Hin.
  - rewrite fold_left_app in Hs. cbn [fold_left] in Hs.
    destruct (decide (AnswerResult.personId r = pid)) as [<-|Hne].
    + eapply upsert_person_accuracy, Hs.
    + unfold upsert_person in Hs at 1.
      rewrite lookup_insert_ne in Hs by exact Hne.
      apply (IH ps); [|exact Hs].
      rewrite map_app in Hin. apply elem_of_app in Hin as [Hin|Hin];
        [exact Hin|].
      cbn in Hin. apply list_elem_of_singleton in Hin. congruence.
Qed.

(** X18: the accuracy that [finishSession] stores for a person the session
    has an answer about, in terms of what went in: with [asked] the
    person's [timesAsked] before plus the number of the session's answers
    about the person, and [correct] the [timesCorrect] before plus the
    number of correct ones among them, it is the double
    [(correct / asked) * 100] when [asked] is positive and 0 otherwise,
    whatever accuracy was stored before; for counters that stay safe
    integers and an identifier that names no property of
    [Object.prototype]. *)
Theorem finishSession_accuracy (people : list Person) (overall : OverallStats)
    (cards : gmap jsstring LeitnerCard) (results : list AnswerResult)
    (pid : jsstring) :
  let before := OverallStats.personStats overall !! pid in
  let asked :=
    (asked_of before + Z.of_nat (length (answers_about pid results)))%Z in
  let correct :=
    (correct_of before
     + Z.of_nat (count_correct (answers_about pid results)))%Z in
  plain_key pid ->
  answers_about pid results <> [] ->
  counts_up_to (asked_of before)
    (Z.of_nat (length (answers_about pid results))) ->
  counts_up_to (correct_of before)
    (Z.of_nat (count_correct (answers_about pid results))) ->
  exists s : PersonStats,
    OverallStats.personStats
      (finishSession people overall cards (session results)) !! pid = Some s
    /\ PersonStats.timesAsked s = asked
    /\ PersonStats.timesCorrect s = correct
    /\ PersonStats.accuracy s
       = if (0 <? asked)%Z
         then (float_of_Z correct / float_of_Z asked * 100)%float
         else 0%float.
Proof.
  cbv zeta. intros _ Hne Ha Hc.
  unfold finishSession. cbn [OverallStats.personStats].
  rewrite session_results.
  destruct (fold_upsert_frame people results pid
              (OverallStats.personStats overall)) as [_ Hsome].
  destruct (Hsome Hne) as [s Hs].
  destruct (fold_upsert_counts people results pid
              (OverallStats.personStats overall) Ha Hc) as [Hasked Hcorrect].
  rewrite Hs in Hasked, Hcorrect. cbn in Hasked, Hcorrect.
  exists s. split; [exact Hs|]. split; [exact Hasked|].
  split; [exact Hcorrect|].
  rewrite (fold_upsert_accuracy people results pid
             (OverallStats.personStats overall) s); [| | exact Hs].
  - rewrite Hasked, Hcorrect. reflexivity.
  - unfold answers_about in Hne.
    destruct (filter _ results) as [|r0 l] eqn:Ef; [contradiction|].
    assert (r0 ∈ filter (fun r => AnswerResult.personId r = pid) results)
      as Hr0 by (rewrite Ef; left).
    apply list_elem_of_filter in Hr0 as [<- Hin].
    rewrite map_fmap. apply list_elem_of_fmap. eauto.
Qed.

Lemma finishSession_accuracy_witness :
  exists s : PersonStats,
    OverallStats.personStats
      (finishSession [person_a]
         (OverallStats.mk 0 0 0
            {[ [97%N] := PersonStats.mk [97%N] (lit "זיו") 18 0 7%float ]} ∅)
         ∅ (session seven_of_twenty_five)) !! [97%N] = Some s
    /\ PersonStats.timesAsked s = 43%Z
    /\ PersonStats.timesCorrect s = 7%Z
    /\ PersonStats.accuracy s = (float_of_Z 7 / float_of_Z 43 * 100)%float.
Proof.
  destruct (finishSession_accuracy [person_a]
              (OverallStats.mk 0 0 0
                 {[ [97%N] := PersonStats.mk [97%N] (lit "זיו") 18 0 7%float ]} ∅)
              ∅ seven_of_twenty_five [97%N])
    as (s & Hs & Hasked & Hcorrect & Hacc).
  - apply (bool_decide_unpack _). vm_compute. exact I.
  - vm_compute. discriminate.
  - vm_compute. repeat split; discriminate.
  - vm_compute. repeat split; discriminate.
  - exists s. split; [exact Hs|]. split; [exact Hasked|].
    split; [exact Hcorrect | exact Hacc].
Defined.

(** ** Shuffling *)

Lemma insert_swap_head {A} (rest : list A) :
  forall (k : nat) (x y : A),
    rest !! k = Some y -> y :: <[k := x]> rest ≡ₚ x :: rest.
Proof.
  induction rest as [|a rest IH]; intros k x y Hk; [discriminate|].
  destruct k as [|k]; cbn in Hk |- *.
  - injection Hk as ->. apply Permutation_swap.
  - rewrite Permutation_swap. rewrite (IH k x y Hk). apply Permutation_swap.
Qed.

Lemma swap_Permutation {A} (arr : list A) :
  forall i j : nat, swap arr i j ≡ₚ arr.
Proof.
  unfold swap. induction arr as [|a arr IH]; intros i j; [reflexivity|].
  destruct i as [|i], j as [|j]; cbn.
  - reflexivity.
  - destruct (arr !! j) as [y|] eqn:Ej; [|reflexivity].
    cbn. apply insert_swap_head, Ej.
  - destruct (arr !! i) as [x|] eqn:Ei; [|reflexivity].
    cbn. symmetry. rewrite <- (insert_swap_head arr i a x Ei). reflexivity.
  - specialize (IH i j).
    destruct (arr !! i) as [x|]; [|reflexivity].
    destruct (arr !! j) as [y|]; [|reflexivity].
    cbn. rewrite IH. reflexivity.
Qed.

Lemma shuffle_loop_Permutation {A} (i : nat) :
  forall (arr l : list A) (w : World),
    (shuffle_loop i arr w).1 = Some l -> l ≡ₚ arr.
Proof.
  induction i as [|i IH]; intros arr l w H.
  - cbn in H. injection H as <-. reflexivity.
  - cbn [shuffle_loop] in H. unfold bind in H.
    destruct (random_index (S i + 1) w) as [[z|] w1]; [|discriminate].
    destruct ((0 <=? z)%Z && (z <=? Z.of_nat (S i))%Z); [|discriminate].
    apply IH in H. rewrite H. apply swap_Permutation.
Qed.

Lemma good_draws_next (bound : nat) (w : World) :
  good_draws bound w -> good_draws bound (Math_random w).2.
Proof. intros H k n Hn. apply (H (S k) n Hn). Qed.

Lemma random_index_good (bound n : nat) (w : World) :
  good_draws bound w -> 0 < n <= bound ->
  exists j : nat,
    (random_index n w).1 = Some (Z.of_nat j) /\ j < n
    /\ good_draws bound (random_index n w).2.
Proof.
  intros H Hn. destruct (H 0 n Hn) as (j & Hj & Hlt).
  exists j. cbn. split; [exact Hj|]. split; [exact Hlt|].
  apply (good_draws_next bound w H).
Qed.

Lemma shuffle_loop_good {A} (bound i : nat) :
  forall (arr : list A) (w : World),
    good_draws bound w -> i < bound ->
    exists l : list A,
      (shuffle_loop i arr w).1 = Some l
      /\ good_draws bound (shuffle_loop i arr w).2.
Proof.
  induction i as [|i IH]; intros arr w Hw Hi.
  - exists arr. split; [reflexivity | exact Hw].
  - cbn [shuffle_loop]. unfold bind.
    destruct (random_index_good bound (S i + 1) w Hw) as (j & Hj & Hlt & Hw1);
      [lia|].
    destruct (random_index (S i + 1) w) as [o w1]. cbn [fst snd] in Hj, Hw1.
    subst o.
    destruct (Z.leb_spec 0 (Z.of_nat j)); [|lia].
    destruct (Z.leb_spec (Z.of_nat j) (Z.of_nat (S i))); [|lia].
    cbn [andb]. apply IH; [exact Hw1 | lia].
Qed.

(** X24: whenever [shuffle] returns, the array it returns is a
    rearrangement of the array given: no element lost, added or
    duplicated; and it returns for every world whose draws behave as those
    of [Math.random()] for lengths up to that of the array. *)
Theorem shuffle_Permutation {A} (array : list A) (w : World) :
  (forall l : list A, (shuffle array w).1 = Some l -> l ≡ₚ array)
  /\ (good_draws (length array) w -> is_Some (shuffle array w).1).
Proof.
  unfold shuffle. cbv zeta. split.
  - intros l. apply shuffle_loop_Permutation.
  - intros Hw. destruct array as [|a array]; [cbn; eauto|].
    destruct (shuffle_loop_good (length (a :: array))
                (length (a :: array) - 1) (a :: array) w Hw) as (l & Hl & _).
    + cbn. lia.
    + rewrite Hl. eauto.
Qed.

Lemma good_draws_half (bound : nat) :
  bound <= 4 -> good_draws bound (constant_world 0.5%float).
Proof.
  intros Hb k n Hn.
  destruct n as [|[|[|[|[|n]]]]]; try lia.
  - exists 0. split; [vm_compute; reflexivity | lia].
  - exists 1. split; [vm_compute; reflexivity | lia].
  - exists 1. split; [vm_compute; reflexivity | lia].
  - exists 2. split; [vm_compute; reflexivity | lia].
Defined.

Lemma shuffle_Permutation_witness :
  is_Some (shuffle [1; 2; 3] (constant_world 0.5%float)).1.
Proof.
  apply (shuffle_Permutation [1; 2; 3] (constant_world 0.5%float)).
  apply good_draws_half. cbn. lia.
Defined.

(** ** Multiple choice *)

Lemma pickRandom_elems {A} (array : list A) (count : nat)
    (excludeIndices : list Z) (w : World) (l : list A) :
  (pickRandom array count excludeIndices w).1 = Some l ->
  forall x : A,
    x ∈ l ->
    exists i : nat, array !! i = Some x /\ Z.of_nat i ∉ excludeIndices.
Proof.
  unfold pickRandom, bind. cbv zeta.
  pose proof (proj1 (shuffle_Permutation
    (filter (fun i => Z.of_nat i ∉ excludeIndices) (seq 0 (length array))) w))
    as Hperm.
  destruct (shuffle _ w) as [[shuffled|] w1]; [|discriminate].
  cbn [fst ret] in *. intros [= <-]. specialize (Hperm shuffled eq_refl).
  intros x Hx. apply list_elem_of_omap in Hx as (i & Hi & Hx).
  exists i. split; [exact Hx|].
  apply elem_of_take in Hi as (k & Hk & _).
  apply list_elem_of_lookup_2 in Hk. rewrite Hperm in Hk.
  apply list_elem_of_filter in Hk as [Hk _]. exact Hk.
Qed.

Lemma pickRandom_good {A} (bound : nat) (array : list A) (count : nat)
    (excludeIndices : list Z) (w : World) :
  good_draws bound w -> 0 < bound -> length array <= bound ->
  is_Some (pickRandom array count excludeIndices w).1
  /\ good_draws bound (pickRandom array count excludeIndices w).2.
Proof.
  intros Hw Hb Hlen. unfold pickRandom, bind, shuffle. cbv zeta.
  set (indices := filter _ _).
  assert (length indices <= length array) as Hi.
  { unfold indices. etransitivity; [apply length_filter|].
    rewrite length_seq. lia. }
  destruct (shuffle_loop_good bound (length indices - 1) indices w Hw)
    as (l & Hl & Hw1); [lia|].
  destruct (shuffle_loop (length indices - 1) indices w) as [o w1].
  cbn [fst snd] in Hl, Hw1. subst o. cbn. eauto.
Qed.

Lemma dedupe_from_elem (xs : list jsstring) :
  forall (seen : list jsstring) (x : jsstring),
    x ∈ dedupe_from seen xs -> x ∈ xs.
Proof.
  induction xs as [|y xs IH]; intros seen x H; [inversion H|].
  cbn in H. destruct (decide (y ∈ seen)).
  - right. eapply IH, H.
  - apply elem_of_cons in H as [->|H]; [left | right; eapply IH, H].
Qed.

Lemma three_distractors_spec (distractors : list jsstring) :
  length (three_distractors distractors) = 3
  /\ forall x : jsstring,
       x ∈ three_distractors distractors -> x ∈ distractors \/ x = dash.
Proof.
  unfold three_distractors. cbv zeta. split.
  - rewrite length_app, length_replicate, length_take. lia.
  - intros x H. apply elem_of_app in H as [H|H].
    + left. apply elem_of_take in H as (k & Hk & _).
      eapply dedupe_from_elem, list_elem_of_lookup_2, Hk.
    + right. apply elem_of_replicate in H as [-> _]. reflexivity.
Qed.

Lemma filter_eq_nil (c : jsstring) (l : list jsstring) :
  c ∉ l -> filter (fun o => o = c) l = [].
Proof.
  induction l as [|x l IH]; intros H; [reflexivity|].
  apply not_elem_of_cons in H as [Hne H].
  rewrite filter_cons_False by congruence. apply IH, H.
Qed.

Lemma filter_eq_elem (c : jsstring) (l : list jsstring) :
  c ∈ l -> 1 <= length (filter (fun o => o = c) l).
Proof.
  intros H.
  assert (c ∈ filter (fun o => o = c) l) as Hin
      by (apply list_elem_of_filter; auto).
  destruct (filter _ l); [inversion Hin | cbn; lia].
Qed.

(** An element that a list holds once is at one index only. *)
Lemma lookup_once (c : jsstring) (l : list jsstring) (i k : nat) :
  length (filter (fun o => o = c) l) = 1 ->
  l !! i = Some c -> l !! k = Some c -> i = k.
Proof.
  assert (forall i k, i < k -> l !! i = Some c -> l !! k = Some c ->
            2 <= length (filter (fun o => o = c) l)) as Hlt.
  { clear i k. intros i k Hik Hi Hk.
    rewrite <- (take_drop_middle l i c Hi).
    rewrite filter_app, filter_cons_True by reflexivity.
    rewrite length_app. cbn [length].
    assert (c ∈ drop (S i) l) as Hin.
    { apply list_elem_of_lookup. exists (k - S i).
      rewrite lookup_drop. replace (S i + (k - S i)) with k by lia. exact Hk. }
    pose proof (filter_eq_elem c _ Hin). lia. }
  intros H1 Hi Hk.
  destruct (Nat.lt_trichotomy i k) as [H|[H|H]]; [|exact H|].
  - pose proof (Hlt i k H Hi Hk). lia.
  - pose proof (Hlt k i H Hk Hi). lia.
Qed.

Lemma multiple_choice_spec (person : Person) (allPeople : list Person)
    (personIndex : Z) (correct : jsstring) (value : Person -> jsstring)
    (keep : jsstring -> bool) (prompt : jsstring) (relation : RelationType)
    (w : World) (q : MultipleChoiceQuestion) :
  (forall d : jsstring, keep d = true -> d <> correct) ->
  (multiple_choice person allPeople personIndex correct value keep prompt
     relation w).1 = Some q ->
  MultipleChoiceQuestion.person q = person
  /\ MultipleChoiceQuestion.relation q = relation
  /\ length (MultipleChoiceQuestion.options q) = 4
  /\ (exists i : nat,
        MultipleChoiceQuestion.correctIndex q = Z.of_nat i
        /\ MultipleChoiceQuestion.options q !! i = Some correct)
  /\ (forall o : jsstring,
        o ∈ MultipleChoiceQuestion.options q ->
        o = correct \/ o = dash
        \/ exists other : Person,
             other ∈ allPeople /\ o = value other /\ o <> correct)
  /\ (correct <> dash ->
      forall i : nat,
        MultipleChoiceQuestion.options q !! i = Some correct ->
        Z.of_nat i = MultipleChoiceQuestion.correctIndex q).
Proof.
  intros Hkeep. unfold multiple_choice, bind.
  pose proof (pickRandom_elems allPeople 5 [personIndex] w) as Hpick.
  destruct (pickRandom allPeople 5 [personIndex] w) as [[picked|] w1];
    [|discriminate].
  cbn [fst] in Hpick. specialize (Hpick picked eq_refl).
  set (D := three_distractors (List.filter keep (map value picked))).
  pose proof (proj1 (shuffle_Permutation (correct :: D) w1)) as Hperm.
  destruct (shuffle (correct :: D) w1) as [[options|] w2]; [|discriminate].
  cbn [fst ret] in *. specialize (Hperm options eq_refl).
  intros [= <-].
  cbn [MultipleChoiceQuestion.person MultipleChoiceQuestion.relation
       MultipleChoiceQuestion.options MultipleChoiceQuestion.correctIndex].
  destruct (three_distractors_spec (List.filter keep (map value picked)))
    as [HlenD HelemD]. fold D in HlenD, HelemD.
  assert (forall o, o ∈ D -> o = dash \/ (o <> correct /\ exists other,
            other ∈ allPeople /\ o = value other)) as HD.
  { intros o Ho. apply HelemD in Ho as [Ho|Ho]; [right | left; exact Ho].
    apply list_elem_of_In, filter_In in Ho as [Ho Hk].
    split; [apply Hkeep, Hk|].
    apply in_map_iff in Ho as (other & <- & Ho).
    apply list_elem_of_In, Hpick in Ho as (i & Hi & _).
    exists other. split; [eapply list_elem_of_lookup_2, Hi | reflexivity]. }
  assert (correct ∈ options) as Hin by (rewrite Hperm; left).
  destruct (list_find_elem_of (fun o => o = correct) options correct Hin
              eq_refl) as [[i x] Hf].
  unfold findIndex. rewrite Hf.
  apply list_find_Some in Hf as (Hi & -> & _).
  split; [reflexivity|]. split; [reflexivity|]. split; [|split; [|split]].
  - rewrite Hperm. cbn. rewrite HlenD. reflexivity.
  - exists i. auto.
  - intros o Ho. rewrite Hperm in Ho.
    apply elem_of_cons in Ho as [->|Ho]; [left; reflexivity|].
    destruct (HD o Ho) as [->|(Hne & other & Hother & ->)]; [auto|].
    right. right. exists other. auto.
  - intros Hdash k Hk. f_equal. symmetry.
    apply (lookup_once correct options i k); [|exact Hi | exact Hk].
    rewrite Hperm, filter_cons_True by reflexivity.
    rewrite filter_eq_nil; [reflexivity|].
    intros Hc. destruct (HD correct Hc) as [E|[E _]]; congruence.
Qed.

Lemma multiple_choice_good (bound : nat) (person : Person)
    (allPeople : list Person) (personIndex : Z) (correct : jsstring)
    (value : Person -> jsstring) (keep : jsstring -> bool) (prompt : jsstring)
    (relation : RelationType) (w : World) :
  good_draws bound w -> 4 <= bound -> length allPeople <= bound ->
  is_Some (multiple_choice person allPeople personIndex correct value keep
             prompt relation w).1.
Proof.
  intros Hw Hb Hlen. unfold multiple_choice, bind.
  destruct (pickRandom_good bound allPeople 5 [personIndex] w Hw)
    as [[picked Hp] Hw1]; [lia | exact Hlen |].
  destruct (pickRandom allPeople 5 [personIndex] w) as [o w1].
  cbn [fst snd] in Hp, Hw1. subst o.
  set (D := three_distractors (List.filter keep (map value picked))).
  assert (length D = 3) as HlenD by apply three_distractors_spec.
  unfold shuffle. cbv zeta.
  destruct (shuffle_loop_good bound (length (correct :: D) - 1)
              (correct :: D) w1 Hw1) as (l & Hl & _); [cbn; lia|].
  destruct (shuffle_loop _ (correct :: D) w1) as [o w2].
  cbn [fst] in Hl. subst o. cbn. eauto.
Qed.

(** X25: a multiple choice question that [generateMultipleChoice] returns
    is well formed. It is about the person given and has four options; the
    option at [correctIndex] is the person's value for the question's
    relation; every option is that value, the placeholder, or the value of
    a person of the roster that differs from the correct one; and, unless
    the correct value is the placeholder itself, no other option equals
    the correct one. The function returns for every world whose draws
    behave as those of [Math.random()] for lengths up to 4 and the size of
    the roster. *)
Theorem generateMultipleChoice_wellformed (person : Person)
    (allPeople : list Person) (w : World) :
  (forall q : MultipleChoiceQuestion,
     (generateMultipleChoice person allPeople w).1 = Some q ->
     let correct := shown_value (MultipleChoiceQuestion.relation q) person in
     MultipleChoiceQuestion.person q = person
     /\ length (MultipleChoiceQuestion.options q) = 4
     /\ (exists i : nat,
           MultipleChoiceQuestion.correctIndex q = Z.of_nat i
           /\ MultipleChoiceQuestion.options q !! i = Some correct)
     /\ (forall o : jsstring,
           o ∈ MultipleChoiceQuestion.options q ->
           o = correct \/ o = dash
           \/ exists other : Person,
                other ∈ allPeople
                /\ o = shown_value (MultipleChoiceQuestion.relation q) other
                /\ o <> correct)
     /\ (correct <> dash ->
         forall i : nat,
           MultipleChoiceQuestion.options q !! i = Some correct ->
           checkMultipleChoice q (Z.of_nat i) = true))
  /\ (good_draws (Nat.max 4 (length allPeople)) w ->
      is_Some (generateMultipleChoice person allPeople w).1).
Proof.
  unfold generateMultipleChoice. cbn [bind Math_random].
  set (w1 := mkWorld _ _). split.
  - intros q Hq. cbv zeta.
    destruct (random w 0 <? 0.4)%float;
      [|destruct (random w 0 <? 0.7)%float];
      apply multiple_choice_spec in Hq
        as (Hp & Hr & Hlen & Hidx & Hopt & Huniq);
      try (intros d Hd;
           repeat (apply andb_true_iff in Hd as [Hd _]);
           apply bool_decide_eq_true in Hd; exact Hd);
      rewrite Hr; cbn [shown_value];
      (split; [exact Hp|]); (split; [exact Hlen|]);
      (split; [exact Hidx|]); (split; [exact Hopt|]);
      intros Hdash i Hi; unfold checkMultipleChoice;
      apply Z.eqb_eq, Huniq; assumption.
  - intros Hw.
    assert (good_draws (Nat.max 4 (length allPeople)) w1) as Hw1
        by apply (good_draws_next _ w Hw).
    destruct (random w 0 <? 0.4)%float;
      [|destruct (random w 0 <? 0.7)%float];
      apply (multiple_choice_good (Nat.max 4 (length allPeople)));
      try exact Hw1; lia.
Qed.

Lemma generateMultipleChoice_wellformed_witness :
  is_Some (generateMultipleChoice person_a [person_a; person_b]
             (constant_world 0.5%float)).1.
Proof.
  apply (generateMultipleChoice_wellformed person_a [person_a; person_b]
           (constant_world 0.5%float)).
  apply good_draws_half. cbn. lia.
Defined.
